(** * GeoChain: the encrypted score ledger, its client-side coordinator and
      the pages around them

    The programs of the repository that are embedded here:

    - [Ledger] follows [contracts/GeoChainFHE.sol]: the Solidity contract that
      keeps one encrypted running total per player, the public statistics that
      gate the badges, and the badge claims.
    - [Coordinator] follows [frontend/src/web3/hooks/useGeoChain.ts]: the React
      hook that serialises refresh, decrypt and submit against that contract;
      [CoordinatorViews] adds the flags it hands to the pages.
    - [RecordDetail], [Records], [BadgesPage] and [Play] follow the pages of
      [frontend/src/ui/pages], and [Leaderboard] the leaderboard page, as far
      as they compute; [InMemoryStorage] follows [useInMemoryStorage.ts].

    Solidity's [uint256], [bytes32] and [address] are integers ([Z]) with the
    wrap-around or the overflow revert written where the contract has it;
    mappings are finite maps read with the type's zero value as default. *)

From Stdlib Require Import ZArith String Ascii List Lia Bool.
From Stdlib Require Import HexadecimalString HexadecimalN HexadecimalZ.
From stdpp Require Import base gmap strings list sorting.

Open Scope Z_scope.

(** ** Part I: the contract *)

Module Ledger.

Definition MAX_UINT256 : Z := 2 ^ 256 - 1.
Definition MAX_UINT32 : Z := 2 ^ 32 - 1.

(** Arithmetic inside an [unchecked] block wraps modulo 2^256. *)
Definition wrap256 (x : Z) : Z := x mod 2 ^ 256.

(** Solidity's time unit [1 days]. *)
Definition days : Z := 86400.

(** The FHE library ([@fhevm/solidity/lib/FHE.sol]) is an external dependency
    of the contract.  The contract only handles [euint32] values, which are
    [bytes32] handles; the handle zero is the uninitialised [euint32].  The
    interface below is what [submitResult] uses of the library:

    - [fromExternal contract sender ext proof] checks the input proof of the
      external handle [ext] for the calling contract and its caller; it yields
      the internal handle, or nothing when the proof does not validate (the
      call then reverts);
    - [add a b] is the handle of the encrypted sum of two [euint32];
    - [cleartext h] is the 32-bit value that decrypting the initialised handle
      [h] yields.

    [FHE.add] replaces an uninitialised operand by an encryption of zero; the
    law [add_correct] says so through [valueOf]. *)
Class FHE := {
  fromExternal : Z -> Z -> Z -> list Byte.byte -> option Z;
  add : Z -> Z -> Z;
  cleartext : Z -> Z;
  fromExternal_initialized :
    forall contract sender ext proof h,
      fromExternal contract sender ext proof = Some h -> h <> 0;
  add_initialized : forall a b, add a b <> 0;
  cleartext_range : forall h, 0 <= cleartext h <= MAX_UINT32;
  add_correct :
    forall a b,
      cleartext (add a b)
      = ((if a =? 0 then 0 else cleartext a) + (if b =? 0 then 0 else cleartext b))
          mod 2 ^ 32
}.

(** The value an operand of [FHE.add] stands for. *)
Definition valueOf `{FHE} (h : Z) : Z := if h =? 0 then 0 else cleartext h.

Record PlayerStats := {
  numGames : Z;
  totalPublicScore : Z;
  maxSinglePublicScore : Z;
  lastPlayedAt : Z
}.

(** The value a [mapping(address => PlayerStats)] reads at an unset key. *)
Definition noStats : PlayerStats :=
  {| numGames := 0; totalPublicScore := 0; maxSinglePublicScore := 0; lastPlayedAt := 0 |}.

Inductive Event :=
| ResultSubmitted (id player resultHash : Z) (resultCID : string) (scorePublic timestamp : Z)
| QuestionPoolUpdated (poolCID : string) (version : Z)
| BadgeClaimed (player badgeId timestamp : Z).

(** The storage variables of [GeoChainFHE], in declaration order. *)
Record Storage := {
  nextResultId : Z;
  _encryptedTotalScoreByPlayer : gmap Z Z;
  _encryptedScoreByResultId : gmap Z Z;
  playerStats : gmap Z PlayerStats;
  badgeClaimed : gmap (Z * Z) bool
}.

(** What a transaction can change: the contract's storage, the access-control
    list that [FHE.allow] and [FHE.allowThis] write (pairs of a handle and an
    account allowed on it), and the event log. *)
Record Chain := {
  storage : Storage;
  acl : list (Z * Z);
  logs : list Event
}.

(** [msg.sender], [block.timestamp] and [address(this)]. *)
Record Env := {
  sender : Z;
  timestamp : Z;
  this : Z
}.

Inductive Error :=
| ProofInvalid          (* FHE.fromExternal rejects the input proof *)
| AbiDecode             (* an argument does not fit its declared type *)
| Panic                 (* checked arithmetic overflow, Panic(0x11) *)
| AlreadyClaimed        (* require(..., "Already claimed") *)
| UnknownBadge          (* revert("Unknown badge") *)
| ConditionsNotMet.     (* require(ok, "Conditions not met") *)

Inductive result (A : Type) :=
| Ok (a : A)
| Revert (e : Error).
Arguments Ok {A} a.
Arguments Revert {A} e.

Definition deploy : Chain :=
  {| storage := {| nextResultId := 1;
                   _encryptedTotalScoreByPlayer := ∅;
                   _encryptedScoreByResultId := ∅;
                   playerStats := ∅;
                   badgeClaimed := ∅ |};
     acl := [];
     logs := [] |}.

(** *** Views *)

Definition getEncryptedTotalScore (c : Chain) (player : Z) : Z :=
  default 0 (_encryptedTotalScoreByPlayer (storage c) !! player).

Definition getMyEncryptedTotalScore (env : Env) (c : Chain) : Z :=
  default 0 (_encryptedTotalScoreByPlayer (storage c) !! sender env).

Definition getEncryptedResultScore (c : Chain) (id : Z) : Z :=
  default 0 (_encryptedScoreByResultId (storage c) !! id).

Definition getPlayerStats (c : Chain) (player : Z) : PlayerStats :=
  default noStats (playerStats (storage c) !! player).

Definition isClaimed (c : Chain) (badgeId player : Z) : bool :=
  default false (badgeClaimed (storage c) !! (badgeId, player)).

(** *** submitResult *)

(** The [unchecked] block of [submitResult]. *)
Definition updateStats (s : PlayerStats) (scorePublic now : Z) : PlayerStats :=
  {| numGames := wrap256 (numGames s + 1);
     totalPublicScore := wrap256 (totalPublicScore s + scorePublic);
     maxSinglePublicScore :=
       if maxSinglePublicScore s <? scorePublic then scorePublic
       else maxSinglePublicScore s;
     lastPlayedAt := now |}.

Definition submitResult `{FHE} (env : Env)
    (scoreExt : Z) (inputProof : list Byte.byte)
    (resultHash : Z) (resultCID : string) (scorePublic : Z)
    (c : Chain) : result (Z * Chain) :=
  (* the ABI decoder refuses a [uint32] argument out of range *)
  if negb ((0 <=? scorePublic) && (scorePublic <=? MAX_UINT32)) then Revert AbiDecode else
  match fromExternal (this env) (sender env) scoreExt inputProof with
  | None => Revert ProofInvalid
  | Some score =>
    let st := storage c in
    let currentTotal := default 0 (_encryptedTotalScoreByPlayer st !! sender env) in
    let newTotal := add currentTotal score in
    let totals := <[sender env := newTotal]> (_encryptedTotalScoreByPlayer st) in
    let acl' :=
      acl c ++ [(newTotal, this env); (newTotal, sender env);
                (score, this env); (score, sender env)] in
    (* [resultId = nextResultId++] is checked arithmetic *)
    if nextResultId st =? MAX_UINT256 then Revert Panic else
    let resultId := nextResultId st in
    let s := default noStats (playerStats st !! sender env) in
    let st' :=
      {| nextResultId := nextResultId st + 1;
         _encryptedTotalScoreByPlayer := totals;
         _encryptedScoreByResultId := <[resultId := score]> (_encryptedScoreByResultId st);
         playerStats :=
           <[sender env := updateStats s scorePublic (timestamp env)]> (playerStats st);
         badgeClaimed := badgeClaimed st |} in
    Ok (resultId,
        {| storage := st';
           acl := acl';
           logs := logs c ++ [ResultSubmitted resultId (sender env) resultHash resultCID
                                scorePublic (timestamp env)] |})
  end.

(** *** claimBadge *)

(** Checked addition of two [uint256]: [None] stands for the overflow panic. *)
Definition checkedAdd (a b : Z) : option Z :=
  if a + b <=? MAX_UINT256 then Some (a + b) else None.

(** The [if]/[else if] chain of [claimBadge]: the value of [ok], or the revert
    the chain ends in.  [&&] evaluates its right operand only when the left one
    holds. *)
Definition badgeCondition (badgeId : Z) (s : PlayerStats) (now : Z) : result bool :=
  if badgeId =? 1 then Ok (1 <=? numGames s)
  else if badgeId =? 2 then Ok (10 <=? totalPublicScore s)
  else if badgeId =? 3 then Ok (20 <=? maxSinglePublicScore s)
  else if badgeId =? 4 then
    if 3 <=? numGames s then
      match checkedAdd (lastPlayedAt s) (7 * days) with
      | Some t => Ok (now <=? t)
      | None => Revert Panic
      end
    else Ok false
  else if badgeId =? 5 then
    match checkedAdd (lastPlayedAt s) (1 * days) with
    | Some t => Ok (now <=? t)
    | None => Revert Panic
    end
  else if badgeId =? 6 then Ok (10 <=? numGames s)
  else Revert UnknownBadge.

Definition claimBadge (env : Env) (badgeId : Z) (c : Chain) : result (unit * Chain) :=
  let st := storage c in
  if default false (badgeClaimed st !! (badgeId, sender env)) then Revert AlreadyClaimed else
  let s := default noStats (playerStats st !! sender env) in
  match badgeCondition badgeId s (timestamp env) with
  | Revert e => Revert e
  | Ok false => Revert ConditionsNotMet
  | Ok true =>
    Ok (tt,
        {| storage :=
             {| nextResultId := nextResultId st;
                _encryptedTotalScoreByPlayer := _encryptedTotalScoreByPlayer st;
                _encryptedScoreByResultId := _encryptedScoreByResultId st;
                playerStats := playerStats st;
                badgeClaimed := <[(badgeId, sender env) := true]> (badgeClaimed st) |};
           acl := acl c;
           logs := logs c ++ [BadgeClaimed (sender env) badgeId (timestamp env)] |})
  end.

(** *** updateQuestionPool *)

Definition updateQuestionPool (env : Env) (poolCID : string) (version : Z)
    (c : Chain) : result (unit * Chain) :=
  Ok (tt,
      {| storage := storage c;
         acl := acl c;
         logs := logs c ++ [QuestionPoolUpdated poolCID version] |}).

(** *** Transactions

    The state-changing entry points of the contract, and the chain's rule that
    a reverted call leaves every piece of state as it was. *)

Inductive Call :=
| SubmitResult (scoreExt : Z) (inputProof : list Byte.byte)
               (resultHash : Z) (resultCID : string) (scorePublic : Z)
| ClaimBadge (badgeId : Z)
| UpdateQuestionPool (poolCID : string) (version : Z).

Record Tx := { txEnv : Env; txCall : Call }.

Inductive Receipt :=
| Succeeded (returned : option Z)
| Reverted (e : Error).

Definition execute `{FHE} (c : Chain) (tx : Tx) : Chain * Receipt :=
  match txCall tx with
  | SubmitResult ext proof h cid pub =>
      match submitResult (txEnv tx) ext proof h cid pub c with
      | Ok (id, c') => (c', Succeeded (Some id))
      | Revert e => (c, Reverted e)
      end
  | ClaimBadge b =>
      match claimBadge (txEnv tx) b c with
      | Ok (_, c') => (c', Succeeded None)
      | Revert e => (c, Reverted e)
      end
  | UpdateQuestionPool cid v =>
      match updateQuestionPool (txEnv tx) cid v c with
      | Ok (_, c') => (c', Succeeded None)
      | Revert e => (c, Reverted e)
      end
  end.

Definition run `{FHE} (c : Chain) (txs : list Tx) : Chain :=
  fold_left (fun c tx => fst (execute c tx)) txs c.

(** What one transaction adds to the scores a player got accepted: the value
    behind the verified input, when the transaction is a [submitResult] of the
    player that did not revert. *)
Definition acceptedHere `{FHE} (player : Z) (c : Chain) (tx : Tx) : list Z :=
  match txCall tx, snd (execute c tx) with
  | SubmitResult ext proof _ _ _, Succeeded _ =>
      if sender (txEnv tx) =? player then
        match fromExternal (this (txEnv tx)) (sender (txEnv tx)) ext proof with
        | Some score => [valueOf score]
        | None => []
        end
      else []
  | _, _ => []
  end.

(** The scores a player got accepted along a run, oldest first. *)
Fixpoint acceptedScores `{FHE} (player : Z) (c : Chain) (txs : list Tx) : list Z :=
  match txs with
  | [] => []
  | tx :: rest => acceptedHere player c tx ++ acceptedScores player (fst (execute c tx)) rest
  end.

Definition sumZ (l : list Z) : Z := fold_right Z.add 0 l.

(** The badge table of the specification (section 4.1), over unbounded
    integers. *)
Definition badgePredicate (badgeId : Z) (s : PlayerStats) (now : Z) : Prop :=
  (badgeId = 1 /\ numGames s >= 1) \/
  (badgeId = 2 /\ totalPublicScore s >= 10) \/
  (badgeId = 3 /\ maxSinglePublicScore s >= 20) \/
  (badgeId = 4 /\ numGames s >= 3 /\ lastPlayedAt s + 7 * days >= now) \/
  (badgeId = 5 /\ lastPlayedAt s + 1 * days >= now) \/
  (badgeId = 6 /\ numGames s >= 10).

End Ledger.

(** ** Part II: the coordinator hook *)

Module Coordinator.

Open Scope string_scope.
Open Scope Z_scope.

(** *** Values the hook handles *)

(** An [ethers.JsonRpcSigner]: the account it signs for, and the identity of
    the object (two signer objects for one account are different signers). *)
Record Signer := { signerAddress : string; signerId : Z }.

#[global] Instance Signer_eq_dec : EqDecision Signer.
Proof. solve_decision. Defined.

(** The parameters of [useGeoChain] the callbacks read.  [instance] is an
    object that is either there or [undefined].  [ethersReadonlyProvider] is
    an object too, or [undefined]; it is known by its identity, because
    [useCallback] compares it as an object when it decides whether the
    [refreshEncryptedTotal] of the previous render is kept. *)
Record Parameters := {
  instance : bool;
  chainId : option Z;
  ethersSigner : option Signer;
  ethersReadonlyProvider : option Z
}.

(** An entry of the deployment table [GeoChainAddresses]. *)
Record AddressEntry := { entryAddress : option string; entryChainId : option Z }.

(** The memoised [contract] object (its [abi] and [chainName] play no part). *)
Record ContractInfo := { address : option string; contractChainId : option Z }.

(** What [getEncryptedTotalScore] resolves to, as the hook tells the cases
    apart: a [bigint], or any other value through [String(value)]. *)
Inductive RpcValue :=
| BigIntV (n : Z)
| OtherV (s : string).

(** The decryption capability [loadOrSign] resolves to. *)
Record Capability := {
  privateKey : string;
  publicKey : string;
  signature : string;
  contractAddresses : list string;
  userAddress : string;
  startTimestamp : Z;
  durationDays : Z
}.

(** The result of [input.encrypt()]. *)
Record EncryptedInput := { handles0 : string; inputProof : string }.

(** The number in [form.score] and [payload.score]: an integer, as the pages
    compute it, or one of the three numbers [Number.isFinite] refuses. *)
Inductive Score :=
| Finite (n : Z)
| NaN
| PlusInfinity
| MinusInfinity.

(** [Number.isFinite(score)] *)
Definition isFinite (score : Score) : bool :=
  match score with
  | Finite _ => true
  | NaN | PlusInfinity | MinusInfinity => false
  end.

Record Payload := {
  score : Score;
  scorePublic : Z;
  resultCID : string;
  resultHash : string
}.

(** A settled promise. *)
Inductive Settled (A : Type) :=
| Fulfilled (a : A)
| Rejected (e : string).
Arguments Fulfilled {A} a.
Arguments Rejected {A} e.

(** The errors [submitCore] and [decryptHandle] throw. *)
Inductive Thrown :=
| ErrBusy            (* "已有正在执行的操作，请稍后再试" *)
| ErrSubmitNotReady  (* "合约地址、FHEVM实例或签名器未就绪" *)
| ErrStale           (* "链或签名器已切换，提交已取消" *)
| ErrHandleNotReady  (* "FHEVM 或签名器未就绪" *)
| ErrCannotSign      (* "无法生成解密签名" *)
| ErrExternal (e : string).   (* whatever an awaited call rejected with *)

(** The texts [setMessage] is called with. *)
Inductive Message :=
| MsgNone                          (* "" *)
| MsgIncomplete                    (* "连接信息不完整，无法查询密文" *)
| MsgNoCiphertextYet               (* "未检测到你的密文分数，请先完成一次上链或稍后刷新" *)
| MsgRefreshed                     (* "密文已刷新，可以解密" *)
| MsgRefreshFailed (e : string)    (* "刷新失败: " + e *)
| MsgWaitingForRefresh             (* "正在刷新密文，等待完成后自动解密..." *)
| MsgDecryptInProgress             (* "解密进行中，请稍候" *)
| MsgDecryptNotReady               (* "FHEVM 或签名器未就绪，请先连接钱包并等待加载" *)
| MsgNoCiphertext                  (* "未检测到可解密的密文，请先完成一次上链或点击【刷新密文】。" *)
| MsgDecryptStarting               (* "开始解密..." *)
| MsgCannotSign                    (* "无法生成解密签名" *)
| MsgStaleDecryptRequest           (* "忽略过期解密请求" *)
| MsgCallingUserDecrypt            (* "调用 userDecrypt 中..." *)
| MsgStaleDecryptResult            (* "忽略过期解密结果" *)
| MsgDecryptDone                   (* "解密完成" *)
| MsgDecryptFailed (e : string)    (* "解密失败：" + e *)
| MsgPreparing                     (* "准备加密分数..." *)
| MsgStaleSubmit                   (* "忽略过期提交" *)
| MsgSendingTx                     (* "提交交易..." *)
| MsgWaitingConfirmation (hash : string)   (* "等待确认：" + tx.hash *)
| MsgSubmitDone (status : option Z)        (* "提交完成，status=" + r?.status *)
| MsgSubmitFailed (e : Thrown).            (* "提交失败：" + e *)

(** *** The state of one hook instance *)

(** The [useState] cells and the [useRef] cells of the hook, under the names
    the source gives them. *)
Record Hook := {
  message : Message;
  handle : option string;
  clear : option Z;
  isRefreshing : bool;
  isDecrypting : bool;
  isSubmitting : bool;
  lastTxHash : option string;
  isRefreshingRef : bool;
  isDecryptingRef : bool;
  isSubmittingRef : bool;
  geoRef : ContractInfo;
  initRefreshKeyRef : string;
  lastRefreshKeyRef : string;
  lastRefreshAtRef : Z
}.

Definition setMessage (v : Message) (h : Hook) : Hook :=
  {| message := v; handle := handle h; clear := clear h;
     isRefreshing := isRefreshing h; isDecrypting := isDecrypting h;
     isSubmitting := isSubmitting h; lastTxHash := lastTxHash h;
     isRefreshingRef := isRefreshingRef h; isDecryptingRef := isDecryptingRef h;
     isSubmittingRef := isSubmittingRef h; geoRef := geoRef h;
     initRefreshKeyRef := initRefreshKeyRef h;
     lastRefreshKeyRef := lastRefreshKeyRef h; lastRefreshAtRef := lastRefreshAtRef h |}.

Definition setHandle (v : option string) (h : Hook) : Hook :=
  {| message := message h; handle := v; clear := clear h;
     isRefreshing := isRefreshing h; isDecrypting := isDecrypting h;
     isSubmitting := isSubmitting h; lastTxHash := lastTxHash h;
     isRefreshingRef := isRefreshingRef h; isDecryptingRef := isDecryptingRef h;
     isSubmittingRef := isSubmittingRef h; geoRef := geoRef h;
     initRefreshKeyRef := initRefreshKeyRef h;
     lastRefreshKeyRef := lastRefreshKeyRef h; lastRefreshAtRef := lastRefreshAtRef h |}.

Definition setClear (v : option Z) (h : Hook) : Hook :=
  {| message := message h; handle := handle h; clear := v;
     isRefreshing := isRefreshing h; isDecrypting := isDecrypting h;
     isSubmitting := isSubmitting h; lastTxHash := lastTxHash h;
     isRefreshingRef := isRefreshingRef h; isDecryptingRef := isDecryptingRef h;
     isSubmittingRef := isSubmittingRef h; geoRef := geoRef h;
     initRefreshKeyRef := initRefreshKeyRef h;
     lastRefreshKeyRef := lastRefreshKeyRef h; lastRefreshAtRef := lastRefreshAtRef h |}.

Definition setIsRefreshing (v : bool) (h : Hook) : Hook :=
  {| message := message h; handle := handle h; clear := clear h;
     isRefreshing := v; isDecrypting := isDecrypting h;
     isSubmitting := isSubmitting h; lastTxHash := lastTxHash h;
     isRefreshingRef := isRefreshingRef h; isDecryptingRef := isDecryptingRef h;
     isSubmittingRef := isSubmittingRef h; geoRef := geoRef h;
     initRefreshKeyRef := initRefreshKeyRef h;
     lastRefreshKeyRef := lastRefreshKeyRef h; lastRefreshAtRef := lastRefreshAtRef h |}.

Definition setIsDecrypting (v : bool) (h : Hook) : Hook :=
  {| message := message h; handle := handle h; clear := clear h;
     isRefreshing := isRefreshing h; isDecrypting := v;
     isSubmitting := isSubmitting h; lastTxHash := lastTxHash h;
     isRefreshingRef := isRefreshingRef h; isDecryptingRef := isDecryptingRef h;
     isSubmittingRef := isSubmittingRef h; geoRef := geoRef h;
     initRefreshKeyRef := initRefreshKeyRef h;
     lastRefreshKeyRef := lastRefreshKeyRef h; lastRefreshAtRef := lastRefreshAtRef h |}.

Definition setIsSubmitting (v : bool) (h : Hook) : Hook :=
  {| message := message h; handle := handle h; clear := clear h;
     isRefreshing := isRefreshing h; isDecrypting := isDecrypting h;
     isSubmitting := v; lastTxHash := lastTxHash h;
     isRefreshingRef := isRefreshingRef h; isDecryptingRef := isDecryptingRef h;
     isSubmittingRef := isSubmittingRef h; geoRef := geoRef h;
     initRefreshKeyRef := initRefreshKeyRef h;
     lastRefreshKeyRef := lastRefreshKeyRef h; lastRefreshAtRef := lastRefreshAtRef h |}.

Definition setLastTxHash (v : option string) (h : Hook) : Hook :=
  {| message := message h; handle := handle h; clear := clear h;
     isRefreshing := isRefreshing h; isDecrypting := isDecrypting h;
     isSubmitting := isSubmitting h; lastTxHash := v;
     isRefreshingRef := isRefreshingRef h; isDecryptingRef := isDecryptingRef h;
     isSubmittingRef := isSubmittingRef h; geoRef := geoRef h;
     initRefreshKeyRef := initRefreshKeyRef h;
     lastRefreshKeyRef := lastRefreshKeyRef h; lastRefreshAtRef := lastRefreshAtRef h |}.

Definition setIsRefreshingRef (v : bool) (h : Hook) : Hook :=
  {| message := message h; handle := handle h; clear := clear h;
     isRefreshing := isRefreshing h; isDecrypting := isDecrypting h;
     isSubmitting := isSubmitting h; lastTxHash := lastTxHash h;
     isRefreshingRef := v; isDecryptingRef := isDecryptingRef h;
     isSubmittingRef := isSubmittingRef h; geoRef := geoRef h;
     initRefreshKeyRef := initRefreshKeyRef h;
     lastRefreshKeyRef := lastRefreshKeyRef h; lastRefreshAtRef := lastRefreshAtRef h |}.

Definition setIsDecryptingRef (v : bool) (h : Hook) : Hook :=
  {| message := message h; handle := handle h; clear := clear h;
     isRefreshing := isRefreshing h; isDecrypting := isDecrypting h;
     isSubmitting := isSubmitting h; lastTxHash := lastTxHash h;
     isRefreshingRef := isRefreshingRef h; isDecryptingRef := v;
     isSubmittingRef := isSubmittingRef h; geoRef := geoRef h;
     initRefreshKeyRef := initRefreshKeyRef h;
     lastRefreshKeyRef := lastRefreshKeyRef h; lastRefreshAtRef := lastRefreshAtRef h |}.

Definition setIsSubmittingRef (v : bool) (h : Hook) : Hook :=
  {| message := message h; handle := handle h; clear := clear h;
     isRefreshing := isRefreshing h; isDecrypting := isDecrypting h;
     isSubmitting := isSubmitting h; lastTxHash := lastTxHash h;
     isRefreshingRef := isRefreshingRef h; isDecryptingRef := isDecryptingRef h;
     isSubmittingRef := v; geoRef := geoRef h;
     initRefreshKeyRef := initRefreshKeyRef h;
     lastRefreshKeyRef := lastRefreshKeyRef h; lastRefreshAtRef := lastRefreshAtRef h |}.

Definition setGeoRef (v : ContractInfo) (h : Hook) : Hook :=
  {| message := message h; handle := handle h; clear := clear h;
     isRefreshing := isRefreshing h; isDecrypting := isDecrypting h;
     isSubmitting := isSubmitting h; lastTxHash := lastTxHash h;
     isRefreshingRef := isRefreshingRef h; isDecryptingRef := isDecryptingRef h;
     isSubmittingRef := isSubmittingRef h; geoRef := v;
     initRefreshKeyRef := initRefreshKeyRef h;
     lastRefreshKeyRef := lastRefreshKeyRef h; lastRefreshAtRef := lastRefreshAtRef h |}.

Definition setInitRefreshKeyRef (v : string) (h : Hook) : Hook :=
  {| message := message h; handle := handle h; clear := clear h;
     isRefreshing := isRefreshing h; isDecrypting := isDecrypting h;
     isSubmitting := isSubmitting h; lastTxHash := lastTxHash h;
     isRefreshingRef := isRefreshingRef h; isDecryptingRef := isDecryptingRef h;
     isSubmittingRef := isSubmittingRef h; geoRef := geoRef h;
     initRefreshKeyRef := v;
     lastRefreshKeyRef := lastRefreshKeyRef h; lastRefreshAtRef := lastRefreshAtRef h |}.

Definition setLastRefreshKeyRef (v : string) (h : Hook) : Hook :=
  {| message := message h; handle := handle h; clear := clear h;
     isRefreshing := isRefreshing h; isDecrypting := isDecrypting h;
     isSubmitting := isSubmitting h; lastTxHash := lastTxHash h;
     isRefreshingRef := isRefreshingRef h; isDecryptingRef := isDecryptingRef h;
     isSubmittingRef := isSubmittingRef h; geoRef := geoRef h;
     initRefreshKeyRef := initRefreshKeyRef h;
     lastRefreshKeyRef := v; lastRefreshAtRef := lastRefreshAtRef h |}.

Definition setLastRefreshAtRef (v : Z) (h : Hook) : Hook :=
  {| message := message h; handle := handle h; clear := clear h;
     isRefreshing := isRefreshing h; isDecrypting := isDecrypting h;
     isSubmitting := isSubmitting h; lastTxHash := lastTxHash h;
     isRefreshingRef := isRefreshingRef h; isDecryptingRef := isDecryptingRef h;
     isSubmittingRef := isSubmittingRef h; geoRef := geoRef h;
     initRefreshKeyRef := initRefreshKeyRef h;
     lastRefreshKeyRef := lastRefreshKeyRef h; lastRefreshAtRef := v |}.

(** The hook as [useState] and [useRef] initialise it. *)
Definition mount : Hook :=
  {| message := MsgNone; handle := None; clear := None;
     isRefreshing := false; isDecrypting := false; isSubmitting := false;
     lastTxHash := None;
     isRefreshingRef := false; isDecryptingRef := false; isSubmittingRef := false;
     geoRef := {| address := None; contractChainId := None |};
     initRefreshKeyRef := ""; lastRefreshKeyRef := ""; lastRefreshAtRef := 0 |}.

(** *** Suspended calls

    A callback runs until its next [await]; what is left of it is a
    continuation that holds the variables it captured.  The render a callback
    was created in fixes the parameters and the [handle] the call sees, for as
    long as the call runs.

    [decryptEncryptedTotal], [decryptHandle] and [submitCore] list every
    value they read that can change among the dependencies of their
    [useCallback], so the callback a render returns reads the parameters and
    the handle of that render.  [refreshEncryptedTotal] does not: its dependencies have
    [contract.chainId] but not [contract.address], so the callback a render
    returns may have been created in an earlier render; [refreshProps] holds
    the parameters of the render it was created in. *)
Record Render := {
  props : Parameters;
  seenHandle : option string;
  refreshProps : Parameters
}.

Record Submission := {
  submitRender : Render;
  payload : Payload;
  submitAddress : string;
  submitSigner : Signer
}.

Inductive Task :=
| RefreshFetch (thisChainId : option Z) (thisAddress : string) (thisSigner : Signer)
| DecryptWait (r : Render) (forceSign : bool) (startedAt : Z) (polls : nat)
| DecryptSign (thisChainId : option Z) (thisAddress thisHandle : string) (thisSigner : Signer)
| DecryptRequest (thisChainId : option Z) (thisAddress thisHandle : string) (thisSigner : Signer)
| SubmitSleep (s : Submission)
| SubmitEncrypt (s : Submission)
| SubmitSend (s : Submission)
| SubmitConfirm (s : Submission) (hash : string)
| HandleSign (handleToDecrypt thisAddress : string)
| HandleRequest (handleToDecrypt : string).

(** What the hook asks of its collaborators, and what [submitCore] and
    [decryptHandle] hand back to their callers, in the order it happens. *)
Inductive Obs :=
| LedgerRead (contract player : string)
| CapabilityRequested (contract : string) (signer : Signer) (forceSign : bool)
| UserDecryptRequested (handleToDecrypt contract : string) (cap : Capability)
| EncryptRequested (contract user : string) (score : Score)
| TransactionSent (contract : string) (signer : Signer) (enc : EncryptedInput)
                  (resultHash resultCID : string) (scorePublic : Z)
| ConfirmationAwaited (hash : string)
| SubmitResolved (hash : string)
| SubmitRejected (e : Thrown)
| DecryptHandleResolved (v : option Z)
| DecryptHandleRejected (e : Thrown).

(** The hook and what surrounds it: the parameters of the latest render, the
    memo cell of [useCallback] for [refreshEncryptedTotal] (the parameters of
    the render the kept callback was created in; empty before the first
    render), the suspended calls, and what has been observed. *)
Record World := {
  hook : Hook;
  current : Parameters;
  refreshMemo : option Parameters;
  pending : gmap nat Task;
  nextTask : nat;
  trace : list Obs
}.

Definition withHook (f : Hook -> Hook) (w : World) : World :=
  {| hook := f (hook w); current := current w; refreshMemo := refreshMemo w;
     pending := pending w; nextTask := nextTask w; trace := trace w |}.

Definition spawn (t : Task) (w : World) : World :=
  {| hook := hook w; current := current w; refreshMemo := refreshMemo w;
     pending := <[nextTask w := t]> (pending w);
     nextTask := S (nextTask w); trace := trace w |}.

Definition settle (id : nat) (w : World) : World :=
  {| hook := hook w; current := current w; refreshMemo := refreshMemo w;
     pending := delete id (pending w);
     nextTask := nextTask w; trace := trace w |}.

Definition retask (id : nat) (t : Task) (w : World) : World :=
  {| hook := hook w; current := current w; refreshMemo := refreshMemo w;
     pending := <[id := t]> (pending w);
     nextTask := nextTask w; trace := trace w |}.

Definition observe (o : Obs) (w : World) : World :=
  {| hook := hook w; current := current w; refreshMemo := refreshMemo w;
     pending := pending w; nextTask := nextTask w; trace := trace w ++ [o] |}.

Definition withCurrent (p : Parameters) (w : World) : World :=
  {| hook := hook w; current := p; refreshMemo := refreshMemo w;
     pending := pending w; nextTask := nextTask w; trace := trace w |}.

Definition withRefreshMemo (q : Parameters) (w : World) : World :=
  {| hook := hook w; current := current w; refreshMemo := Some q;
     pending := pending w; nextTask := nextTask w; trace := trace w |}.

(** *** Small helpers for JavaScript's values *)

(** Whether an object that may be [undefined] is there. *)
Definition defined {A} (o : option A) : bool :=
  match o with
  | Some _ => true
  | None => false
  end.

(** [!s] is false for a string exactly when it is there and not empty. *)
Definition truthy (s : option string) : bool :=
  match s with
  | Some s => negb (s =? "")%string
  | None => false
  end.

Fixpoint allZeros (s : string) : bool :=
  match s with
  | EmptyString => true
  | String c rest => (c =? "0")%char && allZeros rest
  end.

(** [/^0x0+$/i.test(s)] *)
Definition isZeroHandle (s : string) : bool :=
  match s with
  | String c0 (String cx (String c1 rest)) =>
      (c0 =? "0")%char && ((cx =? "x")%char || (cx =? "X")%char)
      && (c1 =? "0")%char && allZeros rest
  | _ => false
  end.

(** [n.toString(16)] for a [bigint]. *)
Definition toString16 (n : Z) : string :=
  match n with
  | Z0 => "0"
  | Zpos p => HexadecimalString.NilZero.string_of_uint (N.to_hex_uint (Npos p))
  | Zneg p => ("-" ++ HexadecimalString.NilZero.string_of_uint (N.to_hex_uint (Npos p)))%string
  end.

(** [x >>> 0] on an integer. *)
Definition toUint32 (x : Z) : Z := x mod 2 ^ 32.

Fixpoint zeros (n : nat) : string :=
  match n with
  | O => ""
  | S n => String "0" (zeros n)
  end.

(** How ethers hands a [bytes32] result to JavaScript: ["0x"] and 64
    hexadecimal digits. *)
Definition hexlify32 (v : Z) : string :=
  let digits := toString16 v in
  ("0x" ++ zeros (64 - String.length digits) ++ digits)%string.

Section Hook.

(** The deployment table [GeoChainAddresses], by chain id. *)
Variable GeoChainAddresses : Z -> option AddressEntry.

(** The [useMemo] that builds [contract] from [chainId]. *)
Definition contractOf (chainId : option Z) : ContractInfo :=
  match chainId with
  | None | Some 0 => {| address := None; contractChainId := None |}
  | Some c =>
      match GeoChainAddresses c with
      | Some entry =>
          {| address := entryAddress entry;
             contractChainId :=
               match entryChainId entry with
               | Some c' => Some c'
               | None => Some c
               end |}
      | None => {| address := None; contractChainId := Some c |}
      end
  end.

(** Modelled from the spec: [sameChain.current] and [sameSigner.current] come
    from the wallet hook, which is not among the source files.  Section 4.3
    has a result applied only if the captured context still equals the current
    one, so they compare their argument with the current chain id and the
    current signer object. *)
Definition sameChain (w : World) (c : option Z) : bool :=
  bool_decide (c = chainId (current w)).

Definition sameSigner (w : World) (s : Signer) : bool :=
  bool_decide (Some s = ethersSigner (current w)).

(** *** refreshEncryptedTotal *)

Definition refreshKey (thisAddress : string) (thisSigner : Signer) : string :=
  (thisAddress ++ ":" ++ signerAddress thisSigner)%string.

(** The callback reads [contract], [ethersReadonlyProvider] and [ethersSigner]
    of the render it was created in. *)
Definition refreshEncryptedTotal (r : Render) (now : Z) (w : World) : World :=
  if isRefreshingRef (hook w) then w else
  let contract := contractOf (chainId (refreshProps r)) in
  match address contract, ethersSigner (refreshProps r) with
  | Some thisAddress, Some thisSigner =>
      if truthy (address contract) && defined (ethersReadonlyProvider (refreshProps r))
      then
        let w1 := withHook (fun h => setIsRefreshing true (setIsRefreshingRef true h)) w in
        let key := refreshKey thisAddress thisSigner in
        if (lastRefreshKeyRef (hook w1) =? key)%string
           && (now - lastRefreshAtRef (hook w1) <? 2000) then
          withHook (fun h => setIsRefreshing false (setIsRefreshingRef false h)) w1
        else
          let w2 :=
            withHook (fun h => setLastRefreshAtRef now (setLastRefreshKeyRef key h)) w1 in
          spawn (RefreshFetch (contractChainId contract) thisAddress thisSigner)
            (observe (LedgerRead thisAddress (signerAddress thisSigner)) w2)
      else withHook (fun h => setMessage MsgIncomplete (setHandle None h)) w
  | _, _ => withHook (fun h => setMessage MsgIncomplete (setHandle None h)) w
  end.

(** The handlers chained on the read: [then], [catch] and [finally], which run
    back to back once the read has settled. *)
Definition refreshSettled (thisChainId : option Z) (thisAddress : string)
    (thisSigner : Signer) (r : Settled RpcValue) (w : World) : World :=
  let w1 :=
    match r with
    | Fulfilled value =>
        let handleStr :=
          match value with
          | BigIntV n => ("0x" ++ toString16 n)%string
          | OtherV s => s
          end in
        if sameChain w thisChainId
           && bool_decide (Some thisAddress = address (geoRef (hook w))) then
          let isZero := isZeroHandle handleStr in
          withHook (fun h =>
            setMessage (if isZero then MsgNoCiphertextYet else MsgRefreshed)
              (setClear None (setHandle (Some handleStr) h))) w
        else w
    | Rejected e => withHook (setMessage (MsgRefreshFailed e)) w
    end in
  withHook (fun h => setIsRefreshing false (setIsRefreshingRef false h)) w1.

(** The dependencies of the [useCallback] of [refreshEncryptedTotal] that
    can change: [contract.chainId], [ethersReadonlyProvider] and
    [ethersSigner] ([contract.abi] is a constant and [sameChain] is a ref). *)
Definition refreshDeps (p : Parameters) : option Z * option Z * option Signer :=
  (contractChainId (contractOf (chainId p)), ethersReadonlyProvider p, ethersSigner p).

(** [useCallback] in a render with parameters [p]: the callback of the
    previous render is kept when the dependencies are the same, and a new one
    is created from this render otherwise (and in the first render). *)
Definition memoised (p : Parameters) (w : World) : Parameters :=
  match refreshMemo w with
  | Some q => if bool_decide (refreshDeps q = refreshDeps p) then q else p
  | None => p
  end.

(** A render with parameters [p]: what its callbacks see. *)
Definition render (p : Parameters) (w : World) : Render :=
  {| props := p; seenHandle := handle (hook w); refreshProps := memoised p w |}.

(** A render: the [useCallback] of [refreshEncryptedTotal], the assignment
    [geoRef.current = contract], and the [useEffect] that refreshes once per
    (contract, signer) key.  The effect runs when [contract.address], the
    provider or the signer's address has changed; when none has, its body
    would return at once (something is still missing, or the key is still the
    one in [initRefreshKeyRef]), so the body is run after every render.  The
    effect calls the [refreshEncryptedTotal] of its render, which is the
    memoised one. *)
Definition rendered (p : Parameters) (now : Z) (w : World) : World :=
  let contract := contractOf (chainId p) in
  let r := render p w in
  let w1 :=
    withHook (setGeoRef contract) (withRefreshMemo (refreshProps r) (withCurrent p w)) in
  match address contract, ethersSigner p with
  | Some thisAddress, Some thisSigner =>
      if truthy (address contract) && defined (ethersReadonlyProvider p) then
        let key := refreshKey thisAddress thisSigner in
        if (initRefreshKeyRef (hook w1) =? key)%string then w1
        else refreshEncryptedTotal r now (withHook (setInitRefreshKeyRef key) w1)
      else w1
  | _, _ => w1
  end.

(** *** decryptEncryptedTotal *)

(** [isStale()] of [decryptEncryptedTotal] and of [submitCore]. *)
Definition isStale (thisChainId : option Z) (thisAddress : string)
    (thisSigner : Signer) (w : World) : bool :=
  negb (bool_decide (Some thisAddress = address (geoRef (hook w))))
  || negb (sameChain w thisChainId)
  || negb (sameSigner w thisSigner).

(** The [finally] of [run] in [decryptEncryptedTotal]. *)
Definition releaseDecrypt (w : World) : World :=
  withHook (fun h => setIsDecrypting false (setIsDecryptingRef false h)) w.

(** From the guard on [isDecryptingRef] to the first [await] of [run]. *)
Definition decryptAfterWait (r : Render) (forceSign : bool) (w : World) : World :=
  if isDecryptingRef (hook w) then withHook (setMessage MsgDecryptInProgress) w else
  let contract := contractOf (chainId (props r)) in
  match address contract, ethersSigner (props r) with
  | Some thisAddress, Some thisSigner =>
      if truthy (address contract) && instance (props r) then
        match seenHandle r with
        | Some thisHandle =>
            if (thisHandle =? "")%string || isZeroHandle thisHandle then
              withHook (setMessage MsgNoCiphertext) w
            else
              let w1 :=
                withHook (fun h =>
                  setMessage MsgDecryptStarting
                    (setIsDecrypting true (setIsDecryptingRef true h))) w in
              spawn (DecryptSign (chainId (props r)) thisAddress thisHandle thisSigner)
                (observe (CapabilityRequested thisAddress thisSigner forceSign) w1)
        | None => withHook (setMessage MsgNoCiphertext) w
        end
      else withHook (setMessage MsgDecryptNotReady) w
  | _, _ => withHook (setMessage MsgDecryptNotReady) w
  end.

(** The call itself: with a refresh in flight it arms the 100 ms interval and
    the 10 s timeout and waits; otherwise it goes on at once. *)
Definition decryptEncryptedTotal (r : Render) (forceSign : bool) (now : Z)
    (w : World) : World :=
  if isRefreshingRef (hook w) then
    spawn (DecryptWait r forceSign now 0) (withHook (setMessage MsgWaitingForRefresh) w)
  else decryptAfterWait r forceSign w.

(** One tick of the interval.  The k-th tick is not due before 100 k ms have
    passed, and the timeout, due at 10 s, cancels the interval: no wait sees
    more than 100 ticks. *)
Definition pollTick (id : nat) (r : Render) (forceSign : bool) (startedAt : Z)
    (polls : nat) (now : Z) (w : World) : World :=
  if (polls <? 100)%nat && (startedAt + 100 * (Z.of_nat polls + 1) <=? now) then
    if isRefreshingRef (hook w) then
      retask id (DecryptWait r forceSign startedAt (S polls)) w
    else decryptAfterWait r forceSign (settle id w)
  else w.

(** The timeout of the wait. *)
Definition waitTimeout (id : nat) (r : Render) (forceSign : bool) (startedAt : Z)
    (now : Z) (w : World) : World :=
  if startedAt + 10000 <=? now then decryptAfterWait r forceSign (settle id w)
  else w.

Definition decryptSigned (thisChainId : option Z) (thisAddress thisHandle : string)
    (thisSigner : Signer) (r : Settled (option Capability)) (w : World) : World :=
  match r with
  | Fulfilled None => releaseDecrypt (withHook (setMessage MsgCannotSign) w)
  | Fulfilled (Some sig) =>
      if isStale thisChainId thisAddress thisSigner w then
        releaseDecrypt (withHook (setMessage MsgStaleDecryptRequest) w)
      else
        spawn (DecryptRequest thisChainId thisAddress thisHandle thisSigner)
          (observe (UserDecryptRequested thisHandle thisAddress sig)
             (withHook (setMessage MsgCallingUserDecrypt) w))
  | Rejected e => releaseDecrypt (withHook (setMessage (MsgDecryptFailed e)) w)
  end.

Definition decryptAnswered (thisChainId : option Z) (thisAddress thisHandle : string)
    (thisSigner : Signer) (r : Settled (gmap string Z)) (w : World) : World :=
  match r with
  | Fulfilled res =>
      if isStale thisChainId thisAddress thisSigner w then
        releaseDecrypt (withHook (setMessage MsgStaleDecryptResult) w)
      else
        releaseDecrypt
          (withHook (fun h => setMessage MsgDecryptDone (setClear (res !! thisHandle) h)) w)
  | Rejected e => releaseDecrypt (withHook (setMessage (MsgDecryptFailed e)) w)
  end.

(** *** decryptHandle *)

Definition decryptHandle (r : Render) (handleToDecrypt : string) (forceSign : bool)
    (w : World) : World :=
  let contract := contractOf (chainId (props r)) in
  match address contract, ethersSigner (props r) with
  | Some thisAddress, Some thisSigner =>
      if truthy (address contract) && instance (props r) then
        spawn (HandleSign handleToDecrypt thisAddress)
          (observe (CapabilityRequested thisAddress thisSigner forceSign) w)
      else observe (DecryptHandleRejected ErrHandleNotReady) w
  | _, _ => observe (DecryptHandleRejected ErrHandleNotReady) w
  end.

Definition handleSigned (handleToDecrypt thisAddress : string)
    (r : Settled (option Capability)) (w : World) : World :=
  match r with
  | Fulfilled None => observe (DecryptHandleRejected ErrCannotSign) w
  | Fulfilled (Some sig) =>
      spawn (HandleRequest handleToDecrypt)
        (observe (UserDecryptRequested handleToDecrypt thisAddress sig) w)
  | Rejected e => observe (DecryptHandleRejected (ErrExternal e)) w
  end.

Definition handleAnswered (handleToDecrypt : string) (r : Settled (gmap string Z))
    (w : World) : World :=
  match r with
  | Fulfilled res => observe (DecryptHandleResolved (res !! handleToDecrypt)) w
  | Rejected e => observe (DecryptHandleRejected (ErrExternal e)) w
  end.

(** *** submitCore *)

(** The [catch] and the [finally] of [run] in [submitCore]: the error is
    reported, the lock is released, and the caller gets the error. *)
Definition submitFailed (e : Thrown) (w : World) : World :=
  observe (SubmitRejected e)
    (withHook (fun h =>
       setIsSubmitting false (setIsSubmittingRef false (setMessage (MsgSubmitFailed e) h))) w).

(** From the entry guards to the 50 ms pause that opens [run]. *)
Definition submitCore (r : Render) (p : Payload) (w : World) : World :=
  if isRefreshingRef (hook w) || isSubmittingRef (hook w) then
    observe (SubmitRejected ErrBusy) w
  else
  let contract := contractOf (chainId (props r)) in
  match address contract, ethersSigner (props r) with
  | Some thisAddress, Some thisSigner =>
      if truthy (address contract) && instance (props r) then
        let s := {| submitRender := r; payload := p;
                    submitAddress := thisAddress; submitSigner := thisSigner |} in
        spawn (SubmitSleep s)
          (withHook (fun h =>
             setMessage MsgPreparing (setIsSubmitting true (setIsSubmittingRef true h))) w)
      else observe (SubmitRejected ErrSubmitNotReady) w
  | _, _ => observe (SubmitRejected ErrSubmitNotReady) w
  end.

(** After the pause: the encrypted input is built and [input.encrypt()] is
    awaited.  An exception thrown while the input is built is caught like a
    rejected [encrypt()]. *)
Definition submitSlept (s : Submission) (w : World) : World :=
  spawn (SubmitEncrypt s)
    (observe (EncryptRequested (submitAddress s) (signerAddress (submitSigner s))
                (score (payload s))) w).

Definition submitEncrypted (s : Submission) (r : Settled EncryptedInput)
    (w : World) : World :=
  match r with
  | Fulfilled enc =>
      if isStale (chainId (props (submitRender s))) (submitAddress s) (submitSigner s) w then
        submitFailed ErrStale (withHook (setMessage MsgStaleSubmit) w)
      else
        spawn (SubmitSend s)
          (observe (TransactionSent (submitAddress s) (submitSigner s) enc
                      (resultHash (payload s)) (resultCID (payload s))
                      (toUint32 (scorePublic (payload s))))
             (withHook (setMessage MsgSendingTx) w))
  | Rejected e => submitFailed (ErrExternal e) w
  end.

Definition submitSent (s : Submission) (r : Settled string) (w : World) : World :=
  match r with
  | Fulfilled hash =>
      spawn (SubmitConfirm s hash)
        (observe (ConfirmationAwaited hash)
           (withHook (fun h =>
              setLastTxHash (Some hash) (setMessage (MsgWaitingConfirmation hash) h)) w))
  | Rejected e => submitFailed (ErrExternal e) w
  end.

(** After [tx.wait()]: the refresh is started (not awaited) with the
    [refreshEncryptedTotal] the call was created with, then [finally] releases
    the lock and the hash goes back to the caller. *)
Definition submitConfirmed (s : Submission) (hash : string) (r : Settled (option Z))
    (now : Z) (w : World) : World :=
  match r with
  | Fulfilled status =>
      let w1 := withHook (setMessage (MsgSubmitDone status)) w in
      let w2 := refreshEncryptedTotal (submitRender s) now w1 in
      observe (SubmitResolved hash)
        (withHook (fun h => setIsSubmitting false (setIsSubmittingRef false h)) w2)
  | Rejected e => submitFailed (ErrExternal e) w
  end.

(** *** The event loop

    One event is one turn of the JavaScript event loop: a render with new
    parameters, a call of one of the hook's callbacks, or the resumption of a
    suspended call whose awaited promise has settled or whose timer has
    fired.  A call names the render that returned its callback: the latest
    one ([latest]), or an older one when the caller kept the callback across
    an [await] of its own.  An event that names no suspended call of its kind
    changes nothing. *)
Inductive Event :=
| Rendered (p : Parameters)
| CallRefresh (r : Render)
| CallDecrypt (r : Render) (forceSign : bool)
| CallDecryptHandle (r : Render) (handleToDecrypt : string) (forceSign : bool)
| CallSubmit (r : Render) (p : Payload)
| ReadSettled (id : nat) (r : Settled RpcValue)
| PollTick (id : nat)
| WaitTimeout (id : nat)
| SignSettled (id : nat) (r : Settled (option Capability))
| UserDecryptSettled (id : nat) (r : Settled (gmap string Z))
| SleepDone (id : nat)
| EncryptSettled (id : nat) (r : Settled EncryptedInput)
| SendSettled (id : nat) (r : Settled string)
| ConfirmSettled (id : nat) (r : Settled (option Z)).

(** The latest render, as the callbacks it returned see it. *)
Definition latest (w : World) : Render :=
  {| props := current w; seenHandle := handle (hook w);
     refreshProps := default (current w) (refreshMemo w) |}.

Definition step (w : World) (turn : Z * Event) : World :=
  let now := fst turn in
  match snd turn with
  | Rendered p => rendered p now w
  | CallRefresh r => refreshEncryptedTotal r now w
  | CallDecrypt r forceSign => decryptEncryptedTotal r forceSign now w
  | CallDecryptHandle r h forceSign => decryptHandle r h forceSign w
  | CallSubmit r p => submitCore r p w
  | ReadSettled id r =>
      match pending w !! id with
      | Some (RefreshFetch c a s) => refreshSettled c a s r (settle id w)
      | _ => w
      end
  | PollTick id =>
      match pending w !! id with
      | Some (DecryptWait r forceSign startedAt polls) =>
          pollTick id r forceSign startedAt polls now w
      | _ => w
      end
  | WaitTimeout id =>
      match pending w !! id with
      | Some (DecryptWait r forceSign startedAt polls) =>
          waitTimeout id r forceSign startedAt now w
      | _ => w
      end
  | SignSettled id r =>
      match pending w !! id with
      | Some (DecryptSign c a h s) => decryptSigned c a h s r (settle id w)
      | Some (HandleSign h a) => handleSigned h a r (settle id w)
      | _ => w
      end
  | UserDecryptSettled id r =>
      match pending w !! id with
      | Some (DecryptRequest c a h s) => decryptAnswered c a h s r (settle id w)
      | Some (HandleRequest h) => handleAnswered h r (settle id w)
      | _ => w
      end
  | SleepDone id =>
      match pending w !! id with
      | Some (SubmitSleep s) => submitSlept s (settle id w)
      | _ => w
      end
  | EncryptSettled id r =>
      match pending w !! id with
      | Some (SubmitEncrypt s) => submitEncrypted s r (settle id w)
      | _ => w
      end
  | SendSettled id r =>
      match pending w !! id with
      | Some (SubmitSend s) => submitSent s r (settle id w)
      | _ => w
      end
  | ConfirmSettled id r =>
      match pending w !! id with
      | Some (SubmitConfirm s hash) => submitConfirmed s hash r now (settle id w)
      | _ => w
      end
  end.

Definition run (w : World) (turns : list (Z * Event)) : World :=
  fold_left step turns w.

(** A hook that has just been mounted with parameters [p]; the first render
    follows as an event. *)
Definition start (p : Parameters) : World :=
  {| hook := mount; current := p; refreshMemo := None;
     pending := ∅; nextTask := 0%nat; trace := [] |}.

End Hook.

End Coordinator.

(** ** Part III: properties of the contract *)

Module LedgerFacts.

Import Ledger.

(** *** A reference implementation of the FHE interface

    Handles carry their cleartext, shifted by one so that no handle is zero.
    It shows that the laws of [FHE] can be met, and it lets the contract run on
    concrete inputs. *)

Definition plainCleartext (h : Z) : Z := (h - 1) mod 2 ^ 32.

Definition plainValue (h : Z) : Z := if h =? 0 then 0 else plainCleartext h.

Definition plainAdd (a b : Z) : Z := (plainValue a + plainValue b) mod 2 ^ 32 + 1.

Definition plainFromExternal (contract sender ext : Z) (proof : list Byte.byte)
    : option Z :=
  match proof with
  | [] => None
  | _ :: _ => if (1 <=? ext) && (ext <=? 2 ^ 32) then Some ext else None
  end.

(** The handle of an input that encrypts [v], for the reference
    implementation. *)
Definition plainInput (v : Z) : Z := v mod 2 ^ 32 + 1.

Lemma plainFromExternal_initialized contract sender ext proof h :
  plainFromExternal contract sender ext proof = Some h -> h <> 0.
Proof.
  unfold plainFromExternal. destruct proof; [discriminate|].
  destruct (1 <=? ext) eqn:E; simpl; [|discriminate].
  destruct (ext <=? 2 ^ 32); [|discriminate].
  intros [= <-]. apply Z.leb_le in E. lia.
Qed.

Lemma plainAdd_initialized a b : plainAdd a b <> 0.
Proof.
  unfold plainAdd.
  pose proof (Z.mod_pos_bound (plainValue a + plainValue b) (2 ^ 32)). lia.
Qed.

Lemma plainCleartext_range h : 0 <= plainCleartext h <= MAX_UINT32.
Proof.
  unfold plainCleartext, MAX_UINT32.
  pose proof (Z.mod_pos_bound (h - 1) (2 ^ 32)). lia.
Qed.

Lemma plainAdd_correct a b :
  plainCleartext (plainAdd a b)
  = ((if a =? 0 then 0 else plainCleartext a) + (if b =? 0 then 0 else plainCleartext b))
      mod 2 ^ 32.
Proof.
  unfold plainAdd, plainValue, plainCleartext at 1.
  replace (_ mod 2 ^ 32 + 1 - 1) with
    (((if a =? 0 then 0 else plainCleartext a) + (if b =? 0 then 0 else plainCleartext b))
       mod 2 ^ 32) by lia.
  apply Z.mod_mod. lia.
Qed.

#[local] Instance plainFHE : FHE := {|
  fromExternal := plainFromExternal;
  add := plainAdd;
  cleartext := plainCleartext;
  fromExternal_initialized := plainFromExternal_initialized;
  add_initialized := plainAdd_initialized;
  cleartext_range := plainCleartext_range;
  add_correct := plainAdd_correct
|}.

(** *** What one transaction does *)

Section WithFHE.

Context `{scheme : FHE}.

Lemma valueOf_range h : 0 <= valueOf h < 2 ^ 32.
Proof.
  unfold valueOf. destruct (h =? 0); [lia|].
  pose proof (cleartext_range h). unfold MAX_UINT32 in *. lia.
Qed.

Lemma valueOf_add a b : valueOf (add a b) = (valueOf a + valueOf b) mod 2 ^ 32.
Proof.
  unfold valueOf at 1.
  destruct (add a b =? 0) eqn:E.
  - apply Z.eqb_eq in E. by destruct (add_initialized a b).
  - apply add_correct.
Qed.

(** A successful [submitResult], read field by field. *)
Lemma submitResult_ok env ext proof rh cid pub c id c' :
  submitResult env ext proof rh cid pub c = Ok (id, c') ->
  exists score,
    fromExternal (this env) (sender env) ext proof = Some score
    /\ 0 <= pub <= MAX_UINT32
    /\ nextResultId (storage c) <> MAX_UINT256
    /\ id = nextResultId (storage c)
    /\ nextResultId (storage c') = nextResultId (storage c) + 1
    /\ _encryptedTotalScoreByPlayer (storage c')
       = <[sender env := add (getEncryptedTotalScore c (sender env)) score]>
           (_encryptedTotalScoreByPlayer (storage c))
    /\ _encryptedScoreByResultId (storage c')
       = <[id := score]> (_encryptedScoreByResultId (storage c))
    /\ playerStats (storage c')
       = <[sender env := updateStats (getPlayerStats c (sender env)) pub (timestamp env)]>
           (playerStats (storage c))
    /\ badgeClaimed (storage c') = badgeClaimed (storage c)
    /\ logs c' = logs c ++ [ResultSubmitted id (sender env) rh cid pub (timestamp env)].
Proof.
  unfold submitResult, getEncryptedTotalScore, getPlayerStats.
  destruct (negb _) eqn:Epub; [discriminate|].
  destruct (fromExternal _ _ _ _) as [score|] eqn:Efrom; [|discriminate].
  destruct (nextResultId (storage c) =? MAX_UINT256) eqn:Emax; [discriminate|].
  intros [= <- <-]. exists score. simpl.
  apply negb_false_iff, andb_true_iff in Epub as [?%Z.leb_le ?%Z.leb_le].
  apply Z.eqb_neq in Emax.
  repeat split; auto.
Qed.

(** A successful [claimBadge], read field by field. *)
Lemma claimBadge_ok env b c u c' :
  claimBadge env b c = Ok (u, c') ->
  isClaimed c b (sender env) = false
  /\ badgeCondition b (getPlayerStats c (sender env)) (timestamp env) = Ok true
  /\ nextResultId (storage c') = nextResultId (storage c)
  /\ _encryptedTotalScoreByPlayer (storage c') = _encryptedTotalScoreByPlayer (storage c)
  /\ _encryptedScoreByResultId (storage c') = _encryptedScoreByResultId (storage c)
  /\ playerStats (storage c') = playerStats (storage c)
  /\ badgeClaimed (storage c') = <[(b, sender env) := true]> (badgeClaimed (storage c))
  /\ acl c' = acl c
  /\ logs c' = logs c ++ [BadgeClaimed (sender env) b (timestamp env)].
Proof.
  unfold claimBadge, isClaimed, getPlayerStats.
  destruct (default false _) eqn:Eclaimed; [discriminate|].
  destruct (badgeCondition _ _ _) as [[|]|] eqn:Econd; try discriminate.
  intros [= <- <-]. simpl. repeat split; auto.
Qed.

(** The table of the contract agrees with the table of the specification. *)
Lemma badgeCondition_predicate b s now :
  badgeCondition b s now = Ok true -> badgePredicate b s now.
Proof.
  unfold badgeCondition, badgePredicate, checkedAdd.
  repeat match goal with
         | |- context [?x =? ?y] => destruct (Z.eqb_spec x y); [subst|]
         end;
  repeat match goal with
         | |- context [?x <=? ?y] => destruct (Z.leb_spec x y)
         end;
  intros [=]; lia.
Qed.

(** *** Runs *)

Lemma run_cons c tx txs : run c (tx :: txs) = run (fst (execute c tx)) txs.
Proof. reflexivity. Qed.

(** What a transaction does to one player's encrypted total and statistics:
    nothing, unless it is an accepted submission of that player, which also
    takes the next result id. *)
Lemma execute_player c tx p :
  let c' := fst (execute c tx) in
  (acceptedHere p c tx = []
   /\ getEncryptedTotalScore c' p = getEncryptedTotalScore c p
   /\ getPlayerStats c' p = getPlayerStats c p)
  \/ (exists score pub,
        acceptedHere p c tx = [valueOf score]
        /\ score <> 0
        /\ nextResultId (storage c) <> MAX_UINT256
        /\ nextResultId (storage c') = nextResultId (storage c) + 1
        /\ getEncryptedTotalScore c' p = add (getEncryptedTotalScore c p) score
        /\ getPlayerStats c' p
           = updateStats (getPlayerStats c p) pub (timestamp (txEnv tx))).
Proof.
  unfold acceptedHere, execute.
  destruct tx as [env [ext proof rh cid pub|b|cid v]]; simpl.
  - destruct (submitResult env ext proof rh cid pub c) as [[id c']|e] eqn:E; simpl;
      [|left; auto].
    apply submitResult_ok in E
      as (score & Efrom & _ & Hmax & _ & Hnext & Etot & _ & Estats & _).
    unfold getEncryptedTotalScore, getPlayerStats in *.
    rewrite Efrom, Etot, Estats.
    destruct (Z.eqb_spec (sender env) p) as [->|Hne].
    + right. exists score, pub. rewrite !lookup_insert_eq.
      pose proof (fromExternal_initialized _ _ _ _ _ Efrom). by repeat split.
    + left. by rewrite !lookup_insert_ne.
  - left. destruct (claimBadge env b c) as [[u c']|e] eqn:E; simpl; [|auto].
    apply claimBadge_ok in E as (_ & _ & _ & Etot & _ & Estats & _).
    unfold getEncryptedTotalScore, getPlayerStats. by rewrite Etot, Estats.
  - left. auto.
Qed.

(** The result counter moves by one on an accepted submission and never
    otherwise; it cannot pass [MAX_UINT256]. *)
Lemma execute_nextResultId c tx :
  let c' := fst (execute c tx) in
  nextResultId (storage c') = nextResultId (storage c)
  \/ (nextResultId (storage c) <> MAX_UINT256
      /\ nextResultId (storage c') = nextResultId (storage c) + 1).
Proof.
  unfold execute.
  destruct tx as [env [ext proof rh cid pub|b|cid v]]; simpl.
  - destruct (submitResult env ext proof rh cid pub c) as [[id c']|e] eqn:E; simpl;
      [|left; auto].
    apply submitResult_ok in E as (score & _ & _ & Hmax & _ & Hnext & _).
    right. auto.
  - left. destruct (claimBadge env b c) as [[u c']|e] eqn:E; simpl; [|auto].
    by apply claimBadge_ok in E as (_ & _ & Hnext & _).
  - left. auto.
Qed.

(** Every player has played fewer games than results were numbered. *)
Definition counted (c : Chain) : Prop :=
  nextResultId (storage c) <= MAX_UINT256
  /\ forall q, 0 <= numGames (getPlayerStats c q) < nextResultId (storage c).

Lemma counted_deploy : counted deploy.
Proof.
  split; [by vm_compute|].
  intros q. unfold getPlayerStats. simpl. rewrite lookup_empty. simpl. lia.
Qed.

Lemma wrap256_small x : 0 <= x <= MAX_UINT256 -> wrap256 x = x.
Proof. unfold wrap256, MAX_UINT256. intros. apply Z.mod_small. lia. Qed.

(** On an accepted submission the games counter does not wrap. *)
Lemma execute_numGames c tx p :
  counted c ->
  numGames (getPlayerStats (fst (execute c tx)) p)
  = numGames (getPlayerStats c p) + Z.of_nat (length (acceptedHere p c tx)).
Proof.
  intros [Hmax Hgames]. specialize (Hgames p).
  destruct (execute_player c tx p)
    as [(-> & _ & ->)|(score & pub & -> & _ & Hne & _ & _ & ->)]; simpl; [lia|].
  rewrite wrap256_small; lia.
Qed.

Lemma counted_execute c tx : counted c -> counted (fst (execute c tx)).
Proof.
  intros Hc. pose proof Hc as [Hmax Hgames]. split.
  - destruct (execute_nextResultId c tx) as [->|[Hne ->]]; lia.
  - intros q. rewrite execute_numGames by done. specialize (Hgames q).
    destruct (execute_player c tx q)
      as [(-> & _)|(score & pub & -> & _ & Hne & -> & _)]; simpl.
    + destruct (execute_nextResultId c tx) as [->|[_ ->]]; lia.
    + lia.
Qed.

Lemma counted_run txs : forall c, counted c -> counted (run c txs).
Proof.
  induction txs as [|tx txs IH]; intros c Hc; [done|].
  rewrite run_cons. by apply IH, counted_execute.
Qed.

(** The encrypted total follows the accepted scores, modulo 2^32. *)
Lemma run_total p txs :
  forall c,
    valueOf (getEncryptedTotalScore (run c txs) p)
    = (valueOf (getEncryptedTotalScore c p) + sumZ (acceptedScores p c txs)) mod 2 ^ 32.
Proof.
  induction txs as [|tx txs IH]; intros c.
  - simpl. rewrite Z.add_0_r, Z.mod_small; [done|apply valueOf_range].
  - rewrite run_cons, IH. simpl.
    destruct (execute_player c tx p)
      as [(-> & -> & _)|(score & pub & -> & _ & _ & _ & -> & _)]; simpl; [done|].
    rewrite valueOf_add, Zplus_mod_idemp_l. f_equal. lia.
Qed.

(** Once a submission of the player was accepted, the total is an
    initialised handle. *)
Lemma run_total_initialized p txs :
  forall c,
    getEncryptedTotalScore c p <> 0 \/ acceptedScores p c txs <> [] ->
    getEncryptedTotalScore (run c txs) p <> 0.
Proof.
  induction txs as [|tx txs IH]; intros c Hc.
  - simpl in *. by destruct Hc.
  - rewrite run_cons. apply IH. simpl in Hc.
    destruct (execute_player c tx p)
      as [(E & -> & _)|(score & pub & _ & _ & _ & _ & -> & _)].
    + rewrite E in Hc. simpl in Hc. done.
    + left. apply add_initialized.
Qed.

(** The games counter follows the number of accepted submissions. *)
Lemma run_numGames p txs :
  forall c,
    counted c ->
    numGames (getPlayerStats (run c txs) p)
    = numGames (getPlayerStats c p) + Z.of_nat (length (acceptedScores p c txs)).
Proof.
  induction txs as [|tx txs IH]; intros c Hc.
  - simpl. lia.
  - rewrite run_cons, IH by (by apply counted_execute).
    rewrite execute_numGames by done. simpl. rewrite length_app. lia.
Qed.

(** A player without an accepted submission still has the uninitialised
    handle as total. *)
Lemma run_total_untouched p txs :
  forall c,
    acceptedScores p c txs = [] ->
    getEncryptedTotalScore (run c txs) p = getEncryptedTotalScore c p.
Proof.
  induction txs as [|tx txs IH]; intros c Hnone; [done|].
  simpl in Hnone. apply app_eq_nil in Hnone as [Hhere Hrest].
  rewrite run_cons, IH by done.
  destruct (execute_player c tx p) as [(_ & -> & _)|(score & pub & E & _)]; [done|].
  rewrite E in Hhere. discriminate.
Qed.

Lemma acceptedHere_nonneg p c tx : 0 <= sumZ (acceptedHere p c tx).
Proof.
  destruct (execute_player c tx p) as [(-> & _)|(score & pub & -> & _)]; simpl; [lia|].
  pose proof (valueOf_range score). lia.
Qed.

Lemma sumZ_app l1 l2 : sumZ (l1 ++ l2) = sumZ l1 + sumZ l2.
Proof. induction l1 as [|x l1 IH]; simpl; [done|]. unfold sumZ in *. simpl. lia. Qed.

Lemma acceptedScores_nonneg p txs : forall c, 0 <= sumZ (acceptedScores p c txs).
Proof.
  induction txs as [|tx txs IH]; intros c; simpl; [done|].
  rewrite sumZ_app. pose proof (acceptedHere_nonneg p c tx).
  pose proof (IH (fst (execute c tx))). lia.
Qed.

(** *** The specification against the contract *)

(** C1, as amended: on a freshly deployed ledger, after any sequence of
    transactions, a player whose accepted submissions carried the scores
    s1..sn has an encrypted total that decrypts to (s1 + ... + sn) modulo 2^32
    -- to the sum itself whenever the sum fits 32 bits -- and the player's
    [numGames] is n. *)
Theorem C1_total_is_sum_modulo_2_32 (txs : list Tx) (p : Z) :
  let c := run deploy txs in
  let scores := acceptedScores p deploy txs in
  valueOf (getEncryptedTotalScore c p) = sumZ scores mod 2 ^ 32
  /\ (scores <> [] ->
      getEncryptedTotalScore c p <> 0
      /\ cleartext (getEncryptedTotalScore c p) = sumZ scores mod 2 ^ 32)
  /\ (sumZ scores <= MAX_UINT32 ->
      valueOf (getEncryptedTotalScore c p) = sumZ scores)
  /\ numGames (getPlayerStats c p) = Z.of_nat (length scores).
Proof.
  intros c scores.
  assert (Htotal : valueOf (getEncryptedTotalScore c p) = sumZ scores mod 2 ^ 32).
  { subst c scores. rewrite run_total.
    unfold getEncryptedTotalScore at 1. simpl. rewrite lookup_empty. done. }
  split; [exact Htotal|split; [|split]].
  - intros Hne.
    assert (Hinit : getEncryptedTotalScore c p <> 0).
    { subst c. apply run_total_initialized. by right. }
    split; [exact Hinit|].
    rewrite <- Htotal. unfold valueOf.
    by destruct (Z.eqb_spec (getEncryptedTotalScore c p) 0).
  - intros Hfits. rewrite Htotal. apply Z.mod_small.
    pose proof (acceptedScores_nonneg p txs deploy). unfold MAX_UINT32 in *.
    fold scores in H. lia.
  - subst c scores. rewrite run_numGames by apply counted_deploy.
    unfold getPlayerStats at 1. simpl. rewrite lookup_empty. simpl. lia.
Qed.

(** C3: [claimBadge] on a claim that is already true reverts with "Already
    claimed" and leaves the whole chain as it was; a claim goes from false to
    true only through a [claimBadge] of that badge by that player, at a moment
    the badge's predicate holds of the player's statistics; and no
    transaction, and no sequence of transactions, takes a true claim back to
    false. *)
Theorem C3_claimBadge_once :
  (forall c env b,
      isClaimed c b (sender env) = true ->
      claimBadge env b c = Revert AlreadyClaimed
      /\ execute c {| txEnv := env; txCall := ClaimBadge b |} = (c, Reverted AlreadyClaimed))
  /\ (forall c tx b p,
        isClaimed c b p = false ->
        isClaimed (fst (execute c tx)) b p = true ->
        txCall tx = ClaimBadge b
        /\ sender (txEnv tx) = p
        /\ badgePredicate b (getPlayerStats c p) (timestamp (txEnv tx)))
  /\ (forall c txs b p,
        isClaimed c b p = true -> isClaimed (run c txs) b p = true).
Proof.
  assert (Hstep : forall c tx b p,
             isClaimed c b p = true -> isClaimed (fst (execute c tx)) b p = true).
  { intros c [env [ext proof rh cid pub|b'|cid v]] b p Hc; unfold execute; simpl.
    - destruct (submitResult _ _ _ _ _ _ _) as [[id c']|e] eqn:E; simpl; [|done].
      apply submitResult_ok in E as (? & _ & _ & _ & _ & _ & _ & _ & _ & Hb & _).
      unfold isClaimed in *. by rewrite Hb.
    - destruct (claimBadge env b' c) as [[u c']|e] eqn:E; simpl; [|done].
      apply claimBadge_ok in E as (_ & _ & _ & _ & _ & _ & Hb & _).
      unfold isClaimed in *. rewrite Hb.
      destruct (decide ((b', sender env) = (b, p))) as [->|Hne].
      + by rewrite lookup_insert_eq.
      + by rewrite lookup_insert_ne.
    - done. }
  split; [|split].
  - intros c env b Hc. unfold execute, claimBadge, isClaimed in *. simpl.
    by rewrite Hc.
  - intros c [env [ext proof rh cid pub|b'|cid v]] b p Hfalse; unfold execute; simpl.
    + destruct (submitResult _ _ _ _ _ _ _) as [[id c']|e] eqn:E; simpl; [|congruence].
      apply submitResult_ok in E as (? & _ & _ & _ & _ & _ & _ & _ & _ & Hb & _).
      unfold isClaimed in *. rewrite Hb. congruence.
    + destruct (claimBadge env b' c) as [[u c']|e] eqn:E; simpl; [|congruence].
      apply claimBadge_ok in E as (_ & Hcond & _ & _ & _ & _ & Hb & _).
      unfold isClaimed in *. rewrite Hb.
      destruct (decide ((b', sender env) = (b, p))) as [[= -> <-]|Hne].
      * intros _. repeat split. by apply badgeCondition_predicate.
      * rewrite lookup_insert_ne by done. congruence.
    + unfold isClaimed in *. simpl. congruence.
  - intros c txs. revert c.
    induction txs as [|tx txs IH]; intros c b p Hc; [done|].
    rewrite run_cons. by apply IH, Hstep.
Qed.

(** C7, as amended: for a player who has not claimed badge 4 yet and has
    played at least 3 games, [claimBadge(4)] reverts with "Conditions not met"
    when [lastPlayedAt] is more than 7 days before [block.timestamp], and
    succeeds when [lastPlayedAt + 7 days] is exactly [block.timestamp]. *)
Theorem C7_badge4_seven_day_window (env : Env) (c : Chain) :
  0 <= timestamp env <= MAX_UINT256 ->
  isClaimed c 4 (sender env) = false ->
  numGames (getPlayerStats c (sender env)) >= 3 ->
  (lastPlayedAt (getPlayerStats c (sender env)) + 7 * days < timestamp env ->
   claimBadge env 4 c = Revert ConditionsNotMet)
  /\ (lastPlayedAt (getPlayerStats c (sender env)) + 7 * days = timestamp env ->
      exists c',
        claimBadge env 4 c = Ok (tt, c') /\ isClaimed c' 4 (sender env) = true).
Proof.
  intros Hnow Hfree Hgames.
  unfold claimBadge, isClaimed, getPlayerStats in *. rewrite Hfree.
  set (s := default noStats _) in *.
  unfold badgeCondition, checkedAdd. simpl.
  destruct (Z.leb_spec 3 (numGames s)); [|lia].
  split; intros Hlast.
  - destruct (Z.leb_spec (lastPlayedAt s + 7 * days) MAX_UINT256); [|lia].
    destruct (Z.leb_spec (timestamp env) (lastPlayedAt s + 7 * days)); [lia|done].
  - destruct (Z.leb_spec (lastPlayedAt s + 7 * days) MAX_UINT256); [|lia].
    destruct (Z.leb_spec (timestamp env) (lastPlayedAt s + 7 * days)); [|lia].
    eexists. split; [done|]. simpl. by rewrite lookup_insert_eq.
Qed.

(** C9: [updateQuestionPool] never reverts, whoever calls it and whatever the
    arguments; it leaves the storage (and the access-control list) as they
    were and appends one [QuestionPoolUpdated] event. *)
Theorem C9_updateQuestionPool_frame (env : Env) (poolCID : string) (version : Z)
    (c : Chain) :
  exists c',
    updateQuestionPool env poolCID version c = Ok (tt, c')
    /\ execute c {| txEnv := env; txCall := UpdateQuestionPool poolCID version |}
       = (c', Succeeded None)
    /\ storage c' = storage c
    /\ acl c' = acl c
    /\ logs c' = logs c ++ [QuestionPoolUpdated poolCID version].
Proof. eexists. by repeat split. Qed.

End WithFHE.

(** *** Concrete runs, on the reference implementation *)

Definition someProof : list Byte.byte := [Byte.x01].

Definition submitTx (player now v : Z) : Tx :=
  {| txEnv := {| sender := player; timestamp := now; this := 99 |};
     txCall := SubmitResult (plainInput v) someProof 0 "" v |}.

Definition claimTx (player now b : Z) : Tx :=
  {| txEnv := {| sender := player; timestamp := now; this := 99 |};
     txCall := ClaimBadge b |}.

(** C1 as stated fails: two accepted submissions of 2^32 - 1 and 1 leave a
    total that decrypts to 0, not to their sum 2^32; [numGames] is 2. *)
Lemma C1_counterexample_sum_wraps :
  let txs := [submitTx 7 1000 4294967295; submitTx 7 1001 1] in
  let c := run deploy txs in
  acceptedScores 7 deploy txs = [4294967295; 1]
  /\ cleartext (getEncryptedTotalScore c 7) = 0
  /\ cleartext (getEncryptedTotalScore c 7) <> 4294967295 + 1
  /\ numGames (getPlayerStats c 7) = 2.
Proof. vm_compute. repeat split; discriminate. Qed.

(** The scenario of the specification: 5 then 7, each also as public score,
    give a total that decrypts to 12, 2 games, a public total of 12 and a best
    public score of 7. *)
Lemma scenario_five_then_seven :
  let c := run deploy [submitTx 7 1000 5; submitTx 7 1001 7] in
  cleartext (getEncryptedTotalScore c 7) = 12
  /\ getPlayerStats c 7
     = {| numGames := 2; totalPublicScore := 12; maxSinglePublicScore := 7;
          lastPlayedAt := 1001 |}.
Proof. vm_compute. by split. Qed.

(** The scenario of the specification: badge 2 is refused before any
    submission and granted once the public total has reached 10. *)
Lemma scenario_badge_two :
  let c := run deploy [submitTx 7 1000 5; submitTx 7 1001 7] in
  snd (execute deploy (claimTx 7 1000 2)) = Reverted ConditionsNotMet
  /\ snd (execute c (claimTx 7 1002 2)) = Succeeded None
  /\ isClaimed (fst (execute c (claimTx 7 1002 2))) 2 7 = true.
Proof. vm_compute. by repeat split. Qed.

(** The chain on which player 7 has three games, the last at time 1000, and
    has not claimed anything. *)
Definition threeGames : Chain :=
  run deploy [submitTx 7 998 5; submitTx 7 999 7; submitTx 7 1000 9].

(** C7 as stated fails: a player with 3 games who claimed badge 4 while active
    and calls again more than 7 days after the last game gets "Already
    claimed", not "Conditions not met". *)
Lemma C7_counterexample_already_claimed :
  let c := run threeGames [claimTx 7 1000 4] in
  let env := {| sender := 7; timestamp := 1000 + 7 * days + 1; this := 99 |} in
  numGames (getPlayerStats c 7) >= 3
  /\ lastPlayedAt (getPlayerStats c 7) + 7 * days < timestamp env
  /\ claimBadge env 4 c = Revert AlreadyClaimed
  /\ claimBadge env 4 c <> Revert ConditionsNotMet.
Proof. vm_compute. repeat split; discriminate. Qed.

(** C7 at work: on [threeGames], one second past the window the claim is
    refused, and exactly at the end of the window it is granted. *)
Lemma C7_witness :
  claimBadge {| sender := 7; timestamp := 1000 + 7 * days + 1; this := 99 |} 4 threeGames
  = Revert ConditionsNotMet
  /\ exists c',
      claimBadge {| sender := 7; timestamp := 1000 + 7 * days; this := 99 |} 4 threeGames
      = Ok (tt, c')
      /\ isClaimed c' 4 7 = true.
Proof.
  split.
  - apply (C7_badge4_seven_day_window
             {| sender := 7; timestamp := 1000 + 7 * days + 1; this := 99 |} threeGames);
      vm_compute; try reflexivity; try (split; discriminate); discriminate.
  - apply (C7_badge4_seven_day_window
             {| sender := 7; timestamp := 1000 + 7 * days; this := 99 |} threeGames);
      vm_compute; try reflexivity; try (split; discriminate); discriminate.
Defined.

End LedgerFacts.

(** ** Part IV: properties of the coordinator *)

Module CoordinatorFacts.

Import Coordinator.

Open Scope string_scope.
Open Scope list_scope.
Open Scope Z_scope.

(** *** A deployment and two accounts, for concrete runs *)

Definition localTable (c : Z) : option AddressEntry :=
  if c =? 31337 then Some {| entryAddress := Some "0xC0"; entryChainId := Some 31337 |}
  else None.

Definition alice : Signer := {| signerAddress := "0xA1"; signerId := 1 |}.
Definition bob : Signer := {| signerAddress := "0xB0"; signerId := 2 |}.

Definition connected (s : Signer) : Parameters :=
  {| instance := true; chainId := Some 31337;
     ethersSigner := Some s; ethersReadonlyProvider := Some 1 |}.

(** The number of ledger reads among the observations. *)
Fixpoint countReads (l : list Obs) : nat :=
  match l with
  | [] => 0
  | LedgerRead _ _ :: l => S (countReads l)
  | _ :: l => countReads l
  end.

Lemma countReads_app l1 l2 : countReads (l1 ++ l2) = (countReads l1 + countReads l2)%nat.
Proof.
  induction l1 as [|o l1 IH]; simpl; [done|].
  destruct o; simpl; by rewrite IH.
Qed.

Section WithTable.

Variable GeoChainAddresses : Z -> option AddressEntry.

Local Abbreviation contractOf := (Coordinator.contractOf GeoChainAddresses).
Local Abbreviation refreshEncryptedTotal := (Coordinator.refreshEncryptedTotal GeoChainAddresses).
Local Abbreviation rendered := (Coordinator.rendered GeoChainAddresses).
Local Abbreviation decryptAfterWait := (Coordinator.decryptAfterWait GeoChainAddresses).
Local Abbreviation decryptEncryptedTotal := (Coordinator.decryptEncryptedTotal GeoChainAddresses).
Local Abbreviation pollTick := (Coordinator.pollTick GeoChainAddresses).
Local Abbreviation waitTimeout := (Coordinator.waitTimeout GeoChainAddresses).
Local Abbreviation decryptHandle := (Coordinator.decryptHandle GeoChainAddresses).
Local Abbreviation submitCore := (Coordinator.submitCore GeoChainAddresses).
Local Abbreviation submitConfirmed := (Coordinator.submitConfirmed GeoChainAddresses).
Local Abbreviation step := (Coordinator.step GeoChainAddresses).
Local Abbreviation run := (Coordinator.run GeoChainAddresses).

(** What decrypt, submit and [decryptHandle] all ask for before they start: a
    contract address that is not empty, a signer and the FHEVM instance. *)
Definition available (r : Render) (thisAddress : string) (thisSigner : Signer) : Prop :=
  address (contractOf (chainId (props r))) = Some thisAddress
  /\ thisAddress <> ""
  /\ ethersSigner (props r) = Some thisSigner
  /\ instance (props r) = true.

Lemma truthy_Some a : a <> "" -> truthy (Some a) = true.
Proof. intros Ha. simpl. by destruct (String.eqb_spec a ""). Qed.

Lemma truthy_Some_inv a : truthy (Some a) = true -> a <> "".
Proof. simpl. by destruct (String.eqb_spec a ""). Qed.

(** *** decryptHandle *)

(** C10: no step of [decryptHandle] writes a state cell or a ref of the hook:
    it takes no lock and sets no message, handle or cleartext.  It looks
    neither at the handle nor at the current context: whenever contract,
    signer and instance are there it asks for the capability, for the zero
    handle as for any other; when one of them is missing it throws "not
    ready" at once.  Every call ends, once what it awaits has settled, by
    handing back [res[handle]] or by throwing, and is then no longer
    suspended: it throws when [loadOrSign] rejects or resolves to nothing, and
    when [userDecrypt] rejects, and hands back the value otherwise.  So no
    turn of the event loop that calls or resumes it changes the hook. *)
Theorem C10_decryptHandle_frame :
  (forall r h force w,
      hook (decryptHandle r h force w) = hook w
      /\ current (decryptHandle r h force w) = current w)
  /\ (forall h a res w,
        hook (handleSigned h a res w) = hook w
        /\ current (handleSigned h a res w) = current w)
  /\ (forall h res w,
        hook (handleAnswered h res w) = hook w
        /\ current (handleAnswered h res w) = current w)
  /\ (forall r h force w a s,
        available r a s ->
        decryptHandle r h force w
        = spawn (HandleSign h a) (observe (CapabilityRequested a s force) w))
  /\ (forall h a cap w,
        handleSigned h a (Fulfilled (Some cap)) w
        = spawn (HandleRequest h) (observe (UserDecryptRequested h a cap) w))
  /\ (forall h res w,
        handleAnswered h (Fulfilled res) w = observe (DecryptHandleResolved (res !! h)) w)
  /\ (forall h e w,
        handleAnswered h (Rejected e) w = observe (DecryptHandleRejected (ErrExternal e)) w)
  /\ (forall w now r h force id a res,
        hook (step w (now, CallDecryptHandle r h force)) = hook w
        /\ (pending w !! id = Some (HandleSign h a) ->
            hook (step w (now, SignSettled id res)) = hook w))
  /\ (forall w now h id res,
        pending w !! id = Some (HandleRequest h) ->
        hook (step w (now, UserDecryptSettled id res)) = hook w)
  /\ (forall r h force w,
        (forall a s, ~ available r a s) ->
        decryptHandle r h force w = observe (DecryptHandleRejected ErrHandleNotReady) w)
  /\ (forall h a w,
        handleSigned h a (Fulfilled None) w
        = observe (DecryptHandleRejected ErrCannotSign) w)
  /\ (forall h a e w,
        handleSigned h a (Rejected e) w
        = observe (DecryptHandleRejected (ErrExternal e)) w)
  /\ (forall r h force w a s now t1 t2 sig res,
        available r a s ->
        let id := nextTask w in
        let called := step w (now, CallDecryptHandle r h force) in
        let signed := step called (t1, SignSettled id sig) in
        let answered := step signed (t2, UserDecryptSettled (S id) res) in
        trace called = trace w ++ [CapabilityRequested a s force]
        /\ pending called !! id = Some (HandleSign h a)
        /\ match sig with
           | Fulfilled (Some cap) =>
               trace signed = trace called ++ [UserDecryptRequested h a cap]
               /\ pending signed !! id = None
               /\ pending signed !! S id = Some (HandleRequest h)
               /\ trace answered
                  = trace signed
                    ++ [match res with
                        | Fulfilled values => DecryptHandleResolved (values !! h)
                        | Rejected e => DecryptHandleRejected (ErrExternal e)
                        end]
               /\ pending answered !! id = None
               /\ pending answered !! S id = None
               /\ hook answered = hook w
           | Fulfilled None =>
               trace signed = trace called ++ [DecryptHandleRejected ErrCannotSign]
               /\ pending signed !! id = None
               /\ hook signed = hook w
           | Rejected e =>
               trace signed = trace called ++ [DecryptHandleRejected (ErrExternal e)]
               /\ pending signed !! id = None
               /\ hook signed = hook w
           end).
Proof.
  assert (Hcall : forall r h force w, hook (decryptHandle r h force w) = hook w).
  { intros r h force w. unfold Coordinator.decryptHandle.
    destruct (address (contractOf (chainId (props r)))), (ethersSigner (props r));
      simpl; try done.
    by destruct (instance (props r)), (negb _). }
  assert (Hready : forall r h force w a s,
             available r a s ->
             decryptHandle r h force w
             = spawn (HandleSign h a) (observe (CapabilityRequested a s force) w)).
  { intros r h force w a s (Ha & Hne & Hs & Hi).
    unfold Coordinator.decryptHandle. rewrite Ha, Hs, Hi, truthy_Some by done. done. }
  repeat apply conj.
  - intros r h force w. unfold Coordinator.decryptHandle.
    destruct (address (contractOf (chainId (props r)))), (ethersSigner (props r));
      simpl; try done.
    by destruct (instance (props r)), (negb _).
  - by intros h a [[cap|]|e] w.
  - by intros h [res|e] w.
  - exact Hready.
  - done.
  - done.
  - done.
  - intros w now r h force id a res. unfold Coordinator.step. simpl.
    split; [apply Hcall|]. intros ->. by destruct res as [[cap|]|e].
  - intros w now h id res. unfold Coordinator.step. simpl. intros ->. by destruct res.
  - intros r h force w Hna. unfold Coordinator.decryptHandle.
    destruct (address (contractOf (chainId (props r)))) as [a|] eqn:Ha; [|done].
    destruct (ethersSigner (props r)) as [sg|] eqn:Hsg; [|done].
    destruct (truthy (Some a)) eqn:Ht; [|done].
    destruct (instance (props r)) eqn:Hi; [|done].
    destruct (Hna a sg). repeat split; auto. by apply truthy_Some_inv.
  - done.
  - done.
  - intros r h force w a s now t1 t2 sig res Hav id called signed answered.
    assert (Hcalled : called
                      = spawn (HandleSign h a) (observe (CapabilityRequested a s force) w)).
    { subst called. unfold Coordinator.step. cbn [fst snd]. by apply Hready. }
    assert (Hid : pending called !! id = Some (HandleSign h a)).
    { rewrite Hcalled. simpl. apply lookup_insert_eq. }
    split; [by rewrite Hcalled|]. split; [exact Hid|].
    assert (Hsigned : signed = handleSigned h a sig (settle id called)).
    { subst signed. unfold Coordinator.step. cbn [fst snd]. by rewrite Hid. }
    destruct sig as [[cap|]|e].
    + assert (Hnext : nextTask called = S id) by (by rewrite Hcalled).
      assert (Hrequest : pending signed !! S id = Some (HandleRequest h)).
      { rewrite Hsigned. simpl. rewrite Hnext. apply lookup_insert_eq. }
      assert (Hgone : pending signed !! id = None).
      { rewrite Hsigned. simpl. rewrite Hnext.
        rewrite lookup_insert_ne by lia. apply lookup_delete_eq. }
      assert (Hanswered : answered = handleAnswered h res (settle (S id) signed)).
      { subst answered. unfold Coordinator.step. cbn [fst snd]. by rewrite Hrequest. }
      repeat apply conj; try done.
      * by rewrite Hsigned.
      * rewrite Hanswered. by destruct res.
      * rewrite Hanswered.
        assert (pending (settle (S id) signed) !! id = None) as Hp
          by (simpl; rewrite lookup_delete_ne by lia; exact Hgone).
        by destruct res.
      * rewrite Hanswered.
        assert (pending (settle (S id) signed) !! S id = None) as Hp
          by (simpl; apply lookup_delete_eq).
        by destruct res.
      * rewrite Hanswered.
        assert (hook (settle (S id) signed) = hook w) as Hh
          by (simpl; rewrite Hsigned; simpl; by rewrite Hcalled).
        by destruct res.
    + rewrite Hsigned. simpl. repeat apply conj; try done.
      * apply lookup_delete_eq.
      * by rewrite Hcalled.
    + rewrite Hsigned. simpl. repeat apply conj; try done.
      * apply lookup_delete_eq.
      * by rewrite Hcalled.
Qed.

(** *** Staleness *)

(** A signer for another account is another signer. *)
Lemma sameSigner_address w s s' :
  ethersSigner (current w) = Some s' ->
  signerAddress s' <> signerAddress s ->
  sameSigner w s = false.
Proof.
  intros Hcur Hne. unfold sameSigner. rewrite Hcur.
  apply bool_decide_eq_false. intros [= ->]. done.
Qed.

(** [decryptEncryptedTotal] discards what it got when the signer's account or
    the contract address is no longer the captured one: neither the handle nor
    the cleartext is written; the message says so and the lock is released. *)
Lemma decrypt_discards_stale c a h s res w :
  (address (geoRef (hook w)) <> Some a
   \/ exists s', ethersSigner (current w) = Some s' /\ signerAddress s' <> signerAddress s) ->
  decryptAnswered c a h s (Fulfilled res) w
  = releaseDecrypt (withHook (setMessage MsgStaleDecryptResult) w).
Proof.
  intros Hstale. unfold decryptAnswered.
  assert (isStale c a s w = true) as ->; [|done].
  unfold isStale. destruct Hstale as [Ha|(s' & Hcur & Hne)].
  - rewrite bool_decide_eq_false_2; [done|congruence].
  - rewrite (sameSigner_address w s s') by done.
    by rewrite !orb_true_r.
Qed.

(** [refreshEncryptedTotal] discards the handle it read when the contract
    address is no longer the captured one. *)
Lemma refresh_discards_on_address_change c a s v w :
  address (geoRef (hook w)) <> Some a ->
  refreshSettled c a s (Fulfilled v) w
  = withHook (fun h => setIsRefreshing false (setIsRefreshingRef false h)) w.
Proof.
  intros Ha. unfold refreshSettled.
  rewrite (bool_decide_eq_false_2 (Some a = _)) by congruence.
  by rewrite andb_false_r.
Qed.

(** It does not look at the signer: with chain and contract address as
    captured, the handle that was read for the captured signer is stored and
    the cleartext is dropped, whoever the current signer is. *)
Lemma refresh_applies_whatever_signer c a s v w :
  sameChain w c = true ->
  address (geoRef (hook w)) = Some a ->
  let handleStr :=
    match v with BigIntV n => ("0x" ++ toString16 n)%string | OtherV t => t end in
  handle (hook (refreshSettled c a s (Fulfilled v) w)) = Some handleStr
  /\ clear (hook (refreshSettled c a s (Fulfilled v) w)) = None.
Proof.
  intros Hc Ha. unfold refreshSettled. rewrite Hc, Ha.
  rewrite bool_decide_eq_true_2 by done. done.
Qed.

(** *** Suspended calls keep their place *)





(** *** Single flight *)

Definition isRefreshTask (t : Task) : bool :=
  match t with
  | RefreshFetch _ _ _ => true
  | _ => false
  end.

(** A decrypt that has passed its guards and taken the lock: it waits for
    [loadOrSign] or for [userDecrypt].  A decrypt that still waits for a
    refresh ([DecryptWait]) has not reached its guards and holds no lock. *)
Definition isDecryptTask (t : Task) : bool :=
  match t with
  | DecryptSign _ _ _ _ | DecryptRequest _ _ _ _ => true
  | _ => false
  end.

Definition isSubmitTask (t : Task) : bool :=
  match t with
  | SubmitSleep _ | SubmitEncrypt _ | SubmitSend _ | SubmitConfirm _ _ => true
  | _ => false
  end.

(** A lock guards the suspended calls of one kind: exactly one of them is
    there when the lock is held, none when it is free. *)
Definition guarded (P : Task -> bool) (held : bool) (m : gmap nat Task) : Prop :=
  if held then
    exists id t,
      m !! id = Some t /\ P t = true
      /\ forall id' t', m !! id' = Some t' -> P t' = true -> id' = id
  else forall id t, m !! id = Some t -> P t = false.

Arguments guarded : simpl never.

(** Ids from [n] on are not in use. *)
Definition unusedFrom (n : nat) (m : gmap nat Task) : Prop :=
  forall id t, m !! id = Some t -> (id < n)%nat.

Lemma unusedFrom_None n m : unusedFrom n m -> m !! n = None.
Proof.
  intros Hm. destruct (m !! n) as [t|] eqn:E; [|done].
  apply Hm in E. lia.
Qed.

Lemma unusedFrom_insert n m t : unusedFrom n m -> unusedFrom (S n) (<[n:=t]> m).
Proof.
  intros Hm id t'. destruct (decide (n = id)) as [->|Hne].
  - lia.
  - rewrite lookup_insert_ne by done. intros ?%Hm. lia.
Qed.

Lemma unusedFrom_delete n m id : unusedFrom n m -> unusedFrom n (delete id m).
Proof.
  intros Hm id' t'. destruct (decide (id = id')) as [->|Hne].
  - by rewrite lookup_delete_eq.
  - rewrite lookup_delete_ne by done. apply Hm.
Qed.

Lemma unusedFrom_replace n m id t t' :
  unusedFrom n m -> m !! id = Some t -> unusedFrom n (<[id:=t']> m).
Proof.
  intros Hm Hid id' t0. destruct (decide (id = id')) as [<-|Hne].
  - intros _. by apply (Hm id t).
  - rewrite lookup_insert_ne by done. apply Hm.
Qed.

Lemma unusedFrom_S n m : unusedFrom n m -> unusedFrom (S n) m.
Proof. intros Hm id t ?%Hm. lia. Qed.

Lemma guarded_held P held m id t :
  guarded P held m -> m !! id = Some t -> P t = true -> held = true.
Proof.
  unfold guarded. destruct held; [done|].
  intros Hm Hid Ht. rewrite (Hm id t Hid) in Ht. done.
Qed.

Lemma guarded_insert_other P held m n t :
  guarded P held m -> m !! n = None -> P t = false -> guarded P held (<[n:=t]> m).
Proof.
  unfold guarded. destruct held.
  - intros (id & t0 & Hid & Ht0 & Huniq) Hn Ht. exists id, t0.
    assert (n <> id) by congruence.
    rewrite lookup_insert_ne by done. repeat split; [done..|].
    intros id' t'. destruct (decide (n = id')) as [<-|Hne].
    + rewrite lookup_insert_eq. intros [= <-]. congruence.
    + rewrite lookup_insert_ne by done. apply Huniq.
  - intros Hm Hn Ht id t0. destruct (decide (n = id)) as [<-|Hne].
    + rewrite lookup_insert_eq. by intros [= <-].
    + rewrite lookup_insert_ne by done. apply Hm.
Qed.

Lemma guarded_replace_other P held m id t t' :
  guarded P held m -> m !! id = Some t -> P t = false -> P t' = false ->
  guarded P held (<[id:=t']> m).
Proof.
  unfold guarded. destruct held.
  - intros (id0 & t0 & Hid0 & Ht0 & Huniq) Hid Ht Ht'. exists id0, t0.
    assert (id <> id0) by congruence.
    rewrite lookup_insert_ne by done. repeat split; [done..|].
    intros id' t1. destruct (decide (id = id')) as [<-|Hne].
    + rewrite lookup_insert_eq. intros [= <-]. congruence.
    + rewrite lookup_insert_ne by done. apply Huniq.
  - intros Hm Hid Ht Ht' id0 t0. destruct (decide (id = id0)) as [<-|Hne].
    + rewrite lookup_insert_eq. by intros [= <-].
    + rewrite lookup_insert_ne by done. apply Hm.
Qed.

Lemma guarded_delete_other P held m id t :
  guarded P held m -> m !! id = Some t -> P t = false -> guarded P held (delete id m).
Proof.
  unfold guarded. destruct held.
  - intros (id0 & t0 & Hid0 & Ht0 & Huniq) Hid Ht. exists id0, t0.
    assert (id <> id0) by congruence.
    rewrite lookup_delete_ne by done. repeat split; [done..|].
    intros id' t1. destruct (decide (id = id')) as [<-|Hne].
    + by rewrite lookup_delete_eq.
    + rewrite lookup_delete_ne by done. apply Huniq.
  - intros Hm Hid Ht id0 t0. destruct (decide (id = id0)) as [<-|Hne].
    + by rewrite lookup_delete_eq.
    + rewrite lookup_delete_ne by done. apply Hm.
Qed.

Lemma guarded_acquire P m n t :
  guarded P false m -> P t = true -> guarded P true (<[n:=t]> m).
Proof.
  unfold guarded. intros Hm Ht. exists n, t. rewrite lookup_insert_eq. repeat split; [done..|].
  intros id' t'. destruct (decide (n = id')) as [<-|Hne]; [done|].
  rewrite lookup_insert_ne by done. intros Hid' Ht'.
  rewrite (Hm id' t' Hid') in Ht'. done.
Qed.

Lemma guarded_release P m id t :
  guarded P true m -> m !! id = Some t -> P t = true -> guarded P false (delete id m).
Proof.
  unfold guarded. intros (id0 & t0 & Hid0 & Ht0 & Huniq) Hid Ht id' t'.
  destruct (decide (id = id')) as [<-|Hne].
  - by rewrite lookup_delete_eq.
  - rewrite lookup_delete_ne by done. intros Hid'.
    destruct (P t') eqn:Ht'; [|done].
    pose proof (Huniq id t Hid Ht). pose proof (Huniq id' t' Hid' Ht'). congruence.
Qed.

(** The state of the locks agrees with the calls that are suspended. *)
Record consistent (w : World) : Prop := {
  ids_unused : unusedFrom (nextTask w) (pending w);
  refresh_guarded : guarded isRefreshTask (isRefreshingRef (hook w)) (pending w);
  decrypt_guarded : guarded isDecryptTask (isDecryptingRef (hook w)) (pending w);
  submit_guarded : guarded isSubmitTask (isSubmittingRef (hook w)) (pending w);
  refresh_mirrored : isRefreshing (hook w) = isRefreshingRef (hook w);
  decrypt_mirrored : isDecrypting (hook w) = isDecryptingRef (hook w);
  submit_mirrored : isSubmitting (hook w) = isSubmittingRef (hook w)
}.

(** Closes a goal on the ids or on one lock after a step, from the facts
    about the world before the step. *)
Ltac flight :=
  simpl in *;
  first
    [ eassumption
    | reflexivity
    | congruence
    | apply unusedFrom_insert; flight
    | apply unusedFrom_S; flight
    | apply unusedFrom_delete; flight
    | eapply unusedFrom_replace; [flight|eassumption]
    | eapply guarded_acquire; [flight|reflexivity]
    | eapply guarded_insert_other;
        [flight
        |first [ apply unusedFrom_None; flight
               | rewrite lookup_delete_ne by (apply Nat.lt_neq; eauto);
                 apply unusedFrom_None; flight ]
        |reflexivity]
    | eapply guarded_replace_other; [flight|eassumption|reflexivity|reflexivity]
    | eapply guarded_delete_other; [flight|eassumption|reflexivity]
    | eapply guarded_release; [flight|eassumption|reflexivity] ].

Lemma consistent_start p : consistent (start p).
Proof.
  split; simpl; try done; unfold guarded, unusedFrom; simpl;
    intros id t; by rewrite lookup_empty.
Qed.

(** Names the fields of the world, and reads off a lock that must be held
    because a call of its kind is suspended. *)
Ltac expose w :=
  let Hu := fresh "Hu" in
  intros [Hu ? ? ? ? ? ?];
  destruct w as [[] ? ? ? ? ?]; simpl in *.

Ltac held_locks :=
  repeat match goal with
         | H : _ || _ = false |- _ => apply orb_false_elim in H as [? ?]
         | H : ?b = false |- _ => is_var b; subst b
         | H : ?b = true |- _ => is_var b; subst b
         | Hg : guarded ?P ?b ?m, Hl : ?m !! ?id = Some ?t |- _ =>
             is_var b;
             assert (b = true)
               by (eapply (guarded_held P b m id t); [exact Hg|exact Hl|reflexivity]);
             subst b
         end.

Lemma consistent_refresh r now w :
  consistent w -> consistent (refreshEncryptedTotal r now w).
Proof.
  expose w. unfold Coordinator.refreshEncryptedTotal. simpl.
  repeat case_match; simpl; split; flight.
Qed.

Lemma consistent_decryptAfterWait r force w :
  consistent w -> consistent (decryptAfterWait r force w).
Proof.
  expose w. unfold Coordinator.decryptAfterWait. simpl.
  repeat case_match; simpl; split; flight.
Qed.

(** Every turn of the event loop keeps the locks and the suspended calls in
    agreement. *)
Lemma consistent_step w turn : consistent w -> consistent (step w turn).
Proof.
  destruct turn as [now ev]. unfold Coordinator.step. simpl.
  destruct ev; simpl.
  - (* a render *)
    intros Hw. unfold Coordinator.rendered.
    set (r := render GeoChainAddresses p w).
    assert (Hw1 : forall f,
               consistent (withHook (setInitRefreshKeyRef f)
                 (withHook (setGeoRef (contractOf (chainId p)))
                    (withRefreshMemo (refreshProps r) (withCurrent p w))))).
    { intros f. clearbody r. revert Hw. expose w. split; flight. }
    assert (Hw2 : consistent
                    (withHook (setGeoRef (contractOf (chainId p)))
                       (withRefreshMemo (refreshProps r) (withCurrent p w)))).
    { clearbody r. revert Hw. expose w. split; flight. }
    repeat case_match; try done. by apply consistent_refresh.
  - apply consistent_refresh.
  - intros Hw. unfold Coordinator.decryptEncryptedTotal.
    case_match; [|by apply consistent_decryptAfterWait].
    revert Hw. expose w. split; flight.
  - expose w. unfold Coordinator.decryptHandle. simpl.
    repeat case_match; simpl; split; flight.
  - expose w. unfold Coordinator.submitCore. simpl.
    repeat case_match; simpl; held_locks; split; flight.
  - expose w. unfold refreshSettled, sameChain. simpl.
    repeat case_match; simpl; try (split; flight); held_locks; split; flight.
  - intros Hw. unfold Coordinator.pollTick.
    repeat case_match; try done.
    + revert Hw. expose w. subst. split; flight.
    + apply consistent_decryptAfterWait.
      revert Hw. expose w. subst. split; flight.
  - intros Hw. unfold Coordinator.waitTimeout.
    repeat case_match; try done.
    apply consistent_decryptAfterWait.
    revert Hw. expose w. subst. split; flight.
  - expose w. unfold decryptSigned, handleSigned, releaseDecrypt, isStale, sameChain,
      sameSigner. simpl.
    repeat case_match; simpl; try (split; flight); held_locks; split; flight.
  - expose w. unfold decryptAnswered, handleAnswered, releaseDecrypt, isStale, sameChain,
      sameSigner. simpl.
    repeat case_match; simpl; try (split; flight); held_locks; split; flight.
  - expose w. unfold submitSlept. simpl.
    repeat case_match; simpl; try (split; flight); held_locks; split; flight.
  - expose w. unfold submitEncrypted, submitFailed, isStale, sameChain, sameSigner. simpl.
    repeat case_match; simpl; try (split; flight); held_locks; split; flight.
  - expose w. unfold submitSent, submitFailed. simpl.
    repeat case_match; simpl; try (split; flight); held_locks; split; flight.
  - expose w.
    unfold Coordinator.submitConfirmed, submitFailed, Coordinator.refreshEncryptedTotal.
    simpl.
    repeat case_match; simpl; try (split; flight); held_locks; split; flight.
Qed.

Lemma consistent_run turns : forall w, consistent w -> consistent (run w turns).
Proof.
  induction turns as [|turn turns IH]; intros w Hw; [done|].
  simpl. by apply IH, consistent_step.
Qed.

(** Decrypt calls made while a refresh is in flight are suspended one after
    the other, each under the next id; they touch no lock and no call that
    was suspended before them. *)
Lemma waits_pile_up now (calls : list (Render * bool)) :
  forall w,
    isRefreshingRef (hook w) = true ->
    let w' := run w ((fun c => (now, CallDecrypt c.1 c.2)) <$> calls) in
    isRefreshingRef (hook w') = true
    /\ isDecryptingRef (hook w') = isDecryptingRef (hook w)
    /\ (forall id, (id < nextTask w)%nat -> pending w' !! id = pending w !! id)
    /\ (forall i c,
          calls !! i = Some c ->
          pending w' !! (nextTask w + i)%nat = Some (DecryptWait c.1 c.2 now 0)).
Proof.
  induction calls as [|c calls IH]; intros w Hr; [by repeat split|].
  cbn [fmap list_fmap]. unfold Coordinator.run. cbn [fold_left].
  set (w1 := step w (now, CallDecrypt c.1 c.2)).
  assert (Hw1 : w1 = spawn (DecryptWait c.1 c.2 now 0)
                       (withHook (setMessage MsgWaitingForRefresh) w)).
  { subst w1. unfold Coordinator.step. cbn [fst snd].
    unfold Coordinator.decryptEncryptedTotal. by rewrite Hr. }
  destruct (IH w1) as (Hr' & Hd' & Hold & Hnew); [by rewrite Hw1|].
  assert (Hnext : nextTask w1 = S (nextTask w)) by (by rewrite Hw1).
  repeat apply conj.
  - exact Hr'.
  - etrans; [exact Hd'|]. by rewrite Hw1.
  - intros id Hid. rewrite Hold by lia. rewrite Hw1. simpl.
    by rewrite lookup_insert_ne by lia.
  - intros [|i] c' Hc'.
    + injection Hc' as <-. rewrite Nat.add_0_r, Hold by lia. rewrite Hw1. simpl.
      apply lookup_insert_eq.
    + replace (nextTask w + S i)%nat with (nextTask w1 + i)%nat by lia.
      by apply Hnew.
Qed.

(** Single flight: in every state the hook reaches from its mount, the
    refresh lock is held exactly when one refresh waits for its read, the
    decrypt lock exactly when one decrypt has passed its guards and waits for
    [loadOrSign] or [userDecrypt], and the submit lock exactly when one submit
    is suspended at one of its awaits; no two such calls of one kind are ever
    suspended together.  Decrypt calls that wait for a refresh are not
    counted: they hold no lock, and any number of them wait together -- every
    decrypt called while the refresh is in flight is suspended, and the
    decrypt lock stays as it is. *)
Lemma single_flight p turns :
  let w := run (start p) turns in
  guarded isRefreshTask (isRefreshingRef (hook w)) (pending w)
  /\ guarded isDecryptTask (isDecryptingRef (hook w)) (pending w)
  /\ guarded isSubmitTask (isSubmittingRef (hook w)) (pending w)
  /\ (forall now (calls : list (Render * bool)),
        isRefreshingRef (hook w) = true ->
        let w' := run w ((fun c => (now, CallDecrypt c.1 c.2)) <$> calls) in
        isDecryptingRef (hook w') = isDecryptingRef (hook w)
        /\ forall i c,
             calls !! i = Some c ->
             pending w' !! (nextTask w + i)%nat = Some (DecryptWait c.1 c.2 now 0)).
Proof.
  intros w.
  destruct (consistent_run turns (start p) (consistent_start p))
    as [_ Hrefresh Hdecrypt Hsubmit _ _ _].
  repeat apply conj; [exact Hrefresh|exact Hdecrypt|exact Hsubmit|].
  intros now calls Hr w'.
  destruct (waits_pile_up now calls w Hr) as (_ & Hd & _ & Hwaits).
  split; [exact Hd|exact Hwaits].
Qed.

(** *** submitCore *)

(** What the synchronous part of a refresh leaves alone, and what it adds to
    the observations. *)
Lemma refresh_frame r now w :
  let w' := refreshEncryptedTotal r now w in
  isSubmittingRef (hook w') = isSubmittingRef (hook w)
  /\ isSubmitting (hook w') = isSubmitting (hook w)
  /\ isDecryptingRef (hook w') = isDecryptingRef (hook w)
  /\ isDecrypting (hook w') = isDecrypting (hook w)
  /\ clear (hook w') = clear (hook w)
  /\ current w' = current w
  /\ (trace w' = trace w \/ exists a s, trace w' = trace w ++ [LedgerRead a s]).
Proof.
  unfold Coordinator.refreshEncryptedTotal.
  repeat case_match; simpl; repeat split; eauto.
Qed.

Lemma app_eq_self {A} (l l' : list A) : l = l ++ l' -> l' = [].
Proof.
  intros H. apply (app_inv_head l). by rewrite app_nil_r.
Qed.

(** Reads the equation left by a step that reported exactly [o]. *)
Ltac reported :=
  repeat match goal with
         | H : _ ++ _ = _ ++ _ |- _ =>
             rewrite <- ?app_assoc in H; apply app_inv_head in H; simpl in H
         | H : ?l = ?l ++ _ |- _ => apply app_eq_self in H
         | H : _ :: _ = _ :: _ |- _ => injection H as H; subst
         | H : _ :: _ = [] |- _ => discriminate H
         | H : [] = _ :: _ |- _ => discriminate H
         end;
  try discriminate.

(** C8: [submitCore] throws "busy" whenever a refresh or a submit is in
    flight; otherwise it throws "not ready" when the contract address, the
    signer or the FHEVM instance is missing.  Whatever turn of the event loop
    reports a rejected submit, either the call was refused by these guards and
    never took the lock (the hook is untouched), or the submit lock, ref and
    state, is released when the turn ends.  Every awaited call of a submit that
    rejects, and a context found stale after encryption, is such a turn.  In
    every state the hook reaches from its mount the submit lock is held
    exactly when a submit is suspended at one of its awaits. *)
Theorem C8_submit_guards_and_release :
  (forall r p w,
      isRefreshingRef (hook w) = true \/ isSubmittingRef (hook w) = true ->
      submitCore r p w = observe (SubmitRejected ErrBusy) w)
  /\ (forall r p w,
        isRefreshingRef (hook w) = false ->
        isSubmittingRef (hook w) = false ->
        (forall a s, ~ available r a s) ->
        submitCore r p w = observe (SubmitRejected ErrSubmitNotReady) w)
  /\ (forall w turn e,
        trace (step w turn) = trace w ++ [SubmitRejected e] ->
        ((e = ErrBusy \/ e = ErrSubmitNotReady) /\ hook (step w turn) = hook w)
        \/ (isSubmittingRef (hook (step w turn)) = false
            /\ isSubmitting (hook (step w turn)) = false))
  /\ (forall w now id s e,
        (pending w !! id = Some (SubmitEncrypt s) ->
         trace (step w (now, EncryptSettled id (Rejected e)))
         = trace w ++ [SubmitRejected (ErrExternal e)])
        /\ (pending w !! id = Some (SubmitSend s) ->
            trace (step w (now, SendSettled id (Rejected e)))
            = trace w ++ [SubmitRejected (ErrExternal e)])
        /\ (forall hash,
              pending w !! id = Some (SubmitConfirm s hash) ->
              trace (step w (now, ConfirmSettled id (Rejected e)))
              = trace w ++ [SubmitRejected (ErrExternal e)]))
  /\ (forall w now id s enc,
        pending w !! id = Some (SubmitEncrypt s) ->
        isStale (chainId (props (submitRender s))) (submitAddress s) (submitSigner s)
          (settle id w) = true ->
        trace (step w (now, EncryptSettled id (Fulfilled enc)))
        = trace w ++ [SubmitRejected ErrStale])
  /\ (forall p turns,
        let w := run (start p) turns in
        (isSubmittingRef (hook w) = true
         <-> exists id t, pending w !! id = Some t /\ isSubmitTask t = true)
        /\ isSubmitting (hook w) = isSubmittingRef (hook w)).
Proof.
  repeat apply conj.
  - intros r p w Hbusy. unfold Coordinator.submitCore.
    destruct Hbusy as [-> | ->]; by rewrite ?orb_true_r.
  - intros r p w Hr Hs Hna. unfold Coordinator.submitCore. rewrite Hr, Hs. simpl.
    destruct (address (contractOf (chainId (props r)))) as [a|] eqn:Ha; [|done].
    destruct (ethersSigner (props r)) as [sg|] eqn:Hsg; [|done].
    destruct (truthy (Some a)) eqn:Ht; [|done].
    destruct (instance (props r)) eqn:Hi; [|done].
    destruct (Hna a sg). repeat split; auto. by apply truthy_Some_inv.
  - intros w [now ev] e. unfold Coordinator.step. simpl.
    destruct ev; simpl.
    + (* a render *)
      unfold Coordinator.rendered.
      repeat case_match; simpl;
        try match goal with
            | |- context [refreshEncryptedTotal ?r ?n ?w0] =>
                destruct (refresh_frame r n w0) as (_ & _ & _ & _ & _ & _ & [-> | (? & ? & ->)])
            end; simpl; intros; reported.
    + destruct (refresh_frame r now w) as (_ & _ & _ & _ & _ & _ & [-> | (? & ? & ->)]);
        intros; reported.
    + unfold Coordinator.decryptEncryptedTotal, Coordinator.decryptAfterWait.
      repeat case_match; simpl; intros; reported.
    + unfold Coordinator.decryptHandle.
      repeat case_match; simpl; intros; reported.
    + unfold Coordinator.submitCore.
      repeat case_match; simpl; intros; reported; left; auto.
    + unfold refreshSettled. repeat case_match; simpl; intros; reported.
    + unfold Coordinator.pollTick, Coordinator.decryptAfterWait.
      repeat case_match; simpl; intros; reported.
    + unfold Coordinator.waitTimeout, Coordinator.decryptAfterWait.
      repeat case_match; simpl; intros; reported.
    + unfold decryptSigned, handleSigned, releaseDecrypt.
      repeat case_match; simpl; intros; reported.
    + unfold decryptAnswered, handleAnswered, releaseDecrypt.
      repeat case_match; simpl; intros; reported.
    + unfold submitSlept. repeat case_match; simpl; intros; reported.
    + unfold submitEncrypted, submitFailed.
      repeat case_match; simpl; intros; reported; right; auto.
    + unfold submitSent, submitFailed.
      repeat case_match; simpl; intros; reported; right; auto.
    + unfold Coordinator.submitConfirmed, submitFailed.
      repeat case_match; simpl;
        try match goal with
            | |- context [refreshEncryptedTotal ?r ?n ?w0] =>
                destruct (refresh_frame r n w0) as (_ & _ & _ & _ & _ & _ & [-> | (? & ? & ->)])
            end; simpl; intros; reported; right; auto.
  - intros w now id s e. unfold Coordinator.step. simpl.
    repeat apply conj; [intros -> | intros -> | intros hash ->]; done.
  - intros w now id s enc Hp Hstale. unfold Coordinator.step. simpl.
    rewrite Hp. unfold submitEncrypted. by rewrite Hstale.
  - intros p turns w.
    destruct (consistent_run turns (start p) (consistent_start p))
      as [_ _ _ Hs _ _ Hm].
    fold w in Hs, Hm. split; [|exact Hm]. split.
    + intros Hheld. rewrite Hheld in Hs. destruct Hs as (id & t & Hid & Ht & _). eauto.
    + intros (id & t & Hid & Ht). by apply (guarded_held _ _ _ id t Hs).
Qed.

(** *** decryptEncryptedTotal: the wait for a refresh *)








(** *** refreshEncryptedTotal: the throttle *)

(** The key the [refreshEncryptedTotal] of render [r] runs under, when the
    render it was created in has the contract address, the provider and the
    signer a refresh needs. *)
Definition keyOf (r : Render) : option string :=
  match address (contractOf (chainId (refreshProps r))), ethersSigner (refreshProps r) with
  | Some a, Some s =>
      if truthy (Some a) && defined (ethersReadonlyProvider (refreshProps r))
      then Some (refreshKey a s)
      else None
  | _, _ => None
  end.

(** The render whose [refreshEncryptedTotal] a turn may call: the one named
    by a call from outside, the new one for the effect that follows a render,
    and the render a submission was created in when its confirmation
    arrives. *)
Definition refreshOf (w : World) (ev : Event) : option Render :=
  match ev with
  | CallRefresh r => Some r
  | Rendered p => Some (render GeoChainAddresses p w)
  | ConfirmSettled id (Fulfilled _) =>
      match pending w !! id with
      | Some (SubmitConfirm s _) => Some (submitRender s)
      | _ => None
      end
  | _ => None
  end.

(** No turn of the run starts a refresh under another key than [key]. *)
Fixpoint undisturbed (key : string) (w : World) (turns : list (Z * Event)) : Prop :=
  match turns with
  | [] => True
  | turn :: rest =>
      match refreshOf w (snd turn) with
      | Some r => keyOf r = Some key \/ keyOf r = None
      | None => True
      end
      /\ undisturbed key (step w turn) rest
  end.

(** The throttle remembers a refresh under [key] at time [t1]. *)
Definition remembers (key : string) (t1 : Z) (w : World) : Prop :=
  lastRefreshKeyRef (hook w) = key /\ lastRefreshAtRef (hook w) = t1.

(** A refresh that goes as far as the read leaves its key and time behind. *)
Lemma refresh_reads r now w key :
  keyOf r = Some key ->
  trace (refreshEncryptedTotal r now w) <> trace w ->
  remembers key now (refreshEncryptedTotal r now w)
  /\ exists a s, trace (refreshEncryptedTotal r now w) = trace w ++ [LedgerRead a s].
Proof.
  unfold keyOf, Coordinator.refreshEncryptedTotal, remembers.
  repeat case_match; simpl; try done; intros [= <-] Hread; eauto.
Qed.

(** Within 2000 ms of the remembered refresh, a refresh under the same key, or
    one that lacks what it needs, reads nothing and leaves the memory as it
    is. *)
Lemma refresh_throttled r now w key t1 :
  remembers key t1 w ->
  keyOf r = Some key \/ keyOf r = None ->
  now - t1 < 2000 ->
  remembers key t1 (refreshEncryptedTotal r now w)
  /\ trace (refreshEncryptedTotal r now w) = trace w.
Proof.
  intros [Hkey Hat] Hr Hnow.
  unfold keyOf, Coordinator.refreshEncryptedTotal, remembers in *.
  destruct (isRefreshingRef (hook w)); [done|].
  destruct (address (contractOf (chainId (refreshProps r)))) as [a|]; [|done].
  destruct (ethersSigner (refreshProps r)) as [s|]; [|done].
  destruct (truthy (Some a) && defined (ethersReadonlyProvider (refreshProps r))); [|done].
  destruct Hr as [[= Hr]|?]; [|done]. simpl.
  rewrite Hkey, Hat, Hr, String.eqb_refl.
  destruct (Z.ltb_spec (now - t1) 2000); [done|lia].
Qed.

Lemma step_undisturbed w turn key t1 :
  remembers key t1 w ->
  match refreshOf w (snd turn) with
  | Some r => keyOf r = Some key \/ keyOf r = None
  | None => True
  end ->
  fst turn - t1 < 2000 ->
  remembers key t1 (step w turn) /\ trace (step w turn) = trace w
  \/ remembers key t1 (step w turn)
     /\ exists o, trace (step w turn) = trace w ++ [o] /\ countReads [o] = 0%nat.
Proof.
  intros Hmem Hkey Hnow. destruct turn as [now ev]. simpl in *.
  unfold Coordinator.step. simpl.
  destruct ev; simpl in *.
  - (* a render *)
    unfold Coordinator.rendered. left.
    repeat case_match; simpl; try done.
    match goal with
    | |- context [refreshEncryptedTotal ?r0 ?n ?w0] =>
        destruct (refresh_throttled r0 n w0 key t1) as [Hm Ht];
          [exact Hmem|exact Hkey|exact Hnow|]
    end.
    split; [exact Hm|by rewrite Ht].
  - left. by apply refresh_throttled.
  - unfold Coordinator.decryptEncryptedTotal, Coordinator.decryptAfterWait.
    repeat case_match; simpl; eauto.
  - unfold Coordinator.decryptHandle. repeat case_match; simpl; eauto.
  - unfold Coordinator.submitCore. repeat case_match; simpl; eauto.
  - unfold refreshSettled. repeat case_match; simpl; eauto.
  - unfold Coordinator.pollTick, Coordinator.decryptAfterWait.
    repeat case_match; simpl; eauto.
  - unfold Coordinator.waitTimeout, Coordinator.decryptAfterWait.
    repeat case_match; simpl; eauto.
  - unfold decryptSigned, handleSigned, releaseDecrypt. repeat case_match; simpl; eauto.
  - unfold decryptAnswered, handleAnswered, releaseDecrypt. repeat case_match; simpl; eauto.
  - unfold submitSlept. repeat case_match; simpl; eauto.
  - unfold submitEncrypted, submitFailed. repeat case_match; simpl; eauto.
  - unfold submitSent, submitFailed. repeat case_match; simpl; eauto.
  - unfold Coordinator.submitConfirmed, submitFailed.
    destruct r as [status|e]; simpl in *;
      [|repeat case_match; simpl; eauto].
    destruct (pending w !! id) as [[]|] eqn:Hp; eauto.
    right.
    match goal with
    | |- context [refreshEncryptedTotal ?r0 ?n ?w0] =>
        destruct (refresh_throttled r0 n w0 key t1) as [Hm Ht];
          [exact Hmem|exact Hkey|exact Hnow|]
    end.
    simpl. rewrite Ht. simpl. split; [exact Hm|eauto].
Qed.

Lemma run_undisturbed key t1 turns :
  forall w,
    remembers key t1 w ->
    undisturbed key w turns ->
    Forall (fun turn => fst turn - t1 < 2000) turns ->
    remembers key t1 (run w turns)
    /\ countReads (trace (run w turns)) = countReads (trace w).
Proof.
  induction turns as [|turn turns IH]; intros w Hmem Hund Hnow; [done|].
  simpl in Hund. destruct Hund as [Hturn Hrest].
  apply Forall_cons in Hnow as [Hnow1 Hnow].
  simpl.
  destruct (step_undisturbed w turn key t1 Hmem Hturn Hnow1)
    as [[Hm Ht]|[Hm (o & Ht & Ho)]];
    destruct (IH (step w turn) Hm Hrest Hnow) as [Hm' Hc]; split; auto;
    rewrite Hc, Ht; [done|].
  rewrite countReads_app, Ho. lia.
Qed.

(** C4, as amended: take two calls of [refreshEncryptedTotal] under the same
    (contract, signer) key, the later one less than 2000 ms after the earlier
    one.  If the earlier call issues its read, and no turn in between starts a
    refresh under another key, then the later call issues no read, and neither
    does any turn in between: exactly one ledger read is issued from the
    earlier call through the later one. *)
Theorem C4_second_refresh_reads_nothing
    (w : World) (r1 r2 : Render) (t1 t2 : Z) (between : list (Z * Event))
    (key : string) :
  let w1 := refreshEncryptedTotal r1 t1 w in
  let w2 := run w1 between in
  let w3 := refreshEncryptedTotal r2 t2 w2 in
  keyOf r1 = Some key ->
  keyOf r2 = Some key ->
  trace w1 <> trace w ->
  undisturbed key w1 between ->
  Forall (fun turn => fst turn - t1 < 2000) between ->
  t2 - t1 < 2000 ->
  trace w3 = trace w2
  /\ pending w3 = pending w2
  /\ countReads (trace w3) = S (countReads (trace w)).
Proof.
  intros w1 w2 w3 Hk1 Hk2 Hread Hund Hbetween Ht2.
  destruct (refresh_reads r1 t1 w key Hk1 Hread) as [Hmem (a & s & Ht1)].
  destruct (run_undisturbed key t1 between w1 Hmem Hund Hbetween) as [Hmem2 Hc2].
  destruct (refresh_throttled r2 t2 w2 key t1 Hmem2 (or_introl Hk2) Ht2) as [_ Ht3].
  split; [exact Ht3|]. split.
  - subst w3. revert Ht3. unfold Coordinator.refreshEncryptedTotal.
    repeat case_match; simpl; try done.
    intros Habs. symmetry in Habs. apply app_eq_self in Habs. discriminate.
  - subst w3 w2 w1. rewrite Ht3, Hc2, Ht1, countReads_app. simpl. lia.
Qed.

(** *** The zero handle *)




End WithTable.

(** *** Concrete runs *)

Definition zeroHandle : string := hexlify32 0.

(** C2, the failing run: the hook is mounted for [alice] and starts its
    refresh; the wallet switches to [bob] on the same chain while the read is
    in flight; the read then resolves with [alice]'s handle.  The handle is
    stored and the cleartext cell is reset although the signer is no longer
    the captured one; no read for [bob] is ever issued. *)
Theorem C2_refresh_keeps_result_after_signer_change :
  let w0 := run localTable (start (connected alice)) [(1000, Rendered (connected alice))] in
  let w1 := step localTable w0 (1100, Rendered (connected bob)) in
  let w2 := step localTable w1 (1200, ReadSettled 0 (Fulfilled (OtherV "0xa11ce"))) in
  pending w0 !! 0%nat = Some (RefreshFetch (Some 31337) "0xC0" alice)
  /\ ethersSigner (current w2) = Some bob
  /\ handle (hook w1) = None
  /\ handle (hook w2) = Some "0xa11ce"
  /\ message (hook w2) = MsgRefreshed
  /\ trace w2 = [LedgerRead "0xC0" "0xA1"].
Proof. vm_compute. by repeat split. Qed.

(** C4 as stated fails, in two ways.  First run: the wallet goes from [alice]
    to [bob] and back within 200 ms; the effect that follows each render
    refreshes, the throttle remembers [bob]'s key only, and the two refreshes
    under [alice]'s key, 200 ms apart, both issue a read.  Second run: two
    calls 100 ms apart that follow a refresh by less than 2000 ms are both
    throttled, and issue no read at all. *)
Lemma C4_counterexample_throttle_keeps_one_key :
  let settled id := ReadSettled id (Fulfilled (OtherV zeroHandle)) in
  let first := run localTable (start (connected alice)) [(1000, Rendered (connected alice))] in
  let back :=
    run localTable first
      [(1050, settled 0%nat); (1100, Rendered (connected bob)); (1150, settled 1%nat);
       (1200, Rendered (connected alice))] in
  let idle := run localTable first [(1050, settled 0%nat)] in
  let twice :=
    run localTable idle
      [(1500, CallRefresh (latest idle)); (1600, CallRefresh (latest idle))] in
  trace first = [LedgerRead "0xC0" "0xA1"]
  /\ trace back
     = [LedgerRead "0xC0" "0xA1"; LedgerRead "0xC0" "0xB0"; LedgerRead "0xC0" "0xA1"]
  /\ trace twice = trace idle.
Proof. vm_compute. by repeat split. Qed.

(** C4 at work: [alice]'s first refresh at time 1000 reads; the read settles,
    a decrypt is tried and the refresh is called again; the call at time 2999
    still reads nothing. *)
Lemma C4_witness :
  let w := start (connected alice) in
  let r := latest w in
  let between :=
    [(1050, ReadSettled 0 (Fulfilled (OtherV zeroHandle)));
     (1100, Rendered (connected alice));
     (1200, CallDecrypt r false);
     (1300, CallRefresh r)] in
  let w2 := run localTable (refreshEncryptedTotal localTable r 1000 w) between in
  trace (refreshEncryptedTotal localTable r 2999 w2) = trace w2
  /\ countReads (trace (refreshEncryptedTotal localTable r 2999 w2)) = 1%nat.
Proof.
  intros w r between w2.
  destruct (C4_second_refresh_reads_nothing localTable w r r 1000 2999 between
              (refreshKey "0xC0" alice)) as (Ht & _ & Hc).
  - reflexivity.
  - reflexivity.
  - vm_compute. discriminate.
  - vm_compute. repeat split; auto.
  - repeat constructor.
  - reflexivity.
  - split; [exact Ht|exact Hc].
Defined.



(** Staleness at work, for a decrypt: [alice] has a handle and asks for its
    cleartext; the wallet switches to [bob] while the decryption runs; the
    answer is discarded. *)
Lemma decrypt_discards_stale_witness :
  let seen :=
    run localTable (start (connected alice))
      [(1000, Rendered (connected alice));
       (1050, ReadSettled 0 (Fulfilled (OtherV "0xa11ce")))] in
  let asked := step localTable seen (1100, CallDecrypt (latest seen) false) in
  let w := withCurrent (connected bob) asked in
  decryptAnswered (Some 31337) "0xC0" "0xa11ce" alice (Fulfilled {["0xa11ce" := 12]}) w
  = releaseDecrypt (withHook (setMessage MsgStaleDecryptResult) w)
  /\ clear (hook (decryptAnswered (Some 31337) "0xC0" "0xa11ce" alice
                    (Fulfilled {["0xa11ce" := 12]}) w)) = None.
Proof.
  intros seen asked w.
  rewrite (decrypt_discards_stale (Some 31337) "0xC0" "0xa11ce" alice {["0xa11ce" := 12]} w).
  - by split.
  - right. exists bob. by split.
Defined.

(** Staleness at work, for a refresh: the read was started for the contract
    at "0xC0"; the hook meanwhile points at another contract; the handle that
    was read is discarded. *)
Lemma refresh_discards_on_address_change_witness :
  let w :=
    withHook (setGeoRef {| address := Some "0xC1"; contractChainId := Some 31337 |})
      (start (connected alice)) in
  handle (hook (refreshSettled (Some 31337) "0xC0" alice (Fulfilled (OtherV "0xa11ce")) w))
  = None.
Proof.
  intros w.
  by rewrite (refresh_discards_on_address_change (Some 31337) "0xC0" alice
                (OtherV "0xa11ce") w).
Defined.


End CoordinatorFacts.

(** ** Part III: what the contract's history shows

    Properties of [GeoChainFHE] over whole runs: the public statistics, the
    result ids, the event log that the pages read, the access-control list,
    and what one player can do to another. *)

Module LedgerHistory.

Import Ledger.

Open Scope Z_scope.

(** What the page code decodes from the event log ([ResultSubmitted] carries
    the id, the player, the public score and the block time). *)
Definition submissionsOf (player : Z) (l : list Event) : list (Z * Z) :=
  flat_map (fun e =>
              match e with
              | ResultSubmitted _ q _ _ pub t => if q =? player then [(pub, t)] else []
              | _ => []
              end) l.

Definition resultIds (l : list Event) : list Z :=
  flat_map (fun e => match e with ResultSubmitted id _ _ _ _ _ => [id] | _ => [] end) l.

(** The block times of the [BadgeClaimed] events of one player and badge. *)
Definition claimTimes (player badgeId : Z) (l : list Event) : list Z :=
  flat_map (fun e =>
              match e with
              | BadgeClaimed q b t => if (q =? player) && (b =? badgeId) then [t] else []
              | _ => []
              end) l.

(** The statistics after a list of (public score, block time) submissions. *)
Definition replay (l : list (Z * Z)) (s : PlayerStats) : PlayerStats :=
  fold_left (fun s x => updateStats s (fst x) (snd x)) l s.

Definition maxZ (l : list Z) : Z := fold_right Z.max 0 l.

Section WithFHE.

Context `{scheme : FHE}.

(** What one transaction adds to the public record of a player: the public
    score and the block time of an accepted submission of that player. *)
Definition publishedHere (player : Z) (c : Chain) (tx : Tx) : list (Z * Z) :=
  match txCall tx, snd (execute c tx) with
  | SubmitResult _ _ _ _ pub, Succeeded _ =>
      if sender (txEnv tx) =? player then [(pub, timestamp (txEnv tx))] else []
  | _, _ => []
  end.

Fixpoint published (player : Z) (c : Chain) (txs : list Tx) : list (Z * Z) :=
  match txs with
  | [] => []
  | tx :: rest => publishedHere player c tx ++ published player (fst (execute c tx)) rest
  end.

(** The result ids a run hands out, in order. *)
Definition issuedHere (c : Chain) (tx : Tx) : list Z :=
  match snd (execute c tx) with
  | Succeeded (Some id) => [id]
  | _ => []
  end.

Fixpoint issued (c : Chain) (txs : list Tx) : list Z :=
  match txs with
  | [] => []
  | tx :: rest => issuedHere c tx ++ issued (fst (execute c tx)) rest
  end.

(** *** One transaction *)

Lemma submitResult_acl env ext proof rh cid pub c id c' :
  submitResult env ext proof rh cid pub c = Ok (id, c') ->
  exists score,
    fromExternal (this env) (sender env) ext proof = Some score
    /\ acl c' = acl c ++ [(getEncryptedTotalScore c' (sender env), this env);
                          (getEncryptedTotalScore c' (sender env), sender env);
                          (score, this env); (score, sender env)].
Proof.
  unfold submitResult, getEncryptedTotalScore.
  destruct (negb _); [discriminate|].
  destruct (fromExternal _ _ _ _) as [score|]; [|discriminate].
  destruct (nextResultId (storage c) =? MAX_UINT256); [discriminate|].
  intros [= <- <-]. exists score. simpl. by rewrite lookup_insert_eq.
Qed.

(** The four ways a transaction can end. *)
Inductive outcome (c : Chain) (tx : Tx) : Prop :=
| reverted e :
    execute c tx = (c, Reverted e) -> outcome c tx
| submitted ext proof rh cid pub score c' :
    txCall tx = SubmitResult ext proof rh cid pub ->
    execute c tx = (c', Succeeded (Some (nextResultId (storage c)))) ->
    fromExternal (this (txEnv tx)) (sender (txEnv tx)) ext proof = Some score ->
    score <> 0 ->
    0 <= pub <= MAX_UINT32 ->
    nextResultId (storage c) <> MAX_UINT256 ->
    nextResultId (storage c') = nextResultId (storage c) + 1 ->
    _encryptedTotalScoreByPlayer (storage c')
    = <[sender (txEnv tx) := add (getEncryptedTotalScore c (sender (txEnv tx))) score]>
        (_encryptedTotalScoreByPlayer (storage c)) ->
    _encryptedScoreByResultId (storage c')
    = <[nextResultId (storage c) := score]> (_encryptedScoreByResultId (storage c)) ->
    playerStats (storage c')
    = <[sender (txEnv tx) :=
          updateStats (getPlayerStats c (sender (txEnv tx))) pub (timestamp (txEnv tx))]>
        (playerStats (storage c)) ->
    badgeClaimed (storage c') = badgeClaimed (storage c) ->
    acl c' = acl c ++ [(getEncryptedTotalScore c' (sender (txEnv tx)), this (txEnv tx));
                       (getEncryptedTotalScore c' (sender (txEnv tx)), sender (txEnv tx));
                       (score, this (txEnv tx)); (score, sender (txEnv tx))] ->
    logs c' = logs c ++ [ResultSubmitted (nextResultId (storage c)) (sender (txEnv tx))
                           rh cid pub (timestamp (txEnv tx))] ->
    outcome c tx
| claimed b c' :
    txCall tx = ClaimBadge b ->
    execute c tx = (c', Succeeded None) ->
    isClaimed c b (sender (txEnv tx)) = false ->
    badgeCondition b (getPlayerStats c (sender (txEnv tx))) (timestamp (txEnv tx)) = Ok true ->
    nextResultId (storage c') = nextResultId (storage c) ->
    _encryptedTotalScoreByPlayer (storage c') = _encryptedTotalScoreByPlayer (storage c) ->
    _encryptedScoreByResultId (storage c') = _encryptedScoreByResultId (storage c) ->
    playerStats (storage c') = playerStats (storage c) ->
    badgeClaimed (storage c')
    = <[(b, sender (txEnv tx)) := true]> (badgeClaimed (storage c)) ->
    acl c' = acl c ->
    logs c' = logs c ++ [BadgeClaimed (sender (txEnv tx)) b (timestamp (txEnv tx))] ->
    outcome c tx
| updated cid v c' :
    txCall tx = UpdateQuestionPool cid v ->
    execute c tx = (c', Succeeded None) ->
    storage c' = storage c ->
    acl c' = acl c ->
    logs c' = logs c ++ [QuestionPoolUpdated cid v] ->
    outcome c tx.

Lemma execute_outcome c tx : outcome c tx.
Proof.
  destruct tx as [env [ext proof rh cid pub|b|cid v]].
  - destruct (submitResult env ext proof rh cid pub c) as [[id c']|e] eqn:E.
    + pose proof (submitResult_acl _ _ _ _ _ _ _ _ _ E) as (score' & Efrom' & Hacl).
      pose proof E as E'.
      apply LedgerFacts.submitResult_ok in E'
        as (score & Efrom & Hpub & Hmax & -> & Hnext & Etot & Eres & Estats & Hb & Hlogs).
      assert (score' = score) as -> by congruence.
      apply (submitted _ _ ext proof rh cid pub score c'); try done.
      * unfold execute. simpl. by rewrite E.
      * by eapply fromExternal_initialized.
    + apply (reverted _ _ e). unfold execute. simpl. by rewrite E.
  - destruct (claimBadge env b c) as [[[] c']|e] eqn:E.
    + pose proof E as E'.
      apply LedgerFacts.claimBadge_ok in E' as (? & ? & ? & ? & ? & ? & ? & ? & ?).
      apply (claimed _ _ b c'); try done.
      unfold execute. simpl. by rewrite E.
    + apply (reverted _ _ e). unfold execute. simpl. by rewrite E.
  - by eapply (updated _ _ cid v).
Qed.

(** *** Statistics replayed from a list of submissions *)

Lemma last_cons {A} (a : A) l d : List.last (a :: l) d = List.last l a.
Proof.
  revert a d. induction l as [|b l IH]; intros a d; [done|].
  change (List.last (a :: b :: l) d) with (List.last (b :: l) d). by rewrite !IH.
Qed.

Lemma maxZ_nonneg l : 0 <= maxZ l.
Proof. unfold maxZ. induction l; simpl; lia. Qed.

Lemma replay_total l :
  forall s,
    0 <= totalPublicScore s <= MAX_UINT256 ->
    totalPublicScore (replay l s) = (totalPublicScore s + sumZ (map fst l)) mod 2 ^ 256.
Proof.
  unfold MAX_UINT256.
  induction l as [|[pub t] l IH]; intros s Hs; simpl.
  - rewrite Z.add_0_r, Z.mod_small; lia.
  - unfold replay in *. rewrite IH; simpl.
    + unfold wrap256. rewrite Zplus_mod_idemp_l. f_equal. unfold sumZ. lia.
    + unfold wrap256. pose proof (Z.mod_pos_bound (totalPublicScore s + pub) (2 ^ 256)). lia.
Qed.

Lemma replay_max l :
  forall s,
    0 <= maxSinglePublicScore s ->
    maxSinglePublicScore (replay l s) = Z.max (maxSinglePublicScore s) (maxZ (map fst l)).
Proof.
  induction l as [|[pub t] l IH]; intros s Hs; simpl.
  - lia.
  - unfold replay in *. rewrite IH; simpl;
      destruct (Z.ltb_spec (maxSinglePublicScore s) pub); lia.
Qed.

Lemma replay_last l :
  forall s, lastPlayedAt (replay l s) = List.last (map snd l) (lastPlayedAt s).
Proof.
  induction l as [|[pub t] l IH]; intros s; [done|].
  change (map snd ((pub, t) :: l)) with (t :: map snd l). rewrite last_cons.
  unfold replay in *. simpl. by rewrite IH.
Qed.

Lemma replay_app l1 l2 s : replay (l1 ++ l2) s = replay l2 (replay l1 s).
Proof. apply fold_left_app. Qed.

(** *** One transaction, seen from one player *)

Lemma execute_published c tx p :
  getPlayerStats (fst (execute c tx)) p = replay (publishedHere p c tx) (getPlayerStats c p)
  /\ Forall (fun x => 0 <= fst x <= MAX_UINT32) (publishedHere p c tx)
  /\ length (publishedHere p c tx) = length (acceptedHere p c tx)
  /\ submissionsOf p (logs (fst (execute c tx)))
     = submissionsOf p (logs c) ++ publishedHere p c tx.
Proof.
  unfold publishedHere, acceptedHere, submissionsOf.
  destruct (execute_outcome c tx)
    as [e E|ext proof rh cid pub score c' Hcall E Hfrom _ Hpub _ _ _ _ Hstats _ _ Hlogs
       |b c' Hcall E _ _ _ _ _ Hstats _ _ Hlogs|cid v c' Hcall E Hst _ Hlogs];
    rewrite E; simpl.
  - destruct (txCall tx); rewrite app_nil_r; repeat apply conj; auto.
  - rewrite Hcall, Hfrom, Hlogs, flat_map_app. simpl.
    unfold getPlayerStats. rewrite Hstats.
    destruct (Z.eqb_spec (sender (txEnv tx)) p) as [->|Hne].
    + rewrite lookup_insert_eq. simpl. repeat apply conj; auto.
    + rewrite lookup_insert_ne by done. rewrite !app_nil_r. repeat apply conj; auto.
  - rewrite Hcall, Hlogs, flat_map_app. simpl. unfold getPlayerStats. rewrite Hstats.
    rewrite !app_nil_r. repeat apply conj; auto.
  - rewrite Hcall, Hlogs, flat_map_app. simpl. unfold getPlayerStats. rewrite Hst.
    rewrite !app_nil_r. repeat apply conj; auto.
Qed.

Lemma run_published p txs :
  forall c,
    getPlayerStats (run c txs) p = replay (published p c txs) (getPlayerStats c p)
    /\ Forall (fun x => 0 <= fst x <= MAX_UINT32) (published p c txs)
    /\ length (published p c txs) = length (acceptedScores p c txs)
    /\ submissionsOf p (logs (run c txs)) = submissionsOf p (logs c) ++ published p c txs.
Proof.
  induction txs as [|tx txs IH]; intros c.
  - simpl. by rewrite app_nil_r.
  - rewrite LedgerFacts.run_cons. simpl.
    destruct (IH (fst (execute c tx))) as (-> & Hrange & Hlen & ->).
    destruct (execute_published c tx p) as (-> & Hrange' & Hlen' & ->).
    rewrite replay_app, !length_app, Hlen, Hlen', app_assoc.
    repeat apply conj; auto. by apply Forall_app.
Qed.

(** *** The result ids *)

Lemma execute_issued c tx :
  let c' := fst (execute c tx) in
  nextResultId (storage c') = nextResultId (storage c) + Z.of_nat (length (issuedHere c tx))
  /\ issuedHere c tx = seqZ (nextResultId (storage c)) (Z.of_nat (length (issuedHere c tx)))
  /\ resultIds (logs c') = resultIds (logs c) ++ issuedHere c tx
  /\ (forall id,
        id < nextResultId (storage c) ->
        getEncryptedResultScore c' id = getEncryptedResultScore c id)
  /\ (forall id,
        In id (issuedHere c tx) -> getEncryptedResultScore c' id <> 0).
Proof.
  unfold issuedHere, resultIds, getEncryptedResultScore.
  destruct (execute_outcome c tx)
    as [e E|ext proof rh cid pub score c' Hcall E Hfrom Hinit _ _ Hnext _ Hres _ _ _ Hlogs
       |b c' Hcall E _ _ Hnext _ Hres _ _ _ Hlogs|cid v c' Hcall E Hst _ Hlogs];
    rewrite E; simpl.
  - rewrite seqZ_nil, app_nil_r by done. repeat apply conj; auto; try lia; by intros ? [].
  - rewrite Hnext, Hres, Hlogs, flat_map_app. simpl.
    rewrite seqZ_cons, seqZ_nil by done.
    repeat apply conj; auto.
    + intros id Hid. rewrite lookup_insert_ne by lia. done.
    + intros id [<-|[]]. by rewrite lookup_insert_eq.
  - rewrite Hnext, Hres, Hlogs, flat_map_app, seqZ_nil by done. simpl.
    rewrite app_nil_r. repeat apply conj; auto; try lia; by intros ? [].
  - rewrite Hst, Hlogs, flat_map_app, seqZ_nil by done. simpl.
    rewrite app_nil_r. repeat apply conj; auto; try lia; by intros ? [].
Qed.

Lemma run_issued txs :
  forall c,
    nextResultId (storage (run c txs))
    = nextResultId (storage c) + Z.of_nat (length (issued c txs))
    /\ issued c txs = seqZ (nextResultId (storage c)) (Z.of_nat (length (issued c txs)))
    /\ resultIds (logs (run c txs)) = resultIds (logs c) ++ issued c txs
    /\ (forall id,
          id < nextResultId (storage c) ->
          getEncryptedResultScore (run c txs) id = getEncryptedResultScore c id)
    /\ (forall id,
          In id (issued c txs) -> getEncryptedResultScore (run c txs) id <> 0).
Proof.
  induction txs as [|tx txs IH]; intros c.
  - simpl. rewrite seqZ_nil, app_nil_r by done.
    repeat apply conj; auto; try lia; by intros ? [].
  - rewrite LedgerFacts.run_cons. simpl issued.
    destruct (IH (fst (execute c tx))) as (-> & Hseq & -> & Hkeep & Hnew).
    destruct (execute_issued c tx) as (Hnext & Hseq' & -> & Hkeep' & Hnew').
    rewrite length_app, Nat2Z.inj_add, Hnext.
    repeat apply conj.
    + lia.
    + rewrite seqZ_app by lia. rewrite <- Hseq'. f_equal.
      rewrite Hseq at 1. by rewrite Hnext.
    + by rewrite app_assoc.
    + intros id Hid. rewrite Hkeep by lia. by apply Hkeep'.
    + intros id [Hid|Hid]%in_app_or; [|by apply Hnew].
      rewrite Hkeep; [by apply Hnew'|].
      rewrite Hseq' in Hid. apply list_elem_of_In, elem_of_seqZ in Hid. lia.
Qed.

(** *** Claims and the event log *)

Lemma badgeCondition_known b s now x : badgeCondition b s now = Ok x -> 1 <= b <= 6.
Proof.
  unfold badgeCondition.
  repeat match goal with
         | |- context [?x =? ?y] => destruct (Z.eqb_spec x y); [lia|]
         end.
  discriminate.
Qed.

(** Every claim has its one event, and only the six badges are ever claimed. *)
Definition recorded (c : Chain) : Prop :=
  forall b p,
    length (claimTimes p b (logs c)) = (if isClaimed c b p then 1 else 0)%nat
    /\ (isClaimed c b p = true -> 1 <= b <= 6).

Lemma recorded_deploy : recorded deploy.
Proof. intros b p. unfold isClaimed. simpl. by rewrite lookup_empty. Qed.

Lemma recorded_execute c tx : recorded c -> recorded (fst (execute c tx)).
Proof.
  intros Hc b p. specialize (Hc b p). unfold claimTimes, isClaimed in *.
  destruct (execute_outcome c tx)
    as [e E|ext proof rh cid pub score c' Hcall E _ _ _ _ _ _ _ _ Hb _ Hlogs
       |b' c' Hcall E Hfree Hcond _ _ _ _ Hb _ Hlogs|cid v c' Hcall E Hst _ Hlogs];
    rewrite E; simpl; [done| | |].
  - rewrite Hb, Hlogs, flat_map_app, length_app. simpl. by rewrite Nat.add_0_r.
  - rewrite Hb, Hlogs, flat_map_app, length_app. simpl.
    destruct (decide ((b', sender (txEnv tx)) = (b, p))) as [[= -> <-]|Hne].
    + rewrite lookup_insert_eq, !Z.eqb_refl. simpl.
      unfold isClaimed in Hfree. rewrite Hfree in Hc. destruct Hc as [-> _].
      split; [done|]. intros _. by eapply badgeCondition_known.
    + rewrite lookup_insert_ne by done.
      destruct (Z.eqb_spec (sender (txEnv tx)) p), (Z.eqb_spec b' b);
        simpl; rewrite ?Nat.add_0_r; try done.
      congruence.
  - rewrite Hst, Hlogs, flat_map_app, length_app. simpl. by rewrite Nat.add_0_r.
Qed.

Lemma recorded_run txs : forall c, recorded c -> recorded (run c txs).
Proof.
  induction txs as [|tx txs IH]; intros c Hc; [done|].
  rewrite LedgerFacts.run_cons. by apply IH, recorded_execute.
Qed.

(** *** The access-control list *)

(** With [T] the address of the contract: the current total of every player
    and the score of every logged result are open to their player and to the
    contract, and nobody else was ever put on the list. *)
Definition granted (T : Z) (c : Chain) : Prop :=
  (forall p,
      getEncryptedTotalScore c p <> 0 ->
      In (getEncryptedTotalScore c p, p) (acl c)
      /\ In (getEncryptedTotalScore c p, T) (acl c))
  /\ (forall id q rh cid pub t,
        In (ResultSubmitted id q rh cid pub t) (logs c) ->
        id < nextResultId (storage c)
        /\ In (getEncryptedResultScore c id, q) (acl c)
        /\ In (getEncryptedResultScore c id, T) (acl c))
  /\ (forall h a, In (h, a) (acl c) -> a = T \/ submissionsOf a (logs c) <> []).

Lemma granted_deploy T : granted T deploy.
Proof.
  repeat apply conj.
  - intros p. unfold getEncryptedTotalScore. simpl. by rewrite lookup_empty.
  - by intros id q rh cid pub t [].
  - by intros h a [].
Qed.

Lemma granted_execute T c tx :
  this (txEnv tx) = T -> granted T c -> granted T (fst (execute c tx)).
Proof.
  intros HT (Htot & Hres & Hacl).
  destruct (execute_outcome c tx)
    as [e E|ext proof rh cid pub score c' Hcall E _ _ _ _ Hnext Etot Eres _ _ Eacl Hlogs
       |b' c' Hcall E _ _ Hnext Etot Eres _ _ Eacl Hlogs|cid v c' Hcall E Hst Eacl Hlogs];
    rewrite E; simpl; [done| | |].
  - rewrite HT in *. repeat apply conj.
    + intros p Hp. rewrite Eacl.
      destruct (decide (sender (txEnv tx) = p)) as [<-|Hne].
      * split; apply in_or_app; right; simpl; auto.
      * unfold getEncryptedTotalScore in *. rewrite Etot in *.
        rewrite lookup_insert_ne in * by done.
        destruct (Htot p Hp). split; apply in_or_app; by left.
    + intros id q rh' cid' pub' t. rewrite Hlogs, Eacl, Hnext.
      unfold getEncryptedResultScore in *. rewrite Eres.
      intros [Hin|[[= <- <- _ _ _ _]|[]]]%in_app_or.
      * destruct (Hres _ _ _ _ _ _ Hin) as (Hlt & ? & ?).
        rewrite lookup_insert_ne by lia.
        repeat apply conj; [lia|apply in_or_app; by left..].
      * rewrite lookup_insert_eq. simpl.
        repeat apply conj; [lia|apply in_or_app; right; simpl; auto..].
    + intros h a. rewrite Eacl, Hlogs. unfold submissionsOf in *.
      rewrite flat_map_app. simpl.
      intros [Hin|Hin]%in_app_or.
      * destruct (Hacl _ _ Hin) as [->|Hne]; [by left|right].
        intros [? _]%app_eq_nil. done.
      * assert (a = T \/ a = sender (txEnv tx)) as [-> | ->].
        { simpl in Hin. destruct Hin as [[= _ <-]|[[= _ <-]|[[= _ <-]|[[= _ <-]|[]]]]]; auto. }
        -- by left.
        -- right. rewrite Z.eqb_refl. intros [_ [=]]%app_eq_nil.
  - unfold granted, getEncryptedTotalScore, getEncryptedResultScore in *.
    rewrite Etot, Eres, Eacl, Hnext, Hlogs. repeat apply conj; [done| |].
    + intros id q rh' cid' pub' t [Hin|[Hin|[]]]%in_app_or; [eauto|discriminate].
    + intros h a Hin. unfold submissionsOf in *. rewrite flat_map_app. simpl.
      rewrite app_nil_r. eauto.
  - unfold granted, getEncryptedTotalScore, getEncryptedResultScore in *.
    rewrite Hst, Eacl, Hlogs. repeat apply conj; [done| |].
    + intros id q rh' cid' pub' t [Hin|[Hin|[]]]%in_app_or; [eauto|discriminate].
    + intros h a Hin. unfold submissionsOf in *. rewrite flat_map_app. simpl.
      rewrite app_nil_r. eauto.
Qed.

Lemma granted_run T txs :
  forall c,
    Forall (fun tx => this (txEnv tx) = T) txs -> granted T c -> granted T (run c txs).
Proof.
  induction txs as [|tx txs IH]; intros c Hthis Hc; [done|].
  inversion Hthis; subst. rewrite LedgerFacts.run_cons.
  by apply IH, granted_execute.
Qed.

(** *** One player against another *)

Lemma execute_other c tx p :
  sender (txEnv tx) <> p ->
  let c' := fst (execute c tx) in
  getEncryptedTotalScore c' p = getEncryptedTotalScore c p
  /\ getPlayerStats c' p = getPlayerStats c p
  /\ forall b, isClaimed c' b p = isClaimed c b p.
Proof.
  intros Hp. unfold getEncryptedTotalScore, getPlayerStats, isClaimed.
  destruct (execute_outcome c tx)
    as [e E|ext proof rh cid pub score c' Hcall E _ _ _ _ _ Etot _ Estats Hb _ _
       |b' c' Hcall E _ _ _ Etot _ Estats Hb _ _|cid v c' Hcall E Hst _ _];
    rewrite E; simpl; [done| | |].
  - rewrite Etot, Estats, Hb, !lookup_insert_ne by done. done.
  - rewrite Etot, Estats, Hb. repeat apply conj; try done.
    intros b. rewrite lookup_insert_ne; [done|congruence].
  - by rewrite Hst.
Qed.

(** After a run from deployment exactly the ids handed out have a score. *)
Lemma issued_have_scores txs id :
  getEncryptedResultScore (run deploy txs) id <> 0
  <-> 1 <= id <= Z.of_nat (length (issued deploy txs)).
Proof.
  destruct (run_issued txs deploy) as (Hnext & Hseq & _ & Hkeep & Hnew).
  simpl in *. split.
  - intros Hid.
    destruct (Z_lt_le_dec id 1) as [Hlo|Hlo].
    + rewrite Hkeep in Hid by done.
      unfold getEncryptedResultScore in Hid. simpl in Hid.
      by rewrite lookup_empty in Hid.
    + split; [done|].
      destruct (Z_lt_le_dec (Z.of_nat (length (issued deploy txs))) id) as [Hhi|Hhi]; [|done].
      exfalso. apply Hid.
      assert (Hrest : forall txs' c0,
                 nextResultId (storage c0) <= id ->
                 getEncryptedResultScore c0 id = 0 ->
                 nextResultId (storage (run c0 txs')) <= id ->
                 getEncryptedResultScore (run c0 txs') id = 0).
      { clear. induction txs' as [|tx txs' IH]; intros c0 Hle H0 Hle'; [done|].
        rewrite LedgerFacts.run_cons in *.
        destruct (run_issued txs' (fst (execute c0 tx))) as (Hn' & _).
        apply IH; [lia| |done].
        unfold getEncryptedResultScore in *.
        destruct (execute_outcome c0 tx)
          as [e E|ext proof rh cid pub score c' Hcall E _ _ _ _ Hnx _ Eres _ _ _ _
             |b' c' Hcall E _ _ _ _ Eres _ _ _ _|cid v c' Hcall E Hst _ _];
          rewrite E in *; simpl in *; [done| | |].
        - rewrite Eres, lookup_insert_ne; [done|lia].
        - by rewrite Eres.
        - by rewrite Hst. }
      apply Hrest; [simpl; lia| |lia].
      unfold getEncryptedResultScore. simpl. by rewrite lookup_empty.
  - intros Hid. apply Hnew. rewrite Hseq.
    apply list_elem_of_In, elem_of_seqZ. lia.
Qed.

Lemma published_length p txs :
  forall c, (length (published p c txs) <= length txs)%nat.
Proof.
  induction txs as [|tx txs IH]; intros c; simpl; [done|].
  rewrite length_app. specialize (IH (fst (execute c tx))).
  assert (length (publishedHere p c tx) <= 1)%nat; [|lia].
  unfold publishedHere. destruct (txCall tx), (snd (execute c tx)); simpl; try lia.
  destruct (_ =? _); simpl; lia.
Qed.

(** *** The high-score badge *)

(** Badge 3 is only ever claimed with a best public score of 20 or more. *)
Definition earned (c : Chain) : Prop :=
  forall p, isClaimed c 3 p = true -> 20 <= maxSinglePublicScore (getPlayerStats c p).

Lemma earned_deploy : earned deploy.
Proof. intros p. unfold isClaimed. simpl. by rewrite lookup_empty. Qed.

Lemma earned_execute c tx : earned c -> earned (fst (execute c tx)).
Proof.
  intros Hc p. specialize (Hc p). unfold isClaimed, getPlayerStats in *.
  destruct (execute_outcome c tx)
    as [e E|ext proof rh cid pub score c' Hcall E _ _ _ _ _ _ _ Hstats Hb _ _
       |b' c' Hcall E Hfree Hcond _ _ _ Hstats Hb _ _|cid v c' Hcall E Hst _ _];
    rewrite E; simpl; [done| | |].
  - rewrite Hb, Hstats. intros Hp%Hc.
    destruct (decide (sender (txEnv tx) = p)) as [->|Hne].
    + rewrite lookup_insert_eq. simpl. unfold getPlayerStats.
      destruct (_ <? _) eqn:Elt; [|done]. apply Z.ltb_lt in Elt. lia.
    + by rewrite lookup_insert_ne.
  - rewrite Hb, Hstats.
    destruct (decide ((b', sender (txEnv tx)) = (3, p))) as [[= -> <-]|Hne].
    + intros _. unfold badgeCondition, getPlayerStats in Hcond. simpl in Hcond.
      injection Hcond as Hcond. by apply Z.leb_le in Hcond.
    + by rewrite lookup_insert_ne.
  - by rewrite Hst.
Qed.

Lemma earned_run txs : forall c, earned c -> earned (run c txs).
Proof.
  induction txs as [|tx txs IH]; intros c Hc; [done|].
  rewrite LedgerFacts.run_cons. by apply IH, earned_execute.
Qed.

(** Without a public score of 20 in the player's submissions, badge 3 stays
    unclaimed and a claim is refused. *)
Lemma badge_three_out_of_reach txs env :
  maxZ (map fst (published (sender env) deploy txs)) < 20 ->
  isClaimed (run deploy txs) 3 (sender env) = false
  /\ claimBadge env 3 (run deploy txs) = Revert ConditionsNotMet.
Proof.
  intros Hbest.
  destruct (run_published (sender env) txs deploy) as (Hs & _).
  assert (Hmax : maxSinglePublicScore (getPlayerStats (run deploy txs) (sender env)) < 20).
  { rewrite Hs, replay_max.
    - unfold getPlayerStats. simpl. rewrite lookup_empty. simpl. lia.
    - unfold getPlayerStats. simpl. by rewrite lookup_empty. }
  assert (Hfree : isClaimed (run deploy txs) 3 (sender env) = false).
  { destruct (isClaimed (run deploy txs) 3 (sender env)) eqn:E; [|done].
    apply (earned_run txs deploy earned_deploy) in E. lia. }
  split; [done|].
  unfold claimBadge. unfold isClaimed in Hfree. rewrite Hfree.
  unfold getPlayerStats in Hmax. unfold badgeCondition. simpl.
  by destruct (Z.leb_spec 20
                 (maxSinglePublicScore
                    (default noStats (playerStats (storage (run deploy txs)) !! sender env))));
    [lia|].
Qed.

(** *** The properties *)

(** The public statistics of a player are those of the player's accepted
    submissions, and the [ResultSubmitted] events list exactly these: with
    (s1, t1) .. (sn, tn) the public scores and block times of the accepted
    submissions, in order, [numGames] is n, [totalPublicScore] is the sum of
    the si modulo 2^256, [maxSinglePublicScore] their maximum (0 without a
    submission) and [lastPlayedAt] is tn (0 without a submission); every si
    fits 32 bits. *)
Theorem public_stats_follow_submissions (txs : list Tx) (p : Z) :
  let s := getPlayerStats (run deploy txs) p in
  let l := published p deploy txs in
  Forall (fun x => 0 <= fst x <= MAX_UINT32) l
  /\ submissionsOf p (logs (run deploy txs)) = l
  /\ numGames s = Z.of_nat (length l)
  /\ totalPublicScore s = sumZ (map fst l) mod 2 ^ 256
  /\ (sumZ (map fst l) <= MAX_UINT256 -> totalPublicScore s = sumZ (map fst l))
  /\ maxSinglePublicScore s = maxZ (map fst l)
  /\ lastPlayedAt s = List.last (map snd l) 0.
Proof.
  intros s l.
  destruct (run_published p txs deploy) as (Hs & Hrange & Hlen & Hlogs).
  assert (Hno : getPlayerStats deploy p = noStats).
  { unfold getPlayerStats. simpl. by rewrite lookup_empty. }
  rewrite Hno in Hs. fold l in Hs, Hrange, Hlen, Hlogs. fold s in Hs.
  assert (Htotal : totalPublicScore s = sumZ (map fst l) mod 2 ^ 256).
  { rewrite Hs, replay_total by (by vm_compute). done. }
  repeat apply conj; auto.
  - subst s l. rewrite LedgerFacts.run_numGames by apply LedgerFacts.counted_deploy.
    rewrite Hno, Hlen. simpl. lia.
  - intros Hfits. rewrite Htotal. apply Z.mod_small. split; [|unfold MAX_UINT256 in *; lia].
    clear -Hrange. induction Hrange as [|x l' Hx _ IH]; simpl; [done|].
    unfold sumZ in *. simpl. lia.
  - rewrite Hs, replay_max by done. simpl.
    pose proof (maxZ_nonneg (map fst l)). lia.
  - by rewrite Hs, replay_last.
Qed.


(** Result ids are handed out densely from 1: after any run on a fresh
    ledger that accepted n submissions, the ids returned were 1, 2, .., n in
    this order, the [ResultSubmitted] events carry the same ids in the same
    order, [nextResultId] is n + 1, and [getEncryptedResultScore] returns an
    initialised handle exactly for the ids 1..n (the zero handle for every
    other id). *)
Theorem result_ids_are_sequential (txs : list Tx) :
  let c := run deploy txs in
  let n := Z.of_nat (length (issued deploy txs)) in
  nextResultId (storage c) = 1 + n
  /\ issued deploy txs = seqZ 1 n
  /\ resultIds (logs c) = seqZ 1 n
  /\ (forall id, getEncryptedResultScore c id <> 0 <-> 1 <= id <= n).
Proof.
  intros c n.
  destruct (run_issued txs deploy) as (Hnext & Hseq & Hlogs & _).
  fold c in Hnext, Hlogs. fold n in Hnext, Hseq. simpl in *.
  repeat apply conj; auto.
  - by rewrite Hlogs, <- Hseq.
  - intros id. apply issued_have_scores.
Qed.

(** The encrypted score stored under an issued result id is final: no later
    transaction, accepted or not, changes what [getEncryptedResultScore]
    returns for an id below [nextResultId]. *)
Theorem result_score_is_final (c : Chain) (txs : list Tx) (id : Z) :
  id < nextResultId (storage c) ->
  getEncryptedResultScore (run c txs) id = getEncryptedResultScore c id.
Proof.
  revert c. induction txs as [|tx txs IH]; intros c Hid; [done|].
  rewrite LedgerFacts.run_cons.
  destruct (execute_issued c tx) as (Hnext & _ & _ & Hkeep & _).
  rewrite IH by lia. by apply Hkeep.
Qed.

(** Claims and [BadgeClaimed] events match one to one: after any run on a
    fresh ledger the log holds exactly one [BadgeClaimed] event for each
    (player, badge) whose claim is set and none for any other pair; only the
    badges 1..6 are ever claimed, and a claim of any other id reverts with
    "Unknown badge". *)
Theorem claims_match_the_log (txs : list Tx) (p b : Z) :
  let c := run deploy txs in
  length (claimTimes p b (logs c)) = (if isClaimed c b p then 1 else 0)%nat
  /\ (isClaimed c b p = true -> 1 <= b <= 6)
  /\ (forall env,
        sender env = p -> ~ 1 <= b <= 6 -> claimBadge env b c = Revert UnknownBadge).
Proof.
  intros c.
  destruct (recorded_run txs deploy recorded_deploy b p) as [Hlen Hknown].
  fold c in Hlen, Hknown. repeat apply conj; auto.
  intros env <- Hb. unfold claimBadge.
  unfold isClaimed in Hknown.
  destruct (default false _); [by destruct Hb; apply Hknown|].
  unfold badgeCondition.
  repeat match goal with
         | |- context [?x =? ?y] => destruct (Z.eqb_spec x y); [lia|]
         end.
  done.
Qed.

(** Decryption rights follow ownership: when every transaction goes to the
    same contract address, after any run on a fresh ledger the current
    encrypted total of every player is open to that player and to the
    contract, the encrypted score of every logged result is open to the player
    who submitted it and to the contract, and every account on the
    access-control list is the contract or a player with an accepted
    submission. *)
Theorem decryption_rights_follow_ownership (T : Z) (txs : list Tx) :
  Forall (fun tx => this (txEnv tx) = T) txs ->
  let c := run deploy txs in
  (forall p,
      getEncryptedTotalScore c p <> 0 ->
      In (getEncryptedTotalScore c p, p) (acl c)
      /\ In (getEncryptedTotalScore c p, T) (acl c))
  /\ (forall id q rh cid pub t,
        In (ResultSubmitted id q rh cid pub t) (logs c) ->
        In (getEncryptedResultScore c id, q) (acl c)
        /\ In (getEncryptedResultScore c id, T) (acl c))
  /\ (forall h a, In (h, a) (acl c) -> a = T \/ published a deploy txs <> []).
Proof.
  intros Hthis c.
  destruct (granted_run T txs deploy Hthis (granted_deploy T)) as (Htot & Hres & Hacl).
  fold c in Htot, Hres, Hacl. repeat apply conj; auto.
  - intros id q rh cid pub t Hin. by destruct (Hres _ _ _ _ _ _ Hin) as (_ & ? & ?).
  - intros h a Hin. destruct (Hacl _ _ Hin) as [->|Hsub]; [by left|right].
    destruct (run_published a txs deploy) as (_ & _ & _ & Hlogs).
    fold c in Hlogs. by rewrite Hlogs in Hsub.
Qed.

(** Nobody can touch another player's record: a run in which no transaction
    is sent by the player leaves the player's encrypted total, public
    statistics and badge claims as they were. *)
Theorem other_senders_change_nothing (c : Chain) (txs : list Tx) (p : Z) :
  Forall (fun tx => sender (txEnv tx) <> p) txs ->
  getEncryptedTotalScore (run c txs) p = getEncryptedTotalScore c p
  /\ getPlayerStats (run c txs) p = getPlayerStats c p
  /\ forall b, isClaimed (run c txs) b p = isClaimed c b p.
Proof.
  revert c. induction txs as [|tx txs IH]; intros c Hp; [done|].
  inversion Hp as [|? ? Htx Hrest]; subst.
  rewrite LedgerFacts.run_cons.
  destruct (IH (fst (execute c tx)) Hrest) as (-> & -> & Hb).
  destruct (execute_other c tx p Htx) as (-> & -> & Hb').
  repeat apply conj; auto. intros b. by rewrite Hb, Hb'.
Qed.

(** Badge 3 takes a high score: after any run on a fresh ledger, while the
    best public score among the player's accepted submissions is below 20 the
    player's claim of badge 3 is unset and [claimBadge(3)] reverts with
    "Conditions not met"; once it is 20 or more, [claimBadge(3)] succeeds for
    a player who has not claimed it. *)
Theorem high_score_badge_takes_a_high_score (txs : list Tx) (env : Env) :
  let c := run deploy txs in
  let best := maxZ (map fst (published (sender env) deploy txs)) in
  (best < 20 ->
   isClaimed c 3 (sender env) = false /\ claimBadge env 3 c = Revert ConditionsNotMet)
  /\ (20 <= best ->
      isClaimed c 3 (sender env) = false ->
      exists c', claimBadge env 3 c = Ok (tt, c') /\ isClaimed c' 3 (sender env) = true).
Proof.
  intros c best. split; [apply badge_three_out_of_reach|].
  intros Hbest Hfree.
  destruct (run_published (sender env) txs deploy) as (Hs & _). fold c in Hs.
  unfold claimBadge. unfold isClaimed in Hfree. rewrite Hfree.
  fold (getPlayerStats c (sender env)). rewrite Hs, <- Hs.
  assert (Hmax : 20 <= maxSinglePublicScore (getPlayerStats c (sender env))).
  { rewrite Hs, replay_max.
    - unfold getPlayerStats. simpl. rewrite lookup_empty. simpl. fold best. lia.
    - unfold getPlayerStats. simpl. by rewrite lookup_empty. }
  unfold badgeCondition. simpl.
  destruct (Z.leb_spec 20 (maxSinglePublicScore (getPlayerStats c (sender env)))); [|lia].
  eexists. split; [done|]. unfold isClaimed. simpl. by rewrite lookup_insert_eq.
Qed.

End WithFHE.

(** *** The properties at work, on the reference implementation *)

(** Result 1 keeps its encrypted score through a submission of another
    player and a badge claim. *)
Lemma result_score_is_final_witness :
  let c := @run LedgerFacts.plainFHE deploy [LedgerFacts.submitTx 7 1000 5] in
  getEncryptedResultScore
    (@run LedgerFacts.plainFHE c
       [LedgerFacts.submitTx 8 1001 9; LedgerFacts.claimTx 7 1002 1]) 1
  = getEncryptedResultScore c 1.
Proof.
  intros c. apply (@result_score_is_final LedgerFacts.plainFHE c). by vm_compute.
Defined.

(** After submissions of players 7 and 8 to the contract at address 99, the
    total of player 7 is open to player 7 and to the contract. *)
Lemma decryption_rights_follow_ownership_witness :
  let txs := [LedgerFacts.submitTx 7 1000 5; LedgerFacts.submitTx 8 1001 9] in
  let c := @run LedgerFacts.plainFHE deploy txs in
  In (getEncryptedTotalScore c 7, 7) (acl c)
  /\ In (getEncryptedTotalScore c 7, 99) (acl c).
Proof.
  intros txs c.
  apply (@decryption_rights_follow_ownership LedgerFacts.plainFHE 99 txs).
  - by repeat constructor.
  - by vm_compute.
Defined.

(** A submission and a claim of player 8 leave the record of player 7 as it
    was. *)
Lemma other_senders_change_nothing_witness :
  let c := @run LedgerFacts.plainFHE deploy [LedgerFacts.submitTx 7 1000 5] in
  let c' :=
    @run LedgerFacts.plainFHE c
      [LedgerFacts.submitTx 8 1001 9; LedgerFacts.claimTx 8 1002 1] in
  getEncryptedTotalScore c' 7 = getEncryptedTotalScore c 7
  /\ getPlayerStats c' 7 = getPlayerStats c 7
  /\ forall b, isClaimed c' b 7 = isClaimed c b 7.
Proof.
  intros c c'.
  apply (@other_senders_change_nothing LedgerFacts.plainFHE c
           [LedgerFacts.submitTx 8 1001 9; LedgerFacts.claimTx 8 1002 1] 7).
  by repeat constructor.
Defined.

End LedgerHistory.

(** ** Part IV: the flags of the hook, and what it reads from the contract

    [useGeoChain] hands its pages the flags [canRefresh], [canDecrypt] and
    [canSubmit]; the pages enable their buttons by them.  The flags are
    computed in a render from the state cells, the callbacks look at the refs;
    state cells and refs agree in every state the hook reaches.  What is left
    between a flag and its callback: [canSubmit] asks for a finite score and
    leaves the refresh lock out, and [refreshEncryptedTotal] may be the
    callback of an older render. *)

Module CoordinatorViews.

Import Coordinator.

Open Scope string_scope.
Open Scope list_scope.
Open Scope Z_scope.

(** [typeof handle === "string" && !/^0x0+$/i.test(handle)] *)
Definition hasHandle (h : option string) : bool :=
  match h with
  | Some s => negb (isZeroHandle s)
  | None => false
  end.

Section Flags.

Variable GeoChainAddresses : Z -> option AddressEntry.

Local Abbreviation contractOf := (Coordinator.contractOf GeoChainAddresses).
Local Abbreviation refreshEncryptedTotal := (Coordinator.refreshEncryptedTotal GeoChainAddresses).
Local Abbreviation decryptAfterWait := (Coordinator.decryptAfterWait GeoChainAddresses).
Local Abbreviation decryptEncryptedTotal := (Coordinator.decryptEncryptedTotal GeoChainAddresses).
Local Abbreviation decryptHandle := (Coordinator.decryptHandle GeoChainAddresses).
Local Abbreviation submitCore := (Coordinator.submitCore GeoChainAddresses).
Local Abbreviation rendered := (Coordinator.rendered GeoChainAddresses).
Local Abbreviation refreshDeps := (Coordinator.refreshDeps GeoChainAddresses).
Local Abbreviation memoised := (Coordinator.memoised GeoChainAddresses).
Local Abbreviation step := (Coordinator.step GeoChainAddresses).
Local Abbreviation run := (Coordinator.run GeoChainAddresses).

(** The flags, in the latest render: the value of each [&&] chain as the
    condition the pages use it for. *)
Definition canRefresh (w : World) : bool :=
  let contract := contractOf (chainId (current w)) in
  truthy (address contract)
  && defined (ethersReadonlyProvider (current w))
  && defined (ethersSigner (current w))
  && negb (isRefreshing (hook w)).

Definition canDecrypt (w : World) : bool :=
  let contract := contractOf (chainId (current w)) in
  truthy (address contract)
  && instance (current w)
  && defined (ethersSigner (current w))
  && negb (isRefreshing (hook w))
  && negb (isDecrypting (hook w))
  && hasHandle (handle (hook w))
  && negb (defined (clear (hook w))).

Definition canSubmit (form : Payload) (w : World) : bool :=
  let contract := contractOf (chainId (current w)) in
  truthy (address contract)
  && instance (current w)
  && defined (ethersSigner (current w))
  && negb (isSubmitting (hook w))
  && truthy (Some (resultHash form))
  && truthy (Some (resultCID form))
  && isFinite (score form).

(** *** The flags against the guards *)

Lemma reached_mirrors p turns :
  let w := run (start p) turns in
  isRefreshing (hook w) = isRefreshingRef (hook w)
  /\ isDecrypting (hook w) = isDecryptingRef (hook w)
  /\ isSubmitting (hook w) = isSubmittingRef (hook w).
Proof.
  intros w.
  by destruct (CoordinatorFacts.consistent_run GeoChainAddresses turns (start p)
                 (CoordinatorFacts.consistent_start p)).
Qed.

Lemma not_extended {A} (l : list A) x : l <> l ++ [x].
Proof. intros E. by apply CoordinatorFacts.app_eq_self in E. Qed.

(** The decrypt button is enabled exactly when a decrypt would start: in every
    state the hook reaches, with no cleartext yet and a handle that is not
    the empty string, [canDecrypt] holds if and only if
    [decryptEncryptedTotal], called from the latest render, takes the decrypt
    lock and asks for the decryption capability in the same turn. *)
Theorem canDecrypt_agrees_with_decrypt p turns force now :
  let w := run (start p) turns in
  clear (hook w) = None ->
  handle (hook w) <> Some "" ->
  canDecrypt w = true
  <-> exists a s h,
        decryptEncryptedTotal (latest w) force now w
        = spawn (DecryptSign (chainId (current w)) a h s)
            (observe (CapabilityRequested a s force)
               (withHook (fun k =>
                  setMessage MsgDecryptStarting
                    (setIsDecrypting true (setIsDecryptingRef true k))) w)).
Proof.
  intros w Hclear Hhandle.
  destruct (reached_mirrors p turns) as (Hr & Hd & _). fold w in Hr, Hd.
  unfold canDecrypt, Coordinator.decryptEncryptedTotal, Coordinator.decryptAfterWait, latest.
  simpl. rewrite Hr, Hd, Hclear. simpl.
  assert (Htrace : forall w1 w2 : World, w1 = w2 -> trace w1 = trace w2) by congruence.
  destruct (isRefreshingRef (hook w)).
  { rewrite !andb_false_r. simpl. split; [done|].
    intros (a & s & h & E). apply Htrace in E. simpl in E. by apply not_extended in E. }
  destruct (isDecryptingRef (hook w)).
  { rewrite !andb_false_r. simpl. split; [done|].
    intros (a & s & h & E). apply Htrace in E. simpl in E. by apply not_extended in E. }
  destruct (address (contractOf (chainId (current w)))) as [a|] eqn:Ha; simpl.
  2:{ split; [done|].
      intros (a & s & h & E). apply Htrace in E. simpl in E. by apply not_extended in E. }
  destruct (ethersSigner (current w)) as [s|]; simpl.
  2:{ rewrite !andb_false_r. simpl. split; [done|].
      intros (a' & s & h & E). apply Htrace in E. simpl in E. by apply not_extended in E. }
  destruct (negb (a =? "")%string); simpl.
  2:{ split; [done|].
      intros (a' & s' & h & E). apply Htrace in E. simpl in E. by apply not_extended in E. }
  destruct (instance (current w)); simpl.
  2:{ split; [done|].
      intros (a' & s' & h & E). apply Htrace in E. simpl in E. by apply not_extended in E. }
  destruct (handle (hook w)) as [h|]; simpl.
  2:{ split; [done|].
      intros (a' & s' & h & E). apply Htrace in E. simpl in E. by apply not_extended in E. }
  destruct (String.eqb_spec h ""); [by subst|]. simpl.
  destruct (isZeroHandle h); simpl.
  { split; [done|].
    intros (a' & s' & h' & E). apply Htrace in E. simpl in E. by apply not_extended in E. }
  split; [|done]. intros _. by exists a, s, h.
Qed.

(** The same form with another number as its score. *)
Definition withScore (v : Score) (form : Payload) : Payload :=
  {| score := v; scorePublic := scorePublic form;
     resultCID := resultCID form; resultHash := resultHash form |}.

(** The submit flag against the guards of [submitCore], which differ in two
    places.  In every state the hook reaches, for a form with a result hash
    and a CID: [canSubmit] holds with no refresh in flight exactly when the
    score is finite and [submitCore], called from the latest render, goes
    ahead (it rejects nothing); with [canSubmit] and a refresh in flight it
    throws "busy"; and with a score that is not finite [canSubmit] is false,
    while [submitCore] never looks at the score: it goes ahead for one score
    exactly when it does for any other. *)
Theorem canSubmit_agrees_with_submit p turns form :
  let w := run (start p) turns in
  resultHash form <> "" ->
  resultCID form <> "" ->
  (canSubmit form w && negb (isRefreshing (hook w)) = true
   <-> isFinite (score form) = true
       /\ trace (submitCore (latest w) form w) = trace w)
  /\ (canSubmit form w = true ->
      isRefreshing (hook w) = true ->
      submitCore (latest w) form w = observe (SubmitRejected ErrBusy) w)
  /\ (isFinite (score form) = false -> canSubmit form w = false)
  /\ (forall v,
        trace (submitCore (latest w) (withScore v form) w) = trace w
        <-> trace (submitCore (latest w) form w) = trace w).
Proof.
  intros w Hhash Hcid.
  destruct (reached_mirrors p turns) as (Hr & _ & Hs). fold w in Hr, Hs.
  assert (Hscore : forall v,
             trace (submitCore (latest w) (withScore v form) w) = trace w
             <-> trace (submitCore (latest w) form w) = trace w).
  { intros v. unfold Coordinator.submitCore. by repeat case_match. }
  unfold canSubmit. rewrite !CoordinatorFacts.truthy_Some by done. rewrite !andb_true_r.
  split; [|split; [|split; [|exact Hscore]]].
  2:{ intros [Hcan _]%andb_prop Hrefreshing. unfold Coordinator.submitCore.
      rewrite Hr in Hrefreshing. by rewrite Hrefreshing. }
  2:{ intros ->. by rewrite andb_false_r. }
  destruct (isFinite (score form)).
  2:{ rewrite andb_false_r. simpl. split; [done|]. by intros [? _]. }
  rewrite andb_true_r.
  unfold Coordinator.submitCore, latest. simpl. rewrite Hr, Hs.
  assert (Hno : forall o, trace w ++ [o] = trace w <-> False).
  { intros o. split; [|done]. intros E. symmetry in E. by apply not_extended in E. }
  destruct (isRefreshingRef (hook w)); simpl.
  { rewrite andb_false_r. split; [done|]. intros [_ E]. by apply Hno in E. }
  rewrite andb_true_r.
  destruct (isSubmittingRef (hook w)); simpl.
  { rewrite andb_false_r. split; [done|]. intros [_ E]. by apply Hno in E. }
  rewrite andb_true_r.
  destruct (address (contractOf (chainId (current w)))) as [a|] eqn:Ha; simpl.
  2:{ split; [done|]. intros [_ E]. by apply Hno in E. }
  destruct (ethersSigner (current w)) as [s|]; simpl.
  2:{ rewrite !andb_false_r. split; [done|]. intros [_ E]. by apply Hno in E. }
  rewrite andb_true_r.
  destruct (negb (a =? "")%string); simpl.
  2:{ split; [done|]. intros [_ E]. by apply Hno in E. }
  destruct (instance (current w)); simpl; [done|].
  split; [done|]. intros [_ E]. by apply Hno in E.
Qed.

(** *** The memoised refresh *)

(** The [refreshEncryptedTotal] a render returns was created in a render with
    the same [contract.chainId], provider and signer. *)
Definition memoCurrent (w : World) : Prop :=
  refreshDeps (refreshProps (latest w)) = refreshDeps (current w).

Lemma memoised_deps q w : refreshDeps (memoised q w) = refreshDeps q.
Proof.
  unfold Coordinator.memoised. destruct (refreshMemo w) as [q0|]; [|done].
  by case_bool_decide.
Qed.

Lemma refresh_keeps_render r now w :
  refreshMemo (refreshEncryptedTotal r now w) = refreshMemo w
  /\ current (refreshEncryptedTotal r now w) = current w.
Proof. unfold Coordinator.refreshEncryptedTotal. by repeat case_match. Qed.

Lemma decryptAfterWait_keeps_render r force w :
  refreshMemo (decryptAfterWait r force w) = refreshMemo w
  /\ current (decryptAfterWait r force w) = current w.
Proof. unfold Coordinator.decryptAfterWait. by repeat case_match. Qed.

(** Only a render changes the parameters and the memo cell. *)
Lemma step_keeps_render w now ev :
  (forall q, ev <> Rendered q) ->
  refreshMemo (step w (now, ev)) = refreshMemo w
  /\ current (step w (now, ev)) = current w.
Proof.
  intros Hev. unfold Coordinator.step. cbn [fst snd].
  destruct ev; try (by destruct (Hev p)).
  - apply refresh_keeps_render.
  - unfold Coordinator.decryptEncryptedTotal.
    case_match; [done|]. apply decryptAfterWait_keeps_render.
  - unfold Coordinator.decryptHandle. by repeat case_match.
  - unfold Coordinator.submitCore. by repeat case_match.
  - unfold refreshSettled. by repeat case_match.
  - unfold Coordinator.pollTick.
    repeat case_match; try done.
    by destruct (decryptAfterWait_keeps_render r forceSign (settle id w)) as [-> ->].
  - unfold Coordinator.waitTimeout.
    repeat case_match; try done.
    by destruct (decryptAfterWait_keeps_render r forceSign (settle id w)) as [-> ->].
  - unfold decryptSigned, handleSigned, releaseDecrypt. by repeat case_match.
  - unfold decryptAnswered, handleAnswered, releaseDecrypt. by repeat case_match.
  - unfold submitSlept. by repeat case_match.
  - unfold submitEncrypted, submitFailed. by repeat case_match.
  - unfold submitSent, submitFailed. by repeat case_match.
  - unfold Coordinator.submitConfirmed, submitFailed.
    repeat case_match; try done. simpl.
    match goal with
    | |- context [refreshEncryptedTotal ?r0 ?n ?w0] =>
        by destruct (refresh_keeps_render r0 n w0) as [-> ->]
    end.
Qed.

Lemma memoCurrent_step w turn : memoCurrent w -> memoCurrent (step w turn).
Proof.
  intros Hw. destruct turn as [now ev].
  assert (Hcase : (exists q, ev = Rendered q) \/ forall q, ev <> Rendered q)
    by (destruct ev; eauto; by right).
  destruct Hcase as [[q ->]|Hev].
  - unfold memoCurrent, latest, Coordinator.step. cbn [fst snd].
    assert (Hr : refreshMemo (rendered q now w) = Some (memoised q w)
                 /\ current (rendered q now w) = q).
    { unfold Coordinator.rendered.
      repeat case_match; try done.
      match goal with
      | |- context [refreshEncryptedTotal ?r0 ?n ?w0] =>
          by destruct (refresh_keeps_render r0 n w0) as [-> ->]
      end. }
    destruct Hr as [-> ->]. simpl. apply memoised_deps.
  - destruct (step_keeps_render w now ev Hev) as [Hm Hc].
    unfold memoCurrent, latest in *. simpl in *. by rewrite Hm, Hc.
Qed.

Lemma reached_memo p turns : memoCurrent (run (start p) turns).
Proof.
  assert (H : forall w, memoCurrent w -> memoCurrent (run w turns)).
  { induction turns as [|turn turns IH]; intros w Hw; [done|].
    simpl. by apply IH, memoCurrent_step. }
  by apply H.
Qed.

(** The deployment table is keyed by chain id: the [chainId] field of an
    entry, if it has one, is the key the entry is stored under. *)
Definition wellKeyed : Prop :=
  forall c entry,
    GeoChainAddresses c = Some entry ->
    entryChainId entry = None \/ entryChainId entry = Some c.

(** In such a table [contract.chainId] tells the contract. *)
Lemma wellKeyed_contract c1 c2 :
  wellKeyed ->
  contractChainId (contractOf c1) = contractChainId (contractOf c2) ->
  contractOf c1 = contractOf c2.
Proof.
  intros Hkeyed.
  assert (Hid : forall c, c <> 0 -> contractChainId (contractOf (Some c)) = Some c).
  { intros c Hc. unfold Coordinator.contractOf.
    destruct c as [|c|c]; [done| |];
      (destruct (GeoChainAddresses _) as [entry|] eqn:E; [|done]);
      simpl; by destruct (Hkeyed _ _ E) as [-> | ->]. }
  assert (Hnone : forall c, c = None \/ c = Some 0 ->
                            contractOf c = {| address := None; contractChainId := None |}).
  { by intros c [-> | ->]. }
  destruct c1 as [c1|], c2 as [c2|];
    try destruct (decide (c1 = 0)) as [->|H1];
    try destruct (decide (c2 = 0)) as [->|H2];
    rewrite ?(Hnone None), ?(Hnone (Some 0)) by auto;
    rewrite ?Hid by done; simpl; try done.
  by intros [= ->].
Qed.

(** The refresh flag, for a deployment table keyed by chain id: in every
    state the hook reaches, when [canRefresh] holds a refresh called from the
    latest render reads the ledger for the current contract and account --
    unless the same (contract, account) was read less than 2 s ago, and then
    nothing changes; when [canRefresh] does not hold, the call reads
    nothing. *)
Theorem canRefresh_agrees_with_refresh p turns now :
  wellKeyed ->
  let w := run (start p) turns in
  let w' := refreshEncryptedTotal (latest w) now w in
  (canRefresh w = true ->
   exists a s,
     address (contractOf (chainId (current w))) = Some a
     /\ ethersSigner (current w) = Some s
     /\ if (lastRefreshKeyRef (hook w) =? refreshKey a s)%string
           && (now - lastRefreshAtRef (hook w) <? 2000)
        then w' = w
        else
          w' = spawn (RefreshFetch (contractChainId (contractOf (chainId (current w)))) a s)
                 (observe (LedgerRead a (signerAddress s))
                    (withHook (fun k =>
                       setLastRefreshAtRef now
                         (setLastRefreshKeyRef (refreshKey a s)
                            (setIsRefreshing true (setIsRefreshingRef true k)))) w)))
  /\ (canRefresh w = false -> trace w' = trace w).
Proof.
  intros Hkeyed w w'. subst w'.
  destruct (reached_mirrors p turns) as (Hr & _ & _). fold w in Hr.
  pose proof (reached_memo p turns) as Hmemo. fold w in Hmemo.
  unfold memoCurrent, Coordinator.refreshDeps, latest in Hmemo.
  cbn [refreshProps] in Hmemo.
  injection Hmemo as Hchain Hprovider Hsigner.
  apply (wellKeyed_contract _ _ Hkeyed) in Hchain.
  unfold canRefresh, Coordinator.refreshEncryptedTotal, latest. cbn [refreshProps].
  rewrite Hchain, Hprovider, Hsigner, Hr.
  destruct (isRefreshingRef (hook w)) eqn:Href; simpl.
  { rewrite andb_false_r. done. }
  rewrite andb_true_r.
  destruct (address (contractOf (chainId (current w)))) as [a|] eqn:Ha; simpl; [|done].
  destruct (ethersSigner (current w)) as [s|]; simpl.
  2:{ rewrite andb_false_r. done. }
  rewrite andb_true_r.
  destruct (negb (a =? "")%string && defined (ethersReadonlyProvider (current w)));
    simpl; [|done].
  split; [|done]. intros _. exists a, s. repeat apply conj; try done.
  destruct ((lastRefreshKeyRef (hook w) =? refreshKey a s)%string
            && (now - lastRefreshAtRef (hook w) <? 2000)); [|done].
  destruct w as [[] ? ? ? ? ?]. simpl in *. unfold withHook. simpl. by subst.
Qed.

Lemma length_append (a b : string) :
  String.length (a ++ b) = (String.length a + String.length b)%nat.
Proof. induction a as [|c a IH]; simpl; [done|]. by rewrite IH. Qed.

Lemma append_inv_tail (a1 a2 t : string) : (a1 ++ t = a2 ++ t)%string -> a1 = a2.
Proof.
  revert a2. induction a1 as [|c a1 IH]; intros [|d a2] E; simpl in E.
  - done.
  - apply (f_equal String.length) in E. simpl in E. rewrite !length_append in E.
    simpl in E. lia.
  - apply (f_equal String.length) in E. simpl in E. rewrite !length_append in E.
    simpl in E. lia.
  - injection E as -> E. f_equal. by apply IH.
Qed.

Lemma refreshKey_fresh a s : ("" =? refreshKey a s)%string = false.
Proof. unfold refreshKey. by destruct a. Qed.

Lemma refreshKey_differs a1 a2 s :
  a1 <> a2 -> (refreshKey a1 s =? refreshKey a2 s)%string = false.
Proof.
  intros Hne. apply String.eqb_neq. unfold refreshKey. intros E.
  by apply append_inv_tail in E.
Qed.

(** A refresh that finds the lock free and its closure complete: it is
    throttled, or it reads. *)
Lemma refresh_goes r now w a s :
  isRefreshingRef (hook w) = false ->
  address (contractOf (chainId (refreshProps r))) = Some a ->
  a <> "" ->
  ethersSigner (refreshProps r) = Some s ->
  defined (ethersReadonlyProvider (refreshProps r)) = true ->
  refreshEncryptedTotal r now w
  = if (lastRefreshKeyRef (hook w) =? refreshKey a s)%string
       && (now - lastRefreshAtRef (hook w) <? 2000)
    then
      withHook (fun h => setIsRefreshing false (setIsRefreshingRef false h))
        (withHook (fun h => setIsRefreshing true (setIsRefreshingRef true h)) w)
    else
      spawn (RefreshFetch (contractChainId (contractOf (chainId (refreshProps r)))) a s)
        (observe (LedgerRead a (signerAddress s))
           (withHook (fun h => setLastRefreshAtRef now (setLastRefreshKeyRef (refreshKey a s) h))
              (withHook (fun h => setIsRefreshing true (setIsRefreshingRef true h)) w))).
Proof.
  intros Hr Ha Hne Hs Hp. unfold Coordinator.refreshEncryptedTotal.
  rewrite Hr, Ha, Hs, Hp, CoordinatorFacts.truthy_Some by done. done.
Qed.

(** A render that has what a refresh needs, under a key the effect has not
    seen: the effect calls the memoised refresh. *)
Lemma rendered_goes p now w a s :
  address (contractOf (chainId p)) = Some a ->
  a <> "" ->
  ethersSigner p = Some s ->
  defined (ethersReadonlyProvider p) = true ->
  (initRefreshKeyRef (hook w) =? refreshKey a s)%string = false ->
  rendered p now w
  = refreshEncryptedTotal (render GeoChainAddresses p w) now
      (withHook (setInitRefreshKeyRef (refreshKey a s))
         (withHook (setGeoRef (contractOf (chainId p)))
            (withRefreshMemo (memoised p w) (withCurrent p w)))).
Proof.
  intros Ha Hne Hs Hp Hkey. unfold Coordinator.rendered.
  rewrite Ha, Hs, Hp, CoordinatorFacts.truthy_Some by done.
  cbn [andb withHook withRefreshMemo withCurrent hook setGeoRef initRefreshKeyRef].
  by rewrite Hkey.
Qed.

(** Without a table keyed by chain id the refresh reads the old contract.
    The hook is mounted and rendered with parameters [p1], whose contract is
    at [a1]; the first read settles; then a render brings parameters [p2]
    with the same signer, the same provider and the same [contract.chainId],
    but a contract at [a2].  The [refreshEncryptedTotal] of the first render
    is kept, and it is the one the effect calls for the new key: the ledger
    is read at [a1] again (or not at all, within 2 s of the first read), and
    never at [a2]; what the read brings is discarded, and the effect will not
    refresh for this key again. *)
Theorem refresh_reads_the_old_contract (p1 p2 : Parameters) (a1 a2 : string)
    (s : Signer) (t1 t2 t3 t4 : Z) (v v' : RpcValue) :
  address (contractOf (chainId p1)) = Some a1 ->
  address (contractOf (chainId p2)) = Some a2 ->
  a1 <> "" ->
  a2 <> "" ->
  a1 <> a2 ->
  ethersSigner p1 = Some s ->
  defined (ethersReadonlyProvider p1) = true ->
  refreshDeps p1 = refreshDeps p2 ->
  let w :=
    run (start p1)
      [(t1, Rendered p1); (t2, ReadSettled 0 (Fulfilled v)); (t3, Rendered p2)] in
  current w = p2
  /\ refreshProps (latest w) = p1
  /\ address (geoRef (hook w)) = Some a2
  /\ initRefreshKeyRef (hook w) = refreshKey a2 s
  /\ trace w
     = LedgerRead a1 (signerAddress s)
       :: (if t3 - t1 <? 2000 then [] else [LedgerRead a1 (signerAddress s)])
  /\ handle (hook (step w (t4, ReadSettled 1 (Fulfilled v')))) = handle (hook w).
Proof.
  intros Ha1 Ha2 Hne1 Hne2 Hne Hs Hp Hdeps w.
  pose proof Hdeps as Hdeps0. unfold Coordinator.refreshDeps in Hdeps0.
  injection Hdeps0 as Hch Hprov Hsig.
  set (key1 := refreshKey a1 s). set (key2 := refreshKey a2 s).
  set (read := LedgerRead a1 (signerAddress s)).
  set (fetch := RefreshFetch (contractChainId (contractOf (chainId p1))) a1 s).
  set (w1 := step (start p1) (t1, Rendered p1)).
  assert (H1 : isRefreshingRef (hook w1) = true
               /\ lastRefreshKeyRef (hook w1) = key1
               /\ lastRefreshAtRef (hook w1) = t1
               /\ initRefreshKeyRef (hook w1) = key1
               /\ refreshMemo w1 = Some p1
               /\ trace w1 = [read]
               /\ pending w1 = {[0%nat := fetch]}
               /\ nextTask w1 = 1%nat).
  { subst w1. unfold Coordinator.step. cbn [fst snd].
    rewrite (rendered_goes p1 t1 (start p1) a1 s) by (done || apply refreshKey_fresh).
    rewrite (refresh_goes _ t1 _ a1 s) by done.
    cbn [withHook hook setInitRefreshKeyRef setGeoRef lastRefreshKeyRef start mount].
    rewrite refreshKey_fresh. by repeat split. }
  set (w2 := step w1 (t2, ReadSettled 0 (Fulfilled v))).
  assert (H2 : isRefreshingRef (hook w2) = false
               /\ lastRefreshKeyRef (hook w2) = key1
               /\ lastRefreshAtRef (hook w2) = t1
               /\ initRefreshKeyRef (hook w2) = key1
               /\ refreshMemo w2 = Some p1
               /\ trace w2 = [read]
               /\ pending w2 = ∅
               /\ nextTask w2 = 1%nat).
  { destruct H1 as (Hr & Hk & Hat & Hi & Hm & Ht & Hpend & Hnext).
    subst w2. unfold Coordinator.step. cbn [fst snd].
    rewrite Hpend, lookup_singleton_eq. unfold fetch, refreshSettled. cbv beta iota zeta.
    destruct (sameChain _ _ && bool_decide _); simpl;
      rewrite ?Hpend, ?delete_singleton_eq; by repeat split. }
  set (w3 := step w2 (t3, Rendered p2)).
  assert (Hw : w = w3) by done.
  destruct H2 as (Hr & Hk & Hat & Hi & Hm & Ht & Hpend & Hnext).
  assert (Hmemo : memoised p2 w2 = p1).
  { unfold Coordinator.memoised. rewrite Hm. by rewrite bool_decide_eq_true_2. }
  assert (H3 : w3
               = refreshEncryptedTotal (render GeoChainAddresses p2 w2) t3
                   (withHook (setInitRefreshKeyRef key2)
                      (withHook (setGeoRef (contractOf (chainId p2)))
                         (withRefreshMemo p1 (withCurrent p2 w2))))).
  { subst w3. unfold Coordinator.step. cbn [fst snd].
    rewrite (rendered_goes p2 t3 w2 a2 s), Hmemo; try done.
    - congruence.
    - by rewrite <- Hprov.
    - rewrite Hi. by apply refreshKey_differs. }
  rewrite (refresh_goes _ t3 _ a1 s) in H3;
    [|exact Hr|first [exact Hne1|unfold Coordinator.render; cbn [refreshProps]; by rewrite Hmemo]..].
  unfold Coordinator.render in H3. cbn [refreshProps] in H3. rewrite Hmemo in H3.
  cbn [withHook hook setInitRefreshKeyRef setGeoRef lastRefreshKeyRef lastRefreshAtRef
       withRefreshMemo withCurrent] in H3.
  rewrite Hk, Hat in H3. fold key1 in H3. rewrite String.eqb_refl in H3.
  cbn [andb] in H3.
  rewrite Hw, H3. unfold latest, Coordinator.step. cbn [fst snd].
  destruct (t3 - t1 <? 2000); simpl.
  - rewrite Hpend, lookup_empty, Ht. by repeat split.
  - rewrite Hnext, lookup_insert_eq, Ht. repeat apply conj; try done.
    unfold refreshSettled. simpl. rewrite Ha2.
    rewrite (bool_decide_eq_false_2 (Some a1 = Some a2)) by congruence.
    by rewrite andb_false_r.
Qed.

(** The cleartext is that of the handle of the calling render: a decrypt
    called from a render that saw the handle [h], in a context that stays the
    captured one, asks for the capability, has [h] decrypted and stores
    [res[h]] as the cleartext -- whatever handle the hook holds by then (a
    refresh may have replaced it since the render); the handle itself is left
    as it is, and the decrypt lock is released. *)
Theorem cleartext_is_of_the_captured_handle (r : Render) (a : string) (s : Signer)
    (h : string) (force : bool) (now t1 t2 : Z) (cap : Capability)
    (res : gmap string Z) (w : World) :
  CoordinatorFacts.available GeoChainAddresses r a s ->
  seenHandle r = Some h ->
  h <> "" ->
  isZeroHandle h = false ->
  isRefreshingRef (hook w) = false ->
  isDecryptingRef (hook w) = false ->
  chainId (current w) = chainId (props r) ->
  ethersSigner (current w) = Some s ->
  address (geoRef (hook w)) = Some a ->
  let w' :=
    run w [(now, CallDecrypt r force);
           (t1, SignSettled (nextTask w) (Fulfilled (Some cap)));
           (t2, UserDecryptSettled (S (nextTask w)) (Fulfilled res))] in
  clear (hook w') = res !! h
  /\ handle (hook w') = handle (hook w)
  /\ message (hook w') = MsgDecryptDone
  /\ isDecryptingRef (hook w') = false
  /\ trace w' = trace w ++ [CapabilityRequested a s force; UserDecryptRequested h a cap].
Proof.
  intros (Ha & Hne & Hs & Hi) Hseen Hh Hzero Hrefresh Hdecrypt Hchain Hsigner Hgeo w'.
  set (w1 := spawn (DecryptSign (chainId (props r)) a h s)
               (observe (CapabilityRequested a s force)
                  (withHook (fun k =>
                     setMessage MsgDecryptStarting
                       (setIsDecrypting true (setIsDecryptingRef true k))) w))).
  set (w2 := spawn (DecryptRequest (chainId (props r)) a h s)
               (observe (UserDecryptRequested h a cap)
                  (withHook (setMessage MsgCallingUserDecrypt) (settle (nextTask w) w1)))).
  set (w3 := releaseDecrypt
               (withHook (fun k => setMessage MsgDecryptDone (setClear (res !! h) k))
                  (settle (S (nextTask w)) w2))).
  assert (Hfresh : forall w0,
             current w0 = current w ->
             geoRef (hook w0) = geoRef (hook w) ->
             isStale (chainId (props r)) a s w0 = false).
  { intros w0 Hc Hg. unfold isStale, sameChain, sameSigner.
    rewrite Hc, Hg, Hgeo, Hchain, Hsigner. by rewrite !bool_decide_eq_true_2. }
  assert (H1 : step w (now, CallDecrypt r force) = w1).
  { unfold Coordinator.step. cbn [fst snd].
    unfold Coordinator.decryptEncryptedTotal, Coordinator.decryptAfterWait.
    rewrite Hrefresh, Hdecrypt, Ha, Hs, Hi, Hseen, Hzero.
    rewrite CoordinatorFacts.truthy_Some by done.
    by destruct (String.eqb_spec h ""). }
  assert (H2 : step w1 (t1, SignSettled (nextTask w) (Fulfilled (Some cap))) = w2).
  { unfold Coordinator.step. cbn [fst snd].
    assert (pending w1 !! nextTask w = Some (DecryptSign (chainId (props r)) a h s)) as ->
      by (subst w1; simpl; by rewrite lookup_insert_eq).
    unfold decryptSigned. by rewrite Hfresh. }
  assert (H3 : step w2 (t2, UserDecryptSettled (S (nextTask w)) (Fulfilled res)) = w3).
  { unfold Coordinator.step. cbn [fst snd].
    assert (pending w2 !! S (nextTask w)
            = Some (DecryptRequest (chainId (props r)) a h s)) as ->
      by (subst w2 w1; simpl; by rewrite lookup_insert_eq).
    unfold decryptAnswered. by rewrite Hfresh. }
  assert (Hw' : w' = w3).
  { subst w'. unfold Coordinator.run. cbn [fold_left]. by rewrite H1, H2, H3. }
  rewrite Hw'. subst w3 w2 w1. simpl.
  repeat apply conj; try done. by rewrite <- app_assoc.
Qed.

End Flags.

(** *** The zero test on what the contract returns *)

Lemma allZeros_app a b : allZeros (a ++ b) = allZeros a && allZeros b.
Proof.
  induction a as [|c a IH]; simpl; [done|]. by rewrite IH, andb_assoc.
Qed.

Lemma allZeros_zeros n : allZeros (zeros n) = true.
Proof. induction n as [|n IH]; simpl; [done|]. by rewrite IH. Qed.

Lemma allZeros_digits d :
  allZeros (HexadecimalString.NilEmpty.string_of_uint d) = true -> N.of_hex_uint d = 0%N.
Proof. induction d; simpl; try done. Qed.

Lemma allZeros_toString16 h : allZeros (toString16 h) = true <-> h = 0.
Proof.
  destruct h as [|q|q]; [done| |done].
  split; [|done]. unfold toString16, HexadecimalString.NilZero.string_of_uint.
  pose proof (HexadecimalN.Unsigned.of_to (Npos q)) as Hq.
  destruct (N.to_hex_uint (N.pos q)) eqn:E; intros Hz;
    try (apply allZeros_digits in Hz; rewrite Hz in Hq; discriminate).
  simpl in Hq. discriminate.
Qed.

(** The zero test of the hook is exact on what it is applied to: the handle is
    taken for "no ciphertext" exactly when the [euint32] the contract returned
    is the uninitialised one, whether ethers hands it over as 32 bytes in
    hexadecimal or as a [bigint] that the hook prints itself. *)
Lemma zero_test_is_exact (h : Z) :
  (isZeroHandle (hexlify32 h) = true <-> h = 0)
  /\ (isZeroHandle ("0x" ++ toString16 h) = true <-> h = 0).
Proof.
  assert (Hzero : forall s,
             isZeroHandle ("0x" ++ s) = negb (s =? "")%string && allZeros s).
  { intros [|c s]; simpl; [done|]. done. }
  assert (Hne : toString16 h <> "").
  { destruct h as [|q|q]; [done| |done].
    unfold toString16, HexadecimalString.NilZero.string_of_uint.
    by destruct (N.to_hex_uint (N.pos q)). }
  split.
  - unfold hexlify32. cbv zeta. rewrite Hzero, allZeros_app, allZeros_zeros. simpl.
    rewrite <- allZeros_toString16.
    destruct (String.eqb_spec (zeros (64 - String.length (toString16 h)) ++ toString16 h) "")
      as [E|_]; simpl; [|done].
    destruct (zeros _); [by simpl in E|discriminate].
  - rewrite Hzero, <- allZeros_toString16.
    by destruct (String.eqb_spec (toString16 h) "").
Qed.

(** *** The hook against the ledger *)

Section AgainstTheLedger.

Context `{scheme : Ledger.FHE}.

(** A refresh tells who has submitted: when the value it reads is the
    encrypted total the ledger holds for a player after any run from
    deployment, and the context is still the captured one, the hook drops the
    cleartext; it reports "no ciphertext yet" and leaves decrypt disabled if
    no submission of the player was accepted, and reports "refreshed" with a
    handle that can be decrypted if one was. *)
Theorem refresh_tells_who_has_submitted (txs : list Ledger.Tx) (p : Z)
    (c : option Z) (a : string) (s : Signer) (v : RpcValue) (w : World) :
  let total := Ledger.getEncryptedTotalScore (Ledger.run Ledger.deploy txs) p in
  v = OtherV (hexlify32 total) \/ v = BigIntV total ->
  sameChain w c = true ->
  address (geoRef (hook w)) = Some a ->
  let w' := refreshSettled c a s (Fulfilled v) w in
  clear (hook w') = None
  /\ (Ledger.acceptedScores p Ledger.deploy txs = [] ->
      message (hook w') = MsgNoCiphertextYet /\ hasHandle (handle (hook w')) = false)
  /\ (Ledger.acceptedScores p Ledger.deploy txs <> [] ->
      message (hook w') = MsgRefreshed /\ hasHandle (handle (hook w')) = true).
Proof.
  intros total Hv Hc Ha w'. subst w'. unfold refreshSettled.
  rewrite Hc, Ha, bool_decide_eq_true_2 by done. simpl.
  set (handleStr := match v with BigIntV n => ("0x" ++ toString16 n)%string | OtherV t => t end).
  assert (Hzero : isZeroHandle handleStr = true <-> total = 0).
  { subst handleStr. destruct Hv as [-> | ->]; apply zero_test_is_exact. }
  split; [done|]. split; intros Hacc.
  - assert (Htotal : total = 0).
    { subst total. rewrite LedgerFacts.run_total_untouched by done.
      unfold Ledger.getEncryptedTotalScore. simpl. by rewrite lookup_empty. }
    apply Hzero in Htotal. by rewrite Htotal.
  - assert (Htotal : total <> 0).
    { subst total. apply LedgerFacts.run_total_initialized. by right. }
    destruct (isZeroHandle handleStr); [|done]. by destruct Htotal; apply Hzero.
Qed.

End AgainstTheLedger.

(** *** The properties at work *)

(** [alice] is connected and the first refresh has brought a handle: decrypt
    is enabled and a call starts at once. *)
Lemma canDecrypt_agrees_with_decrypt_witness :
  let turns :=
    [(1000, Rendered (CoordinatorFacts.connected CoordinatorFacts.alice));
     (1050, ReadSettled 0 (Fulfilled (OtherV "0xa11ce")))] in
  let w :=
    Coordinator.run CoordinatorFacts.localTable
      (start (CoordinatorFacts.connected CoordinatorFacts.alice)) turns in
  canDecrypt CoordinatorFacts.localTable w = true
  <-> exists a s h,
        Coordinator.decryptEncryptedTotal CoordinatorFacts.localTable (latest w) false 1100 w
        = spawn (DecryptSign (chainId (current w)) a h s)
            (observe (CapabilityRequested a s false)
               (withHook (fun k =>
                  setMessage MsgDecryptStarting
                    (setIsDecrypting true (setIsDecryptingRef true k))) w)).
Proof.
  intros turns w.
  apply (canDecrypt_agrees_with_decrypt CoordinatorFacts.localTable
           (CoordinatorFacts.connected CoordinatorFacts.alice) turns false 1100);
    by vm_compute.
Defined.

(** While the first refresh of [alice] is in flight [canSubmit] holds, and a
    submit is refused as busy.  With [NaN] as the score [canSubmit] is
    false. *)
Lemma canSubmit_agrees_with_submit_witness :
  let form :=
    {| score := Finite 5; scorePublic := 5; resultCID := "cid"; resultHash := "0xabc" |} in
  let w :=
    Coordinator.run CoordinatorFacts.localTable
      (start (CoordinatorFacts.connected CoordinatorFacts.alice))
      [(1000, Rendered (CoordinatorFacts.connected CoordinatorFacts.alice))] in
  canSubmit CoordinatorFacts.localTable form w = true
  /\ Coordinator.submitCore CoordinatorFacts.localTable (latest w) form w
     = observe (SubmitRejected ErrBusy) w
  /\ canSubmit CoordinatorFacts.localTable (withScore NaN form) w = false.
Proof.
  intros form w.
  destruct (canSubmit_agrees_with_submit CoordinatorFacts.localTable
              (CoordinatorFacts.connected CoordinatorFacts.alice)
              [(1000, Rendered (CoordinatorFacts.connected CoordinatorFacts.alice))] form)
    as (_ & Hbusy & _); [by vm_compute..|].
  split; [by vm_compute|]. split; [apply Hbusy; by vm_compute|].
  destruct (canSubmit_agrees_with_submit CoordinatorFacts.localTable
              (CoordinatorFacts.connected CoordinatorFacts.alice)
              [(1000, Rendered (CoordinatorFacts.connected CoordinatorFacts.alice))]
              (withScore NaN form))
    as (_ & _ & Hnan & _); [by vm_compute..|].
  by apply Hnan.
Defined.

(** The table of the local deployment is keyed by chain id. *)
Lemma localTable_wellKeyed : wellKeyed CoordinatorFacts.localTable.
Proof.
  intros c entry. unfold CoordinatorFacts.localTable.
  destruct (Z.eqb_spec c 31337) as [->|_]; [|done].
  intros [= <-]. by right.
Qed.

(** [alice]'s first read has settled 3 s ago: [canRefresh] holds, and a
    refresh called from the latest render reads her total at the contract of
    the current chain. *)
Lemma canRefresh_agrees_with_refresh_witness :
  let w :=
    Coordinator.run CoordinatorFacts.localTable
      (start (CoordinatorFacts.connected CoordinatorFacts.alice))
      [(1000, Rendered (CoordinatorFacts.connected CoordinatorFacts.alice));
       (1050, ReadSettled 0 (Fulfilled (OtherV "0xa11ce")))] in
  canRefresh CoordinatorFacts.localTable w = true
  /\ trace (Coordinator.refreshEncryptedTotal CoordinatorFacts.localTable (latest w) 4000 w)
     = trace w ++ [LedgerRead "0xC0" "0xA1"].
Proof.
  intros w.
  destruct (canRefresh_agrees_with_refresh CoordinatorFacts.localTable
              (CoordinatorFacts.connected CoordinatorFacts.alice)
              [(1000, Rendered (CoordinatorFacts.connected CoordinatorFacts.alice));
               (1050, ReadSettled 0 (Fulfilled (OtherV "0xa11ce")))] 4000
              localTable_wellKeyed) as [Hcan _].
  split; [by vm_compute|].
  destruct Hcan as (a & s & Ha & Hs & Hread); [by vm_compute|].
  by vm_compute.
Defined.

(** A table with two deployments that carry the same [chainId] field. *)
Definition sharedTable (c : Z) : option AddressEntry :=
  if c =? 1 then Some {| entryAddress := Some "0xC1"; entryChainId := Some 1 |}
  else if c =? 2 then Some {| entryAddress := Some "0xC2"; entryChainId := Some 1 |}
  else None.

(** With that table, [alice] goes from chain 1 to chain 2 with the same
    signer and provider objects, 3 s after the first read: the effect reads
    her total at "0xC1" again, and the total at "0xC2" is never read. *)
Lemma refresh_reads_the_old_contract_witness :
  let on c :=
    {| instance := true; chainId := Some c;
       ethersSigner := Some CoordinatorFacts.alice; ethersReadonlyProvider := Some 1 |} in
  let w :=
    Coordinator.run sharedTable (start (on 1))
      [(1000, Rendered (on 1)); (1050, ReadSettled 0 (Fulfilled (OtherV "0xa11ce")));
       (4000, Rendered (on 2))] in
  address (geoRef (hook w)) = Some "0xC2"
  /\ trace w = [LedgerRead "0xC1" "0xA1"; LedgerRead "0xC1" "0xA1"].
Proof.
  intros on w.
  destruct (refresh_reads_the_old_contract sharedTable (on 1) (on 2) "0xC1" "0xC2"
              CoordinatorFacts.alice 1000 1050 4000 4100 (OtherV "0xa11ce") (OtherV "0xb0b"))
    as (_ & _ & Hgeo & _ & Htrace & _); [done..|].
  split; [exact Hgeo|exact Htrace].
Defined.

(** Player 7 has one accepted submission, player 8 none: a refresh for
    player 7 reports a ciphertext that can be decrypted. *)
Lemma refresh_tells_who_has_submitted_witness :
  let txs := [LedgerFacts.submitTx 7 1000 5] in
  let total :=
    Ledger.getEncryptedTotalScore (@Ledger.run LedgerFacts.plainFHE Ledger.deploy txs) 7 in
  let w :=
    Coordinator.run CoordinatorFacts.localTable
      (start (CoordinatorFacts.connected CoordinatorFacts.alice))
      [(1000, Rendered (CoordinatorFacts.connected CoordinatorFacts.alice))] in
  let w' :=
    refreshSettled (Some 31337) "0xC0" CoordinatorFacts.alice
      (Fulfilled (OtherV (hexlify32 total))) w in
  message (hook w') = MsgRefreshed /\ hasHandle (handle (hook w')) = true.
Proof.
  intros txs total w w'.
  destruct (@refresh_tells_who_has_submitted LedgerFacts.plainFHE txs 7 (Some 31337) "0xC0"
              CoordinatorFacts.alice (OtherV (hexlify32 total)) w)
    as (_ & _ & Hsome); [by left|by vm_compute..|].
  apply Hsome. by vm_compute.
Defined.

(** [alice] asks for the cleartext from the render that saw the handle
    "0xa11ce" while the hook already holds "0xb0b": the hook ends with the
    handle "0xb0b" and, as its cleartext, what "0xa11ce" decrypts to. *)
Lemma cleartext_is_of_the_captured_handle_witness :
  let r :=
    {| props := CoordinatorFacts.connected CoordinatorFacts.alice;
       seenHandle := Some "0xa11ce";
       refreshProps := CoordinatorFacts.connected CoordinatorFacts.alice |} in
  let w :=
    Coordinator.run CoordinatorFacts.localTable
      (start (CoordinatorFacts.connected CoordinatorFacts.alice))
      [(1000, Rendered (CoordinatorFacts.connected CoordinatorFacts.alice));
       (1050, ReadSettled 0 (Fulfilled (OtherV "0xb0b")))] in
  let cap :=
    {| privateKey := "sk"; publicKey := "pk"; signature := "sig";
       contractAddresses := ["0xC0"]; userAddress := "0xA1";
       startTimestamp := 1; durationDays := 365 |} in
  let w' :=
    Coordinator.run CoordinatorFacts.localTable w
      [(1100, CallDecrypt r false);
       (1200, SignSettled (nextTask w) (Fulfilled (Some cap)));
       (1300, UserDecryptSettled (S (nextTask w)) (Fulfilled {["0xa11ce" := 12]}))] in
  clear (hook w') = Some 12 /\ handle (hook w') = Some "0xb0b".
Proof.
  intros r w cap w'.
  destruct (cleartext_is_of_the_captured_handle CoordinatorFacts.localTable r "0xC0"
              CoordinatorFacts.alice "0xa11ce" false 1100 1200 1300 cap
              {["0xa11ce" := 12]} w) as (Hclear & Hhandle & _);
    [by repeat split|by vm_compute..|].
  split; [etrans; [exact Hclear|by vm_compute]|etrans; [exact Hhandle|by vm_compute]].
Defined.

End CoordinatorViews.

(** ** Part V: the record page

    [RecordDetail] reads the encrypted score of one result and has it
    decrypted through [decryptHandle] of its hook. *)

Module RecordDetail.

Import Coordinator.

Open Scope string_scope.
Open Scope list_scope.
Open Scope Z_scope.

(** The texts [setMsg] is called with. *)
Inductive Note :=
| NoteNone                        (* "" *)
| NoteNoScoreHandle               (* "该记录没有可解密的分数句柄（可能是无效 id）" *)
| NoteGotHandle                   (* "已获取到密文句柄" *)
| NoteFetchFailed (e : string)    (* "获取记录密文失败：" + e *)
| NoteRefreshFirst.               (* "未检测到该记录的密文句柄，请先点击“刷新密文”" *)

(** The state cells of the page. *)
Record Page := {
  scoreHandle : option string;
  scoreClear : option Z;
  msg : Note
}.

Definition setMsg (v : Note) (page : Page) : Page :=
  {| scoreHandle := scoreHandle page; scoreClear := scoreClear page; msg := v |}.

Definition opened : Page :=
  {| scoreHandle := None; scoreClear := None; msg := NoteNone |}.

Section Page.

Variable GeoChainAddresses : Z -> option AddressEntry.

Local Abbreviation contractOf := (Coordinator.contractOf GeoChainAddresses).
Local Abbreviation decryptHandle := (Coordinator.decryptHandle GeoChainAddresses).

(** [refreshMyScoreHandle] up to its [await]: the contract and the result id
    it calls [getEncryptedResultScore] with, if it makes the call. *)
Definition refreshMyScoreHandle (r : Render) (recordId : Z) : option (string * Z) :=
  let contractAddress := address (contractOf (chainId (props r))) in
  match contractAddress with
  | Some a =>
      if negb (defined (ethersReadonlyProvider (props r))) || negb (truthy contractAddress)
      then None
      else Some (a, recordId)
  | None => None
  end.

(** The rest of [refreshMyScoreHandle], once the read has settled. *)
Definition scoreHandleSettled (res : Settled string) (page : Page) : Page :=
  match res with
  | Fulfilled value =>
      {| scoreHandle := Some value;
         scoreClear := None;
         msg := if isZeroHandle value then NoteNoScoreHandle else NoteGotHandle |}
  | Rejected e => setMsg (NoteFetchFailed e) page
  end.

(** [decryptMyScore] up to its [await]: the page and the hook after it. *)
Definition decryptMyScore (r : Render) (page : Page) (w : World) : Page * World :=
  match scoreHandle page with
  | Some h =>
      if (h =? "")%string || isZeroHandle h then (setMsg NoteRefreshFirst page, w)
      else (page, decryptHandle r h true w)
  | None => (setMsg NoteRefreshFirst page, w)
  end.

Context `{scheme : Ledger.FHE}.

(** The record page asks for a decryption exactly for results that exist:
    a connected page with a provider reads [getEncryptedResultScore] of its
    record; with the handle that this returns after any run from
    deployment, for an id the ledger has handed out the page says it got a
    handle and [decryptMyScore] asks the signer for the capability (always
    with [forceSign]); for any other id the page says there is no handle,
    and [decryptMyScore] neither calls the hook nor contacts the signer. *)
Theorem record_page_decrypts_issued_results (txs : list Ledger.Tx) (id : Z)
    (r : Render) (a : string) (s : Signer) (page : Page) (w : World) :
  CoordinatorFacts.available GeoChainAddresses r a s ->
  let c := Ledger.run Ledger.deploy txs in
  let n := Z.of_nat (length (LedgerHistory.issued Ledger.deploy txs)) in
  let value := hexlify32 (Ledger.getEncryptedResultScore c id) in
  let page' := scoreHandleSettled (Fulfilled value) page in
  (defined (ethersReadonlyProvider (props r)) = true ->
   refreshMyScoreHandle r id = Some (a, id))
  /\ (1 <= id <= n ->
      msg page' = NoteGotHandle
      /\ decryptMyScore r page' w
         = (page', spawn (HandleSign value a) (observe (CapabilityRequested a s true) w)))
  /\ (~ 1 <= id <= n ->
      msg page' = NoteNoScoreHandle
      /\ decryptMyScore r page' w = (setMsg NoteRefreshFirst page', w)).
Proof.
  intros (Ha & Hne & Hs & Hi) c n value page'.
  split.
  { intros Hp. unfold refreshMyScoreHandle. cbv zeta.
    by rewrite Ha, Hp, CoordinatorFacts.truthy_Some. }
  pose proof (LedgerHistory.issued_have_scores txs id) as Hid. fold c n in Hid.
  pose proof (proj1 (CoordinatorViews.zero_test_is_exact (Ledger.getEncryptedResultScore c id)))
    as Hzero.
  fold value in Hzero.
  assert (Hfull : (value =? "")%string = false).
  { subst value. unfold hexlify32. by cbv zeta. }
  subst page'. clearbody value. unfold decryptMyScore. simpl. rewrite Hfull. simpl.
  split; intros Hin.
  - destruct (isZeroHandle value).
    + exfalso. apply Hid in Hin. apply Hin. by apply Hzero.
    + split; [done|]. unfold Coordinator.decryptHandle.
      by rewrite Ha, Hs, Hi, CoordinatorFacts.truthy_Some.
  - destruct (isZeroHandle value); [done|].
    exfalso. apply Hin, Hid. intros H0. apply Hzero in H0. done.
Qed.

End Page.

(** The page at work: after one accepted submission, result 1 can be
    decrypted from a connected page. *)
Lemma record_page_decrypts_issued_results_witness :
  let txs := [LedgerFacts.submitTx 7 1000 5] in
  let r :=
    {| props := CoordinatorFacts.connected CoordinatorFacts.alice; seenHandle := None;
       refreshProps := CoordinatorFacts.connected CoordinatorFacts.alice |} in
  let w := start (CoordinatorFacts.connected CoordinatorFacts.alice) in
  let value :=
    hexlify32 (Ledger.getEncryptedResultScore
                 (@Ledger.run LedgerFacts.plainFHE Ledger.deploy txs) 1) in
  let page' := scoreHandleSettled (Fulfilled value) opened in
  msg page' = NoteGotHandle
  /\ decryptMyScore CoordinatorFacts.localTable r page' w
     = (page', spawn (HandleSign value "0xC0")
                 (observe (CapabilityRequested "0xC0" CoordinatorFacts.alice true) w)).
Proof.
  intros txs r w value page'.
  destruct (@record_page_decrypts_issued_results CoordinatorFacts.localTable
              LedgerFacts.plainFHE txs 1 r "0xC0" CoordinatorFacts.alice opened w)
    as (_ & Hissued & _); [by repeat split|].
  apply Hissued. by vm_compute.
Defined.

End RecordDetail.

(** ** Part VI: the in-memory storage

    [useInMemoryStorage] keeps the decryption signatures in a [Map]. *)

Module InMemoryStorage.

Open Scope string_scope.
Open Scope list_scope.

(** The [Map<string, string>] behind the storage object. *)
Abbreviation Store := (gmap string string).

(** [store.get(key) || null]: an empty string is falsy. *)
Definition getItem (key : string) (store : Store) : option string :=
  match store !! key with
  | Some value => if value =? "" then None else Some value
  | None => None
  end.

Definition setItem (key value : string) (store : Store) : Store :=
  <[key := value]> store.

Definition removeItem (key : string) (store : Store) : Store :=
  delete key store.

Inductive Op :=
| SetItem (key value : string)
| RemoveItem (key : string).

Definition apply (store : Store) (op : Op) : Store :=
  match op with
  | SetItem key value => setItem key value store
  | RemoveItem key => removeItem key store
  end.

(** What the operations, oldest first, leave under [key]: the value of the
    last [setItem] on it that no [removeItem] followed. *)
Fixpoint written (key : string) (ops : list Op) (before : option string) : option string :=
  match ops with
  | [] => before
  | SetItem k value :: rest => written key rest (if k =? key then Some value else before)
  | RemoveItem k :: rest => written key rest (if k =? key then None else before)
  end.

Lemma apply_lookup store op key :
  apply store op !! key
  = match op with
    | SetItem k value => if k =? key then Some value else store !! key
    | RemoveItem k => if k =? key then None else store !! key
    end.
Proof.
  destruct op as [k value|k]; unfold apply, setItem, removeItem;
    destruct (String.eqb_spec k key) as [->|Hne].
  - by rewrite lookup_insert_eq.
  - by rewrite lookup_insert_ne.
  - by rewrite lookup_delete_eq.
  - by rewrite lookup_delete_ne.
Qed.

(** What is stored reads back, except the empty string: after any sequence of
    [setItem] and [removeItem], [getItem] returns the value of the last
    [setItem] on the key that no [removeItem] of the key followed -- what the
    storage held under the key before, if the sequence does not touch it;
    it returns [null] when there is none, and also when that value is the
    empty string. *)
Theorem stored_value_reads_back (ops : list Op) (key : string) (store : Store) :
  getItem key (fold_left apply ops store)
  = match written key ops (store !! key) with
    | Some value => if value =? "" then None else Some value
    | None => None
    end.
Proof.
  unfold getItem. revert store.
  induction ops as [|op ops IH]; intros store; [done|].
  simpl. rewrite IH, apply_lookup. by destruct op.
Qed.

End InMemoryStorage.

(** ** Part VII: the pages that read the contract

    [Leaderboard] and [Records] rebuild their lists from the
    [ResultSubmitted] events of the contract; [Badges] reads the statistics
    and the claims. *)

(** *** Numbers, as the pages use them *)

Module JsNumber.

Open Scope Z_scope.

Definition MAX_SAFE_INTEGER : Z := 2 ^ 53 - 1.

(** The pages turn the [bigint] values they read into numbers and add
    numbers up.  On integers up to [MAX_SAFE_INTEGER] in magnitude
    [Number(x)] and [a + b] are exact; what they round to beyond is not
    followed here ([None]). *)
Definition exact (n : Z) : option Z :=
  if (- MAX_SAFE_INTEGER <=? n) && (n <=? MAX_SAFE_INTEGER) then Some n else None.

Lemma exact_safe n : - MAX_SAFE_INTEGER <= n <= MAX_SAFE_INTEGER -> exact n = Some n.
Proof.
  intros Hn. unfold exact.
  destruct (Z.leb_spec (- MAX_SAFE_INTEGER) n); [|lia].
  destruct (Z.leb_spec n MAX_SAFE_INTEGER); [done|lia].
Qed.

Lemma exact_Some n m : exact n = Some m -> m = n /\ - MAX_SAFE_INTEGER <= n <= MAX_SAFE_INTEGER.
Proof.
  unfold exact.
  destruct (Z.leb_spec (- MAX_SAFE_INTEGER) n); [|done].
  destruct (Z.leb_spec n MAX_SAFE_INTEGER); [|done].
  intros [= <-]. lia.
Qed.

End JsNumber.

(** *** Sorting, as the pages use it *)

Module JsArray.

Open Scope Z_scope.

Section Sort.

Context {A : Type} (key : A -> Z).

(** [Array.prototype.sort] with a comparator that is negative when the key of
    its first argument is the larger one ([(a, b) => b.key - a.key]): the
    elements come out by decreasing key, and, the sort being stable, elements
    with equal keys keep their order.  There is one such arrangement; it is
    built here by insertion, the elements taken from the last to the first,
    each put before the first element whose key is not larger. *)
Fixpoint insertDesc (x : A) (l : list A) : list A :=
  match l with
  | [] => [x]
  | y :: rest => if key x <? key y then y :: insertDesc x rest else x :: y :: rest
  end.

Definition sortDesc (l : list A) : list A := fold_right insertDesc [] l.

Definition descending : A -> A -> Prop := fun x y => key y <= key x.

Lemma insertDesc_Permutation x l : insertDesc x l ≡ₚ x :: l.
Proof.
  induction l as [|y l IH]; simpl; [done|].
  destruct (key x <? key y); [|done].
  rewrite IH. apply Permutation_swap.
Qed.

Lemma sortDesc_Permutation l : sortDesc l ≡ₚ l.
Proof.
  induction l as [|x l IH]; simpl; [done|].
  by rewrite insertDesc_Permutation, IH.
Qed.

Lemma insertDesc_sorted x l :
  StronglySorted descending l -> StronglySorted descending (insertDesc x l).
Proof.
  unfold descending.
  induction l as [|y l IH]; intros Hl; simpl.
  - by repeat constructor.
  - apply StronglySorted_inv in Hl as [Hl Hy].
    destruct (Z.ltb_spec (key x) (key y)).
    + constructor; [by apply IH|].
      rewrite insertDesc_Permutation. constructor; [lia|done].
    + constructor; [by constructor|].
      constructor; [done|].
      eapply Forall_impl; [exact Hy|]. simpl. intros z Hz. lia.
Qed.

Lemma sortDesc_sorted l : StronglySorted descending (sortDesc l).
Proof.
  induction l as [|x l IH]; simpl; [constructor|]. by apply insertDesc_sorted.
Qed.

(** Stability: the elements of one key are in the order they had. *)
Lemma insertDesc_stable k x l :
  filter (fun y => key y = k) (insertDesc x l) = filter (fun y => key y = k) (x :: l).
Proof.
  induction l as [|y l IH]; simpl; [done|].
  destruct (Z.ltb_spec (key x) (key y)); [|done].
  rewrite !filter_cons in *. rewrite IH.
  destruct (decide (key y = k)), (decide (key x = k)); try done. lia.
Qed.

Lemma sortDesc_stable k l :
  filter (fun y => key y = k) (sortDesc l) = filter (fun y => key y = k) l.
Proof.
  induction l as [|x l IH]; simpl; [done|].
  rewrite insertDesc_stable, !filter_cons. by rewrite IH.
Qed.

Lemma insertDesc_smallest x l :
  Forall (fun y => key x < key y) l -> insertDesc x l = l ++ [x].
Proof.
  induction 1 as [|y l Hy _ IH]; simpl; [done|].
  destruct (Z.ltb_spec (key x) (key y)); [|lia]. by rewrite IH.
Qed.

(** Elements that come by strictly increasing key come out reversed. *)
Lemma sortDesc_increasing l :
  StronglySorted (fun x y => key x < key y) l -> sortDesc l = reverse l.
Proof.
  induction 1 as [|x l _ IH Hx]; simpl; [done|].
  rewrite IH, reverse_cons. apply insertDesc_smallest.
  by rewrite Forall_reverse.
Qed.

(** What [slice(0, n)] of a sorted array leaves aside is not larger than
    anything it keeps. *)
Lemma take_topmost n l e :
  StronglySorted descending l ->
  e ∈ l ->
  e ∈ take n l
  \/ (length (take n l) = n /\ forall x, x ∈ take n l -> key e <= key x).
Proof.
  intros Hl He. rewrite <- (take_drop n l) in He, Hl.
  apply elem_of_app in He as [He|He]; [by left|right]. split.
  - rewrite length_take. destruct (decide (length l <= n)%nat) as [Hle|Hgt]; [|lia].
    rewrite drop_ge in He by done. by apply elem_of_nil in He.
  - intros x Hx. by apply (StronglySorted_app_1_elem_of _ _ _ x e) in Hl.
Qed.

End Sort.

End JsArray.

(** *** The leaderboard *)

Module Leaderboard.

Import JsNumber.

Open Scope string_scope.
Open Scope list_scope.
Open Scope Z_scope.

Inductive TimeFilter := All | Week | Today.

(** A [ResultSubmitted] log as [queryFilter] returns it, as far as the page
    reads it: [args?.[1]], [args?.[4]], [args?.[5]] and the transaction
    hash. *)
Record EventLog := {
  argPlayer : option string;
  argScorePublic : option Z;
  argTimestamp : option Z;
  transactionHash : string
}.

(** The values of [scoreMap]. *)
Record Tally := { total : Z; txHash : string; timestamp : Z }.

Definition noTally : Tally := {| total := 0; txHash := ""; timestamp := 0 |}.

(** [scoreMap] is a [Map]: it hands its entries out in the order in which
    their keys were first set. *)
Fixpoint mapGet (key : string) (m : list (string * Tally)) : option Tally :=
  match m with
  | [] => None
  | (k, v) :: rest => if (k =? key)%string then Some v else mapGet key rest
  end.

Fixpoint mapSet (key : string) (v : Tally) (m : list (string * Tally))
    : list (string * Tally) :=
  match m with
  | [] => [(key, v)]
  | (k, v') :: rest =>
      if (k =? key)%string then (k, v) :: rest else (k, v') :: mapSet key v rest
  end.

(** [nowSec] is [Math.floor(Date.now() / 1000)]. *)
Definition startBoundary (timeFilter : TimeFilter) (nowSec : Z) : Z :=
  match timeFilter with
  | Today => nowSec - 24 * 60 * 60
  | Week => nowSec - 7 * 24 * 60 * 60
  | All => 0
  end.

Definition playerOf (log : EventLog) : string := default "" (argPlayer log).
Definition scoreOf (log : EventLog) : Z := default 0 (argScorePublic log).
Definition timestampOf (log : EventLog) : Z := default 0 (argTimestamp log).

(** The body of the loop over the events. *)
Definition tally (boundary : Z) (scoreMap : list (string * Tally)) (log : EventLog)
    : option (list (string * Tally)) :=
  match exact (scoreOf log), exact (timestampOf log) with
  | Some score, Some ts =>
      if ts <? boundary then Some scoreMap else
      let existing := default noTally (mapGet (playerOf log) scoreMap) in
      match exact (total existing + score) with
      | Some sum =>
          Some (mapSet (playerOf log)
                  {| total := sum;
                     txHash := transactionHash log;
                     timestamp := Z.max (timestamp existing) ts |}
                  scoreMap)
      | None => None
      end
  | _, _ => None
  end.

Fixpoint tallyAll (boundary : Z) (events : list EventLog) (scoreMap : list (string * Tally))
    : option (list (string * Tally)) :=
  match events with
  | [] => Some scoreMap
  | log :: rest =>
      match tally boundary scoreMap log with
      | Some scoreMap' => tallyAll boundary rest scoreMap'
      | None => None
      end
  end.

(** A line of the board before it is ranked ([rowTxHash] and [rowTimestamp]
    are [txHash] and [timestamp] in the source), and a ranked line
    ([{ ...entry, rank }]). *)
Record Row := { address : string; score : Z; rowTxHash : string; rowTimestamp : Z }.

Record LeaderEntry := { rank : Z; row : Row }.

Definition toRow (kv : string * Tally) : Row :=
  {| address := fst kv;
     score := total (snd kv);
     rowTxHash := txHash (snd kv);
     rowTimestamp := timestamp (snd kv) |}.

(** [.map((entry, index) => ({ ...entry, rank: index + 1 }))], from [index]
    on. *)
Fixpoint withRanks (index : nat) (rows : list Row) : list LeaderEntry :=
  match rows with
  | [] => []
  | e :: rest => {| rank := Z.of_nat index + 1; row := e |} :: withRanks (S index) rest
  end.

(** [loadLeaderboard] from the events the query returned to the entries it
    shows. *)
Definition loadLeaderboard (timeFilter : TimeFilter) (nowSec : Z) (events : list EventLog)
    : option (list LeaderEntry) :=
  match tallyAll (startBoundary timeFilter nowSec) events [] with
  | Some scoreMap =>
      let sorted := withRanks 0 (JsArray.sortDesc score (toRow <$> scoreMap)) in
      Some (take 20 sorted)
  | None => None
  end.

(** *** What the board should show *)

(** The events inside the time window, and those of one player among them. *)
Definition counted (boundary : Z) (events : list EventLog) : list EventLog :=
  filter (fun log => boundary <= timestampOf log) events.

Definition eventsOf (player : string) (events : list EventLog) : list EventLog :=
  filter (fun log => playerOf log = player) events.

Definition totalOf (player : string) (boundary : Z) (events : list EventLog) : Z :=
  Ledger.sumZ (scoreOf <$> eventsOf player (counted boundary events)).

(** Events the numbers stay exact on: public scores of 32 bits, block times
    that are safe integers, and at most 2^20 events. *)
Definition safe (events : list EventLog) : Prop :=
  Forall (fun log =>
            0 <= scoreOf log <= Ledger.MAX_UINT32
            /\ 0 <= timestampOf log <= MAX_SAFE_INTEGER) events
  /\ Z.of_nat (length events) <= 2 ^ 20.

(** *** The map *)

Lemma mapGet_mapSet key v m : mapGet key (mapSet key v m) = Some v.
Proof.
  induction m as [|[k v'] m IH]; simpl.
  - by rewrite String.eqb_refl.
  - destruct (String.eqb_spec k key) as [->|Hne]; simpl.
    + by rewrite String.eqb_refl.
    + by destruct (String.eqb_spec k key).
Qed.

Lemma mapGet_mapSet_ne key key' v m :
  key' <> key -> mapGet key' (mapSet key v m) = mapGet key' m.
Proof.
  intros Hne. induction m as [|[k v'] m IH]; simpl.
  - by destruct (String.eqb_spec key key').
  - destruct (String.eqb_spec k key) as [->|Hk]; simpl.
    + by destruct (String.eqb_spec key key').
    + by rewrite IH.
Qed.

Lemma mapSet_keys key v m :
  (mapSet key v m).*1
  = match mapGet key m with
    | Some _ => m.*1
    | None => m.*1 ++ [key]
    end.
Proof.
  induction m as [|[k v'] m IH]; csimpl; [done|].
  destruct (String.eqb_spec k key) as [->|Hk]; csimpl; [done|].
  rewrite IH. by destruct (mapGet key m).
Qed.

Lemma mapGet_None key m : mapGet key m = None <-> key ∉ m.*1.
Proof.
  induction m as [|[k v] m IH]; csimpl.
  - split; [|done]. intros _. apply not_elem_of_nil.
  - rewrite not_elem_of_cons.
    destruct (String.eqb_spec k key) as [->|Hk].
    + split; [done|]. by intros [? _].
    + rewrite IH. split; [by split|]. by intros [_ ?].
Qed.

Lemma mapGet_elem key v m : mapGet key m = Some v -> (key, v) ∈ m.
Proof.
  induction m as [|[k v'] m IH]; simpl; [done|].
  destruct (String.eqb_spec k key) as [->|Hk].
  - intros [= ->]. apply elem_of_cons. by left.
  - intros H. apply elem_of_cons. right. by apply IH.
Qed.

Lemma elem_mapGet key v m : NoDup m.*1 -> (key, v) ∈ m -> mapGet key m = Some v.
Proof.
  induction m as [|[k v'] m IH]; csimpl.
  - intros _ H. by apply elem_of_nil in H.
  - intros [Hk Hm]%NoDup_cons [[= -> ->]|Hin]%elem_of_cons.
    + by rewrite String.eqb_refl.
    + destruct (String.eqb_spec k key) as [->|Hne]; [|by apply IH].
      destruct Hk. apply list_elem_of_fmap. by exists (key, v).
Qed.

Lemma mapSet_NoDup key v m : NoDup m.*1 -> NoDup (mapSet key v m).*1.
Proof.
  intros Hm. rewrite mapSet_keys.
  destruct (mapGet key m) eqn:E; [done|].
  apply NoDup_app. repeat apply conj; [done| |apply NoDup_singleton].
  intros k Hk ->%list_elem_of_singleton. by apply mapGet_None in E.
Qed.

(** *** The loop, on exact numbers *)

(** What the events of one player, oldest first, make of the player's
    tally. *)
Definition absorb (t : Tally) (es : list EventLog) : Tally :=
  fold_left (fun t log =>
               {| total := total t + scoreOf log;
                  txHash := transactionHash log;
                  timestamp := Z.max (timestamp t) (timestampOf log) |}) es t.

Lemma sumZ_cons x l : Ledger.sumZ (x :: l) = x + Ledger.sumZ l.
Proof. reflexivity. Qed.

Lemma absorb_total es : forall t, total (absorb t es) = total t + Ledger.sumZ (scoreOf <$> es).
Proof.
  induction es as [|log es IH]; intros t; csimpl.
  - unfold Ledger.sumZ. simpl. lia.
  - unfold absorb in *. rewrite IH. unfold Ledger.sumZ. simpl. lia.
Qed.

(** The loop as it runs while every number stays exact. *)
Definition tallyZ (boundary : Z) (scoreMap : list (string * Tally)) (log : EventLog)
    : list (string * Tally) :=
  if timestampOf log <? boundary then scoreMap else
  let existing := default noTally (mapGet (playerOf log) scoreMap) in
  mapSet (playerOf log)
    {| total := total existing + scoreOf log;
       txHash := transactionHash log;
       timestamp := Z.max (timestamp existing) (timestampOf log) |}
    scoreMap.

Lemma tallyZ_get boundary m log key :
  mapGet key (tallyZ boundary m log)
  = match eventsOf key (counted boundary [log]) with
    | [] => mapGet key m
    | es => Some (absorb (default noTally (mapGet key m)) es)
    end.
Proof.
  unfold tallyZ, eventsOf, counted. rewrite !filter_cons, filter_nil.
  destruct (Z.ltb_spec (timestampOf log) boundary).
  - rewrite decide_False by lia. by rewrite filter_nil.
  - rewrite decide_True by lia. rewrite filter_cons, filter_nil.
    destruct (decide (playerOf log = key)) as [<-|Hne].
    + by rewrite mapGet_mapSet.
    + by rewrite mapGet_mapSet_ne.
Qed.

Lemma tallyZ_NoDup boundary m log : NoDup m.*1 -> NoDup (tallyZ boundary m log).*1.
Proof.
  intros Hm. unfold tallyZ. destruct (_ <? _); [done|]. by apply mapSet_NoDup.
Qed.

Definition tallyAllZ (boundary : Z) (events : list EventLog)
    (scoreMap : list (string * Tally)) : list (string * Tally) :=
  fold_left (tallyZ boundary) events scoreMap.

Lemma tallyAllZ_NoDup boundary events :
  forall m, NoDup m.*1 -> NoDup (tallyAllZ boundary events m).*1.
Proof.
  induction events as [|log events IH]; intros m Hm; [done|].
  simpl. by apply IH, tallyZ_NoDup.
Qed.

Lemma absorb_app t es1 es2 : absorb t (es1 ++ es2) = absorb (absorb t es1) es2.
Proof. apply fold_left_app. Qed.

Lemma tallyAllZ_get boundary events key :
  forall m,
    mapGet key (tallyAllZ boundary events m)
    = match eventsOf key (counted boundary events) with
      | [] => mapGet key m
      | es => Some (absorb (default noTally (mapGet key m)) es)
      end.
Proof.
  induction events as [|log events IH]; intros m; [done|].
  simpl. rewrite IH, tallyZ_get.
  change (log :: events) with ([log] ++ events).
  unfold eventsOf, counted. rewrite !filter_app.
  destruct (filter _ (filter _ [log])) as [|e es] eqn:E1; simpl; [done|].
  destruct (filter _ (filter _ events)) as [|e' es'] eqn:E2; simpl.
  - by rewrite app_nil_r.
  - change (e :: es ++ e' :: es') with ((e :: es) ++ e' :: es').
    by rewrite absorb_app.
Qed.


(** *** The loop stays exact on safe events *)

Definition bounded (c : Z) (m : list (string * Tally)) : Prop :=
  Forall (fun kv => 0 <= total kv.2 <= c) m.

Lemma mapSet_Forall (P : string * Tally -> Prop) key v m :
  P (key, v) -> Forall P m -> Forall P (mapSet key v m).
Proof.
  intros Hv. induction 1 as [|[k v'] m Hk Hm IH]; simpl.
  - by repeat constructor.
  - destruct (String.eqb_spec k key) as [->|Hne]; by constructor.
Qed.

Lemma bounded_get c m key :
  0 <= c -> bounded c m -> 0 <= total (default noTally (mapGet key m)) <= c.
Proof.
  intros Hc Hm. destruct (mapGet key m) as [t|] eqn:E; simpl; [|lia].
  apply mapGet_elem in E. unfold bounded in Hm. rewrite Forall_forall in Hm.
  apply (Hm _ E).
Qed.

Lemma tallyAll_exact boundary events :
  forall m c,
    0 <= c ->
    bounded c m ->
    Forall (fun log =>
              0 <= scoreOf log <= Ledger.MAX_UINT32
              /\ 0 <= timestampOf log <= MAX_SAFE_INTEGER) events ->
    c + Z.of_nat (length events) * Ledger.MAX_UINT32 <= MAX_SAFE_INTEGER ->
    tallyAll boundary events m = Some (tallyAllZ boundary events m).
Proof.
  unfold Ledger.MAX_UINT32, MAX_SAFE_INTEGER.
  induction events as [|log events IH]; intros m c Hc Hm Hev Hlen; [done|].
  apply Forall_cons in Hev as [[Hscore Hts] Hev].
  simpl in *. unfold tally, tallyZ.
  rewrite (exact_safe (scoreOf log)), (exact_safe (timestampOf log))
    by (unfold MAX_SAFE_INTEGER; lia).
  destruct (timestampOf log <? boundary).
  - apply (IH m c); try done. lia.
  - pose proof (bounded_get c m (playerOf log) Hc Hm) as Hex.
    rewrite exact_safe by (unfold MAX_SAFE_INTEGER; lia).
    apply (IH _ (c + (2 ^ 32 - 1))); try done; try lia.
    apply mapSet_Forall; simpl; [lia|].
    eapply Forall_impl; [exact Hm|]. simpl. intros kv ?. lia.
Qed.

(** *** Ranks *)

Lemma withRanks_row rows : forall index, row <$> withRanks index rows = rows.
Proof. induction rows as [|e rows IH]; intros index; csimpl; [done|]. by rewrite IH. Qed.

Lemma withRanks_length rows : forall index, length (withRanks index rows) = length rows.
Proof. induction rows as [|e rows IH]; intros index; simpl; [done|]. by rewrite IH. Qed.

Lemma withRanks_rank rows :
  forall index,
    rank <$> withRanks index rows = seqZ (Z.of_nat index + 1) (Z.of_nat (length rows)).
Proof.
  induction rows as [|e rows IH]; intros index; csimpl.
  - by rewrite seqZ_nil.
  - rewrite seqZ_cons by lia. rewrite IH. do 2 f_equal; lia.
Qed.

Lemma withRanks_take n rows :
  forall index, take n (withRanks index rows) = withRanks index (take n rows).
Proof.
  revert n. induction rows as [|e rows IH]; intros [|n] index; simpl; try done.
  by rewrite IH.
Qed.

Lemma withRanks_sorted rows :
  forall index,
    StronglySorted (JsArray.descending score) rows ->
    StronglySorted (fun x y => score (row y) <= score (row x)) (withRanks index rows).
Proof.
  induction rows as [|e rows IH]; intros index Hrows; simpl; [constructor|].
  apply StronglySorted_inv in Hrows as [Hrows He].
  constructor; [by apply IH|].
  apply Forall_forall. intros x Hx. simpl.
  rewrite Forall_forall in He. apply He.
  rewrite <- (withRanks_row rows (S index)). by apply list_elem_of_fmap_2.
Qed.

(** *** The board *)

Lemma withRanks_elem rows index x : x ∈ withRanks index rows -> row x ∈ rows.
Proof.
  intros Hx. rewrite <- (withRanks_row rows index). by apply list_elem_of_fmap_2.
Qed.

Lemma withRanks_ranked rows index e :
  e ∈ rows -> exists x, x ∈ withRanks index rows /\ row x = e.
Proof.
  intros He. rewrite <- (withRanks_row rows index) in He.
  apply list_elem_of_fmap in He as (x & -> & Hx). by exists x.
Qed.

(** On safe events the loop gets through, and the board is made of the map
    it leaves. *)
Lemma loadLeaderboard_safe timeFilter nowSec events :
  safe events ->
  loadLeaderboard timeFilter nowSec events
  = Some (withRanks 0
            (take 20
               (JsArray.sortDesc score
                  (toRow <$> tallyAllZ (startBoundary timeFilter nowSec) events [])))).
Proof.
  intros [Hev Hlen]. unfold loadLeaderboard.
  rewrite (tallyAll_exact _ events [] 0);
    [|lia|constructor|done|unfold Ledger.MAX_UINT32, MAX_SAFE_INTEGER; nia].
  by rewrite withRanks_take.
Qed.

(** The rows that are sorted: one for each player with an event inside the
    window, with the sum of the public scores of these events. *)
Lemma rows_of_events boundary events :
  let sorted := JsArray.sortDesc score (toRow <$> tallyAllZ boundary events []) in
  NoDup (address <$> sorted)
  /\ (forall e,
        e ∈ sorted ->
        eventsOf (address e) (counted boundary events) <> []
        /\ score e = totalOf (address e) boundary events)
  /\ (forall player,
        eventsOf player (counted boundary events) <> [] ->
        exists e,
          e ∈ sorted /\ address e = player /\ score e = totalOf player boundary events).
Proof.
  intros sorted.
  set (m := tallyAllZ boundary events []) in *.
  assert (Hm : NoDup m.*1) by (apply tallyAllZ_NoDup; constructor).
  assert (Hget : forall key,
             mapGet key m
             = match eventsOf key (counted boundary events) with
               | [] => None
               | es => Some (absorb noTally es)
               end).
  { intros key. subst m. by rewrite tallyAllZ_get. }
  assert (Hperm : sorted ≡ₚ toRow <$> m) by apply JsArray.sortDesc_Permutation.
  repeat apply conj.
  - by rewrite Hperm, <- list_fmap_compose.
  - intros e He. rewrite Hperm in He.
    apply list_elem_of_fmap in He as ([k t] & -> & Hkt). simpl.
    apply (elem_mapGet _ _ _ Hm) in Hkt. rewrite Hget in Hkt.
    destruct (eventsOf k (counted boundary events)) as [|e0 es] eqn:E; [done|].
    injection Hkt as <-. split; [done|].
    unfold totalOf. rewrite E, absorb_total, fmap_cons, sumZ_cons. cbn [total]. lia.
  - intros player Hplayer. pose proof (Hget player) as Hp.
    destruct (eventsOf player (counted boundary events)) as [|e0 es] eqn:E; [done|].
    apply mapGet_elem in Hp.
    exists (toRow (player, absorb noTally (e0 :: es))). repeat apply conj; [|done|].
    + rewrite Hperm. by apply list_elem_of_fmap_2.
    + unfold totalOf. rewrite E. unfold toRow, score. cbn [snd].
      rewrite absorb_total, fmap_cons, sumZ_cons. change (total noTally) with 0. lia.
Qed.

(** The leaderboard is the ranking of the players by their public scores
    inside the time window.  On safe events [loadLeaderboard] returns a
    board of at most 20 lines, ranked 1, 2, .. in this order, by
    non-increasing score, no player twice; the score of each line is the sum
    of the public scores of the player's events inside the window, and there
    is such an event; and a player with an event inside the window is either
    on the board or the board is full and none of its lines has a lower
    score. *)
Theorem leaderboard_is_the_ranking (timeFilter : TimeFilter) (nowSec : Z)
    (events : list EventLog) :
  safe events ->
  let boundary := startBoundary timeFilter nowSec in
  exists board,
    loadLeaderboard timeFilter nowSec events = Some board
    /\ (length board <= 20)%nat
    /\ rank <$> board = seqZ 1 (Z.of_nat (length board))
    /\ StronglySorted (fun x y => score (row y) <= score (row x)) board
    /\ NoDup ((fun x => address (row x)) <$> board)
    /\ (forall x,
          x ∈ board ->
          eventsOf (address (row x)) (counted boundary events) <> []
          /\ score (row x) = totalOf (address (row x)) boundary events)
    /\ (forall player,
          eventsOf player (counted boundary events) <> [] ->
          (exists x, x ∈ board /\ address (row x) = player)
          \/ (length board = 20%nat
              /\ forall x, x ∈ board -> totalOf player boundary events <= score (row x))).
Proof.
  intros Hsafe boundary.
  destruct (rows_of_events boundary events) as (Hdup & Hrows & Hplayers).
  set (sorted := JsArray.sortDesc score (toRow <$> tallyAllZ boundary events [])) in *.
  assert (Hsorted : StronglySorted (JsArray.descending score) sorted)
    by apply JsArray.sortDesc_sorted.
  exists (withRanks 0 (take 20 sorted)).
  split; [by apply loadLeaderboard_safe|].
  repeat apply conj.
  - rewrite withRanks_length, length_take. lia.
  - by rewrite withRanks_rank, withRanks_length.
  - apply withRanks_sorted.
    rewrite <- (take_drop 20 sorted) in Hsorted.
    by apply StronglySorted_app_1_l in Hsorted.
  - rewrite (list_fmap_compose row address), withRanks_row, fmap_take.
    eapply sublist_NoDup; [exact Hdup|apply sublist_take].
  - intros x Hx%withRanks_elem. by apply Hrows, (subseteq_take 20).
  - intros player (e & He & <- & <-)%Hplayers.
    destruct (JsArray.take_topmost score 20 sorted e Hsorted He) as [Hin|[Hfull Hlow]].
    + left. apply (withRanks_ranked _ 0) in Hin as (x & Hx & <-). by exists x.
    + right. rewrite withRanks_length. split; [done|].
      intros x Hx%withRanks_elem. by apply Hlow.
Qed.

(** *** The board at work *)

(** Three events of two players, the oldest outside the last day. *)
Definition sampleEvents : list EventLog :=
  [ {| argPlayer := Some "0xA1"; argScorePublic := Some 5; argTimestamp := Some 1000;
       transactionHash := "0x01" |};
    {| argPlayer := Some "0xB0"; argScorePublic := Some 9; argTimestamp := Some 90000;
       transactionHash := "0x02" |};
    {| argPlayer := Some "0xA1"; argScorePublic := Some 7; argTimestamp := Some 95000;
       transactionHash := "0x03" |} ].

Lemma leaderboard_is_the_ranking_witness :
  exists board,
    loadLeaderboard Today 100000 sampleEvents = Some board
    /\ (length board <= 20)%nat
    /\ rank <$> board = seqZ 1 (Z.of_nat (length board))
    /\ NoDup ((fun x => address (row x)) <$> board).
Proof.
  destruct (leaderboard_is_the_ranking Today 100000 sampleEvents)
    as (board & Hboard & Hlen & Hrank & _ & Hdup & _).
  - split; [repeat constructor; by vm_compute|by vm_compute].
  - by exists board.
Defined.

End Leaderboard.

(** *** The records of one player *)

Module Records.

Open Scope string_scope.
Open Scope list_scope.
Open Scope Z_scope.

(** The arguments of a [ResultSubmitted] log, and the log as [queryFilter]
    returns it ([args] is missing on a log that could not be decoded). *)
Record Args := {
  argId : Z;
  argPlayer : string;
  argResultHash : string;
  argResultCID : string;
  argScorePublic : Z;
  argTimestamp : Z
}.

Record RawLog := {
  args : option Args;
  transactionHash : string;
  logBlockNumber : Z
}.

Record RecordItem := {
  id : Z;
  player : string;
  resultHash : string;
  resultCID : string;
  scorePublic : Z;
  timestamp : Z;
  txHash : string;
  blockNumber : Z
}.

(** The function mapped over the logs; [undefined] is filtered out after. *)
Definition toItem (ev : RawLog) : option RecordItem :=
  match args ev with
  | None => None
  | Some a =>
      Some {| id := argId a;
              player := argPlayer a;
              resultHash := argResultHash a;
              resultCID := argResultCID a;
              scorePublic := argScorePublic a;
              timestamp := argTimestamp a;
              txHash := transactionHash ev;
              blockNumber := logBlockNumber ev |}
  end.

(** From the logs the query returned to the records the page shows:
    [items.sort((a, b) => Number(b.id - a.id))]. *)
Definition loadRecords (logs : list RawLog) : list RecordItem :=
  JsArray.sortDesc id (omap toItem logs).

Section AgainstTheLedger.

(** How ethers prints an address and a [bytes32], and the transaction and the
    block of the log entry at each position: none of it matters below. *)
Variable showAddress : Z -> string.
Variable showBytes32 : Z -> string.
Variable txHashAt : nat -> string.
Variable blockAt : nat -> Z.

(** [queryFilter(c.filters.ResultSubmitted(null, account), 0, "latest")]: the
    node returns, in log order, the [ResultSubmitted] events of the contract
    whose indexed [player] is the account.  [index] is the position of the
    first entry of [logs] in the whole log. *)
Fixpoint queryFilter (account : Z) (index : nat) (logs : list Ledger.Event)
    : list RawLog :=
  match logs with
  | [] => []
  | Ledger.ResultSubmitted i p rh cid pub t :: rest =>
      if p =? account then
        {| args := Some {| argId := i;
                           argPlayer := showAddress p;
                           argResultHash := showBytes32 rh;
                           argResultCID := cid;
                           argScorePublic := pub;
                           argTimestamp := t |};
           transactionHash := txHashAt index;
           logBlockNumber := blockAt index |}
        :: queryFilter account (S index) rest
      else queryFilter account (S index) rest
  | _ :: rest => queryFilter account (S index) rest
  end.

Lemma queryFilter_ids account logs :
  forall index,
    StronglySorted Z.lt (LedgerHistory.resultIds logs) ->
    StronglySorted (fun x y => id x < id y) (omap toItem (queryFilter account index logs))
    /\ Forall (fun x => id x ∈ LedgerHistory.resultIds logs)
         (omap toItem (queryFilter account index logs)).
Proof.
  induction logs as [|e logs IH]; intros index Hids; csimpl.
  - split; constructor.
  - destruct e as [i p rh cid pub t|cid v|p b t]; csimpl in *.
    + apply StronglySorted_cons in Hids as [Hi Hids].
      destruct (IH (S index) Hids) as [Hsorted Hin].
      assert (Hin' : Forall (fun x => id x ∈ i :: LedgerHistory.resultIds logs)
                       (omap toItem (queryFilter account (S index) logs))).
      { eapply Forall_impl; [exact Hin|]. simpl. intros x Hx.
        apply elem_of_cons. by right. }
      destruct (p =? account); csimpl; [|done].
      split.
      * apply StronglySorted_cons. split; [|done].
        rewrite Forall_forall in Hin. rewrite Forall_forall in Hi.
        apply Forall_forall. intros x Hx. simpl. by apply Hi, Hin.
      * constructor; [|done]. simpl. apply elem_of_cons. by left.
    + by apply IH.
    + by apply IH.
Qed.

Lemma queryFilter_submissions account logs :
  forall index,
    (fun it => (scorePublic it, timestamp it)) <$> omap toItem (queryFilter account index logs)
    = LedgerHistory.submissionsOf account logs.
Proof.
  unfold LedgerHistory.submissionsOf.
  induction logs as [|e logs IH]; intros index; csimpl; [done|].
  destruct e as [i p rh cid pub t|cid v|p b t]; csimpl; [|apply IH..].
  destruct (p =? account); csimpl; by rewrite IH.
Qed.

Lemma seqZ_increasing m n : StronglySorted Z.lt (seqZ m n).
Proof.
  destruct (Z_lt_le_dec n 0) as [Hn|Hn]; [rewrite seqZ_nil by lia; constructor|].
  rewrite <- (Z2Nat.id n) by done.
  induction (Z.to_nat n) as [|k IH]; [rewrite seqZ_nil by lia; constructor|].
  rewrite seqZ_S. apply StronglySorted_app_2; [|done|by repeat constructor].
  intros x1 x2 Hx1%elem_of_seqZ ->%list_elem_of_singleton. lia.
Qed.

Context `{scheme : Ledger.FHE}.

(** The records page lists what the player submitted, newest first: after any
    run on a fresh ledger, the page shows the accepted submissions of the
    account, each once, with its public score and block time, in the reverse
    of the order in which they were accepted; the ids go strictly down the
    list. *)
Theorem records_are_newest_first (txs : list Ledger.Tx) (account : Z) :
  let c := Ledger.run Ledger.deploy txs in
  let records := loadRecords (queryFilter account 0 (Ledger.logs c)) in
  (fun it => (scorePublic it, timestamp it)) <$> records
  = reverse (LedgerHistory.published account Ledger.deploy txs)
  /\ StronglySorted (fun x y => id y < id x) records
  /\ records = reverse (omap toItem (queryFilter account 0 (Ledger.logs c))).
Proof.
  intros c records. subst records. unfold loadRecords.
  destruct (LedgerHistory.run_issued txs Ledger.deploy) as (_ & _ & Hids & _).
  destruct (LedgerHistory.run_published account txs Ledger.deploy) as (_ & _ & _ & Hsub).
  fold c in Hids, Hsub. simpl in Hids, Hsub.
  assert (Hsorted : StronglySorted Z.lt (LedgerHistory.resultIds (Ledger.logs c))).
  { rewrite Hids.
    destruct (LedgerHistory.run_issued txs Ledger.deploy) as (_ & -> & _).
    apply seqZ_increasing. }
  destruct (queryFilter_ids account (Ledger.logs c) 0 Hsorted) as [Hitems _].
  rewrite (JsArray.sortDesc_increasing id _ Hitems).
  repeat apply conj; [| |done].
  - by rewrite fmap_reverse, queryFilter_submissions, Hsub.
  - set (items := omap toItem (queryFilter account 0 (Ledger.logs c))) in *.
    clearbody items. clear -Hitems.
    induction Hitems as [|x l _ IH Hx]; [constructor|].
    rewrite reverse_cons. apply StronglySorted_app_2; [|done|by repeat constructor].
    intros x1 x2 Hx1 ->%list_elem_of_singleton. rewrite elem_of_reverse in Hx1.
    rewrite Forall_forall in Hx. by apply Hx.
Qed.

End AgainstTheLedger.

End Records.

(** *** The leaderboard against the ledger *)

Module LeaderboardOnChain.

Import JsNumber Leaderboard.

Open Scope string_scope.
Open Scope list_scope.
Open Scope Z_scope.

Section AgainstTheLedger.

(** How ethers prints an address, and the transaction of the log entry at
    each position. *)
Variable showAddress : Z -> string.
Variable txHashAt : nat -> string.

(** [queryFilter(contract.filters.ResultSubmitted(), 0, "latest")]: the node
    returns the [ResultSubmitted] events of the contract in log order.
    [index] is the position of the first entry of [logs] in the whole log. *)
Fixpoint queryFilter (index : nat) (logs : list Ledger.Event) : list EventLog :=
  match logs with
  | [] => []
  | Ledger.ResultSubmitted i p rh cid pub t :: rest =>
      {| argPlayer := Some (showAddress p);
         argScorePublic := Some pub;
         argTimestamp := Some t;
         transactionHash := txHashAt index |}
      :: queryFilter (S index) rest
  | _ :: rest => queryFilter (S index) rest
  end.

(** Public scores of 32 bits and block times that are safe integers. *)
Definition plain (e : Ledger.Event) : Prop :=
  match e with
  | Ledger.ResultSubmitted _ _ _ _ pub t =>
      0 <= pub <= Ledger.MAX_UINT32 /\ 0 <= t <= MAX_SAFE_INTEGER
  | _ => True
  end.

Lemma queryFilter_safe logs :
  forall index,
    Forall plain logs ->
    Forall (fun log =>
              0 <= scoreOf log <= Ledger.MAX_UINT32
              /\ 0 <= timestampOf log <= MAX_SAFE_INTEGER) (queryFilter index logs)
    /\ (length (queryFilter index logs) <= length logs)%nat.
Proof.
  induction logs as [|e logs IH]; intros index Hlogs; simpl.
  - split; [constructor|lia].
  - apply Forall_cons in Hlogs as [He Hlogs].
    destruct (IH (S index) Hlogs) as [Hsafe Hlen].
    destruct e as [i p rh cid pub t|cid v|p b t]; simpl; split; try done; try lia.
    by constructor.
Qed.

Hypothesis showAddress_inj : forall x y, showAddress x = showAddress y -> x = y.

Lemma queryFilter_player logs p :
  forall index,
    Forall plain logs ->
    scoreOf <$> eventsOf (showAddress p) (counted 0 (queryFilter index logs))
    = fst <$> LedgerHistory.submissionsOf p logs.
Proof.
  unfold eventsOf, counted, LedgerHistory.submissionsOf.
  induction logs as [|e logs IH]; intros index Hlogs; [done|].
  apply Forall_cons in Hlogs as [He Hlogs].
  destruct e as [i q rh cid pub t|cid v|q b t]; csimpl; [|by apply IH..].
  destruct He as [_ Ht].
  rewrite filter_cons, decide_True by (unfold timestampOf; simpl; lia).
  rewrite filter_cons. unfold playerOf at 1. simpl.
  destruct (Z.eqb_spec q p) as [->|Hne].
  - rewrite decide_True by done. csimpl. f_equal. by apply IH.
  - rewrite decide_False by (intros ?%showAddress_inj; done). simpl. by apply IH.
Qed.

Lemma queryFilter_known logs :
  forall index log,
    log ∈ queryFilter index logs ->
    exists p, playerOf log = showAddress p /\ LedgerHistory.submissionsOf p logs <> [].
Proof.
  unfold LedgerHistory.submissionsOf.
  induction logs as [|e logs IH]; intros index log Hlog; simpl in *.
  - by apply elem_of_nil in Hlog.
  - assert (Hrest : log ∈ queryFilter (S index) logs ->
                    exists p, playerOf log = showAddress p
                              /\ match e with
                                 | Ledger.ResultSubmitted _ q _ _ pub t =>
                                     if q =? p then [(pub, t)] else []
                                 | _ => []
                                 end ++ flat_map
                                   (fun e => match e with
                                             | Ledger.ResultSubmitted _ q _ _ pub t =>
                                                 if q =? p then [(pub, t)] else []
                                             | _ => []
                                             end) logs <> []).
    { intros (p & Hp & Hne)%IH. exists p. split; [done|].
      intros [_ ?]%app_eq_nil. done. }
    destruct e as [i q rh cid pub t|cid v|q b t]; [|by apply Hrest..].
    apply elem_of_cons in Hlog as [->|Hlog]; [|by apply Hrest].
    exists q. split; [done|]. by rewrite Z.eqb_refl.
Qed.

Lemma map_is_fmap {A B} (f : A -> B) (l : list A) : map f l = f <$> l.
Proof. induction l as [|x l IH]; csimpl; [done|]. by rewrite IH. Qed.

Context `{scheme : Ledger.FHE}.

Lemma execute_plain c tx :
  0 <= Ledger.timestamp (Ledger.txEnv tx) <= MAX_SAFE_INTEGER ->
  Forall plain (Ledger.logs c) ->
  Forall plain (Ledger.logs (fst (Ledger.execute c tx)))
  /\ (length (Ledger.logs (fst (Ledger.execute c tx))) <= S (length (Ledger.logs c)))%nat.
Proof.
  intros Ht Hc.
  destruct (LedgerHistory.execute_outcome c tx)
    as [e E|ext proof rh cid pub score c' Hcall E _ _ Hpub _ _ _ _ _ _ _ Hlogs
       |b c' Hcall E _ _ _ _ _ _ _ _ Hlogs|cid v c' Hcall E _ _ Hlogs];
    rewrite E; simpl; [split; [done|lia]|..];
    rewrite Hlogs, length_app; simpl; (split; [|lia]);
    apply Forall_app; (split; [done|]); by apply Forall_singleton.
Qed.

Lemma run_plain txs :
  forall c,
    Forall (fun tx => 0 <= Ledger.timestamp (Ledger.txEnv tx) <= MAX_SAFE_INTEGER) txs ->
    Forall plain (Ledger.logs c) ->
    Forall plain (Ledger.logs (Ledger.run c txs))
    /\ (length (Ledger.logs (Ledger.run c txs)) <= length (Ledger.logs c) + length txs)%nat.
Proof.
  induction txs as [|tx txs IH]; intros c Htxs Hc.
  - simpl. split; [done|lia].
  - apply Forall_cons in Htxs as [Htx Htxs]. rewrite LedgerFacts.run_cons.
    destruct (execute_plain c tx Htx Hc) as [Hc' Hlen].
    destruct (IH _ Htxs Hc') as [Hrun Hlen']. split; [done|]. simpl. lia.
Qed.

(** The leaderboard can be rebuilt from the events: after any run on a fresh
    ledger -- of at most 2^20 transactions, at block times that are safe
    integers, addresses printed injectively -- the all-time board lists
    players who have played, each with a score equal to the
    [totalPublicScore] the contract holds for the player; and a player who
    has played is on the board, unless the board is full with 20 lines none of
    which has a lower score than the player's [totalPublicScore]. *)
Theorem leaderboard_shows_public_totals (txs : list Ledger.Tx) (nowSec : Z) :
  Forall (fun tx => 0 <= Ledger.timestamp (Ledger.txEnv tx) <= MAX_SAFE_INTEGER) txs ->
  Z.of_nat (length txs) <= 2 ^ 20 ->
  let c := Ledger.run Ledger.deploy txs in
  exists board,
    loadLeaderboard All nowSec (queryFilter 0 (Ledger.logs c)) = Some board
    /\ (forall x,
          x ∈ board ->
          exists p,
            address (row x) = showAddress p
            /\ 1 <= Ledger.numGames (Ledger.getPlayerStats c p)
            /\ score (row x) = Ledger.totalPublicScore (Ledger.getPlayerStats c p))
    /\ (forall p,
          1 <= Ledger.numGames (Ledger.getPlayerStats c p) ->
          (exists x, x ∈ board /\ address (row x) = showAddress p)
          \/ (length board = 20%nat
              /\ forall x,
                   x ∈ board ->
                   Ledger.totalPublicScore (Ledger.getPlayerStats c p) <= score (row x))).
Proof.
  intros Htxs Hlen c.
  destruct (run_plain txs Ledger.deploy Htxs) as [Hplain Hlogs]; [constructor|].
  fold c in Hplain, Hlogs. simpl in Hlogs.
  destruct (queryFilter_safe (Ledger.logs c) 0 Hplain) as [Hsafe Hlen'].
  set (events := queryFilter 0 (Ledger.logs c)) in *.
  destruct (rows_of_events 0 events) as (_ & Hrows & Hplayers).
  set (sorted := JsArray.sortDesc score (toRow <$> tallyAllZ 0 events [])) in *.
  assert (Hsorted : StronglySorted (JsArray.descending score) sorted)
    by apply JsArray.sortDesc_sorted.
  assert (Hstats : forall p,
             Ledger.numGames (Ledger.getPlayerStats c p)
             = Z.of_nat (length (LedgerHistory.submissionsOf p (Ledger.logs c)))
             /\ Ledger.totalPublicScore (Ledger.getPlayerStats c p)
                = totalOf (showAddress p) 0 events).
  { intros p.
    destruct (LedgerHistory.run_published p txs Ledger.deploy) as (Hs & Hrange & Hn & Hsub).
    fold c in Hs, Hsub. simpl in Hsub.
    assert (Hno : Ledger.getPlayerStats Ledger.deploy p = Ledger.noStats).
    { unfold Ledger.getPlayerStats. simpl. by rewrite lookup_empty. }
    rewrite Hno in Hs. rewrite Hsub. split.
    - unfold c. rewrite LedgerFacts.run_numGames by apply LedgerFacts.counted_deploy.
      rewrite Hno, Hn. simpl. lia.
    - unfold totalOf, events. rewrite queryFilter_player, Hsub by done.
      rewrite Hs, LedgerHistory.replay_total by (by vm_compute).
      rewrite map_is_fmap. simpl Ledger.totalPublicScore. rewrite Z.add_0_l.
      apply Z.mod_small.
      pose proof (LedgerHistory.published_length p txs Ledger.deploy) as Hmost.
      revert Hrange Hmost. generalize (LedgerHistory.published p Ledger.deploy txs).
      intros l Hl Hmost.
      assert (0 <= Ledger.sumZ (l.*1) <= Z.of_nat (length l) * Ledger.MAX_UINT32).
      { clear Hmost. induction Hl as [|x l Hx _ IH]; [done|].
        rewrite fmap_cons. unfold Ledger.sumZ in *. simpl length.
        simpl fold_right. lia. }
      unfold Ledger.MAX_UINT32 in *. nia. }
  exists (withRanks 0 (take 20 sorted)).
  split; [apply loadLeaderboard_safe; split; [done|lia]|]. split.
  - intros x Hx%withRanks_elem.
    destruct (Hrows (row x)) as [Hsome Hscore]; [by apply (subseteq_take 20)|].
    destruct (eventsOf (address (row x)) (counted 0 events)) as [|log es] eqn:E; [done|].
    assert (Hlog : log ∈ eventsOf (address (row x)) (counted 0 events))
      by (rewrite E; apply elem_of_cons; by left).
    unfold eventsOf, counted in Hlog.
    apply list_elem_of_filter in Hlog as [Hplayer Hlog].
    apply list_elem_of_filter in Hlog as [_ Hlog].
    apply queryFilter_known in Hlog as (p & Hp & Hne).
    exists p. destruct (Hstats p) as [Hgames Htotal].
    rewrite <- Hplayer, Hp in *. repeat apply conj; [done| |by rewrite Htotal].
    rewrite Hgames. destruct (LedgerHistory.submissionsOf p (Ledger.logs c)); [done|].
    simpl. lia.
  - intros p Hp. destruct (Hstats p) as [Hgames Htotal]. rewrite Htotal.
    destruct (Hplayers (showAddress p)) as (e & He & <- & <-).
    { intros Hnone.
      assert (Hzero : scoreOf <$> eventsOf (showAddress p) (counted 0 events) = [])
        by (by rewrite Hnone).
      unfold events in Hzero. rewrite queryFilter_player in Hzero by done.
      apply fmap_nil_inv in Hzero. rewrite Hzero in Hgames. simpl in Hgames. lia. }
    destruct (JsArray.take_topmost score 20 sorted e Hsorted He) as [Hin|[Hfull Hlow]].
    + left. apply (withRanks_ranked _ 0) in Hin as (x & Hx & <-). by exists x.
    + right. rewrite withRanks_length. split; [done|].
      intros x Hx%withRanks_elem. by apply Hlow.
Qed.

End AgainstTheLedger.

(** *** The link at work *)

(** Addresses printed in hexadecimal. *)
Definition showHex (a : Z) : string := "0x" ++ Coordinator.toString16 a.

Lemma showHex_inj x y : showHex x = showHex y -> x = y.
Proof.
  assert (Hint : forall z,
             HexadecimalString.NilZero.int_of_string (Coordinator.toString16 z)
             = Some (Z.to_hex_int z)).
  { intros z.
    assert (Coordinator.toString16 z
            = HexadecimalString.NilZero.string_of_int (Z.to_hex_int z)) as ->
      by (by destruct z).
    apply HexadecimalString.NilZero.isi; destruct z; simpl; try done;
      intros [= E]; by apply HexadecimalPos.Unsigned.to_uint_nonnil in E. }
  unfold showHex. intros [= E].
  change (Coordinator.toString16 x = Coordinator.toString16 y) in E.
  apply HexadecimalZ.to_int_inj.
  pose proof (Hint x) as Hx. rewrite E, Hint in Hx. by injection Hx.
Qed.

(** Players 7 and 8 submit 5, 7 and 9 points: the board has two lines, and
    each shows the public total the contract holds for its player. *)
Lemma leaderboard_shows_public_totals_witness :
  let txs :=
    [LedgerFacts.submitTx 7 1000 5; LedgerFacts.submitTx 8 1001 9;
     LedgerFacts.submitTx 7 1002 7] in
  let c := @Ledger.run LedgerFacts.plainFHE Ledger.deploy txs in
  exists board,
    loadLeaderboard All 2000 (queryFilter showHex (fun _ => "0xfeed") 0 (Ledger.logs c))
    = Some board
    /\ forall x,
         x ∈ board ->
         exists p,
           address (row x) = showHex p
           /\ 1 <= Ledger.numGames (Ledger.getPlayerStats c p)
           /\ score (row x) = Ledger.totalPublicScore (Ledger.getPlayerStats c p).
Proof.
  intros txs c.
  destruct (@leaderboard_shows_public_totals showHex (fun _ => "0xfeed") showHex_inj
              LedgerFacts.plainFHE txs 2000) as (board & Hboard & Hlines & _).
  - repeat constructor; by vm_compute.
  - by vm_compute.
  - by exists board.
Defined.

End LeaderboardOnChain.

(** *** The badges page *)

Module BadgesPage.

Import JsNumber.

Open Scope string_scope.
Open Scope list_scope.
Open Scope Z_scope.

(** A badge as the page computes it (name, description, icon and colour are
    presentation). *)
Record Badge := {
  id : Z;
  unlocked : bool;
  claimed : bool;
  progress : option Z;
  maxProgress : option Z
}.

(** The list the effect computes from [getPlayerStats(account)], from
    [today], the local midnight in seconds that [getTodayStart()] returns,
    and from what [badgeClaimed(id, account)] returns for each id. *)
Definition computeBadges (stats : Ledger.PlayerStats) (today : Z) (isClaimed : Z -> bool)
    : option (list Badge) :=
  match exact (Ledger.numGames stats), exact (Ledger.totalPublicScore stats),
        exact (Ledger.maxSinglePublicScore stats), exact (Ledger.lastPlayedAt stats) with
  | Some games, Some totalScore, Some maxScore, Some lastPlayedAt =>
      let playedToday := today <=? lastPlayedAt in
      let playedWeek :=
        if today - 6 * 24 * 60 * 60 <=? lastPlayedAt then Z.min games 3 else 0 in
      Some [ {| id := 1; unlocked := 1 <=? games; claimed := isClaimed 1;
                progress := None; maxProgress := None |};
             {| id := 2; unlocked := 10 <=? totalScore; claimed := isClaimed 2;
                progress := Some (Z.min totalScore 10); maxProgress := Some 10 |};
             {| id := 3; unlocked := 20 <=? maxScore; claimed := isClaimed 3;
                progress := Some (Z.min maxScore 20); maxProgress := Some 20 |};
             {| id := 4; unlocked := 3 <=? playedWeek; claimed := isClaimed 4;
                progress := Some (Z.min playedWeek 3); maxProgress := Some 3 |};
             {| id := 5; unlocked := playedToday; claimed := isClaimed 5;
                progress := Some (if playedToday then 1 else 0); maxProgress := Some 1 |};
             {| id := 6; unlocked := 10 <=? games; claimed := isClaimed 6;
                progress := Some (Z.min games 10); maxProgress := Some 10 |} ]
  | _, _, _, _ => None
  end.

(** The claim button is there for a badge that is unlocked and not claimed. *)
Definition offered (b : Badge) : bool := unlocked b && negb (claimed b).

(** Statistics the page reads exactly. *)
Definition safe (stats : Ledger.PlayerStats) : Prop :=
  0 <= Ledger.numGames stats <= MAX_SAFE_INTEGER
  /\ 0 <= Ledger.totalPublicScore stats <= MAX_SAFE_INTEGER
  /\ 0 <= Ledger.maxSinglePublicScore stats <= MAX_SAFE_INTEGER
  /\ 0 <= Ledger.lastPlayedAt stats <= MAX_SAFE_INTEGER.

(** A claim the page offers goes through: when the page was computed from
    the state of the ledger, and the claim is mined in that state no later
    than 24 hours after the local midnight the page took for [today], every
    badge with a claim button is claimed by [claimBadge]; for the badges 1,
    2, 3 and 6 the page shows "unlocked" exactly when the contract's
    condition holds. *)
Theorem offered_claims_go_through (c : Ledger.Chain) (env : Ledger.Env) (today : Z) :
  safe (Ledger.getPlayerStats c (Ledger.sender env)) ->
  Ledger.timestamp env <= today + 24 * 60 * 60 ->
  exists badges,
    computeBadges (Ledger.getPlayerStats c (Ledger.sender env)) today
      (fun b => Ledger.isClaimed c b (Ledger.sender env)) = Some badges
    /\ id <$> badges = [1; 2; 3; 4; 5; 6]
    /\ (forall b,
          b ∈ badges ->
          offered b = true ->
          exists c',
            Ledger.claimBadge env (id b) c = Ledger.Ok (tt, c')
            /\ Ledger.isClaimed c' (id b) (Ledger.sender env) = true)
    /\ (forall b,
          b ∈ badges ->
          id b <> 4 -> id b <> 5 ->
          (unlocked b = true
           <-> Ledger.badgeCondition (id b) (Ledger.getPlayerStats c (Ledger.sender env))
                 (Ledger.timestamp env) = Ledger.Ok true)).
Proof.
  intros (Hgames & Htotal & Hmax & Hlast) Hnow.
  unfold computeBadges.
  rewrite !exact_safe by lia.
  eexists. split; [reflexivity|]. split; [done|].
  set (s := Ledger.getPlayerStats c (Ledger.sender env)) in *.
  assert (Hclaim : forall b,
             Ledger.isClaimed c b (Ledger.sender env) = false ->
             Ledger.badgeCondition b s (Ledger.timestamp env) = Ledger.Ok true ->
             exists c',
               Ledger.claimBadge env b c = Ledger.Ok (tt, c')
               /\ Ledger.isClaimed c' b (Ledger.sender env) = true).
  { intros b Hfree Hcond. unfold Ledger.claimBadge, Ledger.isClaimed in *.
    rewrite Hfree. fold (Ledger.getPlayerStats c (Ledger.sender env)). fold s.
    rewrite Hcond. eexists. split; [done|]. simpl. by rewrite lookup_insert_eq. }
  unfold MAX_SAFE_INTEGER in *.
  split.
  - intros b Hb Hoffered. unfold offered in Hoffered.
    apply andb_true_iff in Hoffered as [Hun Hfree]. apply negb_true_iff in Hfree.
    repeat (apply elem_of_cons in Hb as [->|Hb]); [..|by apply elem_of_nil in Hb];
      simpl in *; apply Hclaim; try done;
      unfold Ledger.badgeCondition, Ledger.checkedAdd, Ledger.days, Ledger.MAX_UINT256;
      simpl;
      repeat match goal with
             | H : (_ <=? _) = true |- _ => apply Z.leb_le in H
             | H : context [if ?a <=? ?b then _ else _] |- _ => destruct (Z.leb_spec a b)
             | |- context [?a <=? ?b] => destruct (Z.leb_spec a b)
             end; try done; try lia.
  - intros b Hb H4 H5.
    repeat (apply elem_of_cons in Hb as [->|Hb]); [..|by apply elem_of_nil in Hb];
      simpl in *; try done;
      unfold Ledger.badgeCondition; simpl;
      match goal with
      | |- context [?a <=? ?b] => destruct (Z.leb_spec a b)
      end; split; try done; try lia.
Qed.

(** The page at work: after three games of player 7, the last at time 1000,
    a page computed with [today] = 900 offers badge 4, and the claim at time
    2000 goes through. *)
Lemma offered_claims_go_through_witness :
  let env := {| Ledger.sender := 7; Ledger.timestamp := 2000; Ledger.this := 99 |} in
  exists badges,
    computeBadges (Ledger.getPlayerStats LedgerFacts.threeGames 7) 900
      (fun b => Ledger.isClaimed LedgerFacts.threeGames b 7) = Some badges
    /\ forall b,
         b ∈ badges ->
         offered b = true ->
         exists c',
           Ledger.claimBadge env (id b) LedgerFacts.threeGames = Ledger.Ok (tt, c')
           /\ Ledger.isClaimed c' (id b) 7 = true.
Proof.
  intros env.
  destruct (offered_claims_go_through LedgerFacts.threeGames env 900)
    as (badges & Hbadges & _ & Hclaims & _).
  - repeat split; by vm_compute.
  - by vm_compute.
  - by exists badges.
Defined.

End BadgesPage.

(** ** Part VIII: the quiz

    [Play] asks its questions one after the other, counts the points and
    hands the score to [submitResultWith] of its hook. *)

Module Play.

Open Scope string_scope.
Open Scope list_scope.
Open Scope Z_scope.

Record Question := {
  id : Z;
  country : string;
  options : list string;
  difficulty : string;
  hint : string;
  explanation : string
}.

Definition mockQuestions : list Question :=
  [ {| id := 1; country := "中国"; options := ["中国"; "日本"; "韩国"; "蒙古"];
       difficulty := "easy"; hint := "世界上人口最多的国家之一";
       explanation := "中国，首都北京，是世界四大文明古国之一。" |};
    {| id := 2; country := "法国"; options := ["西班牙"; "意大利"; "法国"; "德国"];
       difficulty := "medium"; hint := "以埃菲尔铁塔闻名";
       explanation := "法国，首都巴黎，是欧洲浪漫之都。" |};
    {| id := 3; country := "巴西"; options := ["阿根廷"; "巴西"; "智利"; "秘鲁"];
       difficulty := "hard"; hint := "南美洲最大的国家";
       explanation := "巴西，首都巴西利亚，足球王国。" |} ].

(** The texts of [setSubmitError]. *)
Inductive SubmitError :=
| ConnectFirst                           (* "请先连接钱包后再上链。" *)
| ContractNotReady                       (* "合约未就绪：..." *)
| OnChainFailed (e : Coordinator.Thrown). (* "上链失败：" + e *)

(** The state cells of the page ([startTime] only feeds the time shown on the
    result page). *)
Record State := {
  currentQuestion : Z;
  selectedAnswer : option string;
  isAnswered : bool;
  isCorrect : bool;
  timeLeft : Z;
  score : Z;
  showHint : bool;
  submitError : option SubmitError;
  submitting : bool
}.

Definition opened : State :=
  {| currentQuestion := 0; selectedAnswer := None; isAnswered := false; isCorrect := false;
     timeLeft := 30; score := 0; showHint := false; submitError := None;
     submitting := false |}.

Definition setSubmitError (v : option SubmitError) (s : State) : State :=
  {| currentQuestion := currentQuestion s; selectedAnswer := selectedAnswer s;
     isAnswered := isAnswered s; isCorrect := isCorrect s; timeLeft := timeLeft s;
     score := score s; showHint := showHint s; submitError := v;
     submitting := submitting s |}.

Definition setSubmitting (v : bool) (s : State) : State :=
  {| currentQuestion := currentQuestion s; selectedAnswer := selectedAnswer s;
     isAnswered := isAnswered s; isCorrect := isCorrect s; timeLeft := timeLeft s;
     score := score s; showHint := showHint s; submitError := submitError s;
     submitting := v |}.

Definition setShowHint (v : bool) (s : State) : State :=
  {| currentQuestion := currentQuestion s; selectedAnswer := selectedAnswer s;
     isAnswered := isAnswered s; isCorrect := isCorrect s; timeLeft := timeLeft s;
     score := score s; showHint := v; submitError := submitError s;
     submitting := submitting s |}.

(** The mock CID the page submits. *)
Definition resultCID : string := "bafybeigdyrzt5sfp7udm7hu76uh7y26nf3efuylqabf3oclgtqy55fbzdi".

Section Page.

(** The questions ([mockQuestions] in the source), the deployment table of
    the hook, and [ethers.keccak256(ethers.toUtf8Bytes(JSON.stringify({ score })))]. *)
Variable questions : list Question.
Variable GeoChainAddresses : Z -> option Coordinator.AddressEntry.
Variable resultHashOf : Z -> string.

Definition totalQuestions : Z := Z.of_nat (length questions).

(** [mockQuestions[currentQuestion]] *)
Definition question (s : State) : option Question :=
  if currentQuestion s <? 0 then None else questions !! Z.to_nat (currentQuestion s).

Definition handleTimeout (s : State) : State :=
  {| currentQuestion := currentQuestion s; selectedAnswer := selectedAnswer s;
     isAnswered := true; isCorrect := false; timeLeft := timeLeft s;
     score := score s; showHint := showHint s; submitError := submitError s;
     submitting := submitting s |}.

(** One firing of the one-second interval; the effect keeps the interval only
    while the question is not answered. *)
Definition tick (s : State) : State :=
  if isAnswered s then s else
  if timeLeft s <=? 1 then
    let s := handleTimeout s in
    {| currentQuestion := currentQuestion s; selectedAnswer := selectedAnswer s;
       isAnswered := isAnswered s; isCorrect := isCorrect s; timeLeft := 0;
       score := score s; showHint := showHint s; submitError := submitError s;
       submitting := submitting s |}
  else
    {| currentQuestion := currentQuestion s; selectedAnswer := selectedAnswer s;
       isAnswered := isAnswered s; isCorrect := isCorrect s; timeLeft := timeLeft s - 1;
       score := score s; showHint := showHint s; submitError := submitError s;
       submitting := submitting s |}.

(** The points of a correct answer. *)
Definition pointsFor (timeLeft : Z) (showHint : bool) : Z :=
  let timeUsed := 30 - timeLeft in
  let points := if timeUsed <=? 10 then 3 else if timeUsed <=? 20 then 2 else 1 in
  if showHint then Z.max 1 (points - 1) else points.

(** [handleAnswer]; [None] is the [TypeError] of reading [country] of a
    question that is not there. *)
Definition handleAnswer (answer : string) (s : State) : option State :=
  if isAnswered s then Some s else
  match question s with
  | None => None
  | Some q =>
      let correct := (answer =? country q)%string in
      Some {| currentQuestion := currentQuestion s;
              selectedAnswer := Some answer;
              isAnswered := true;
              isCorrect := correct;
              timeLeft := timeLeft s;
              score := if correct then score s + pointsFor (timeLeft s) (showHint s)
                       else score s;
              showHint := showHint s;
              submitError := submitError s;
              submitting := submitting s |}
  end.

(** What [handleFinish] hands to [submitResultWith]. *)
Definition payloadOf (s : State) : Coordinator.Payload :=
  {| Coordinator.score := Coordinator.Finite (score s);
     Coordinator.scorePublic := score s;
     Coordinator.resultCID := resultCID;
     Coordinator.resultHash := resultHashOf (score s) |}.

(** [handleFinish] up to its [await]: the page, and the hook of the page
    after the call of [submitResultWith], if it gets that far.  [r] is the
    render the callback of the hook comes from. *)
Definition handleFinish (isConnected : bool) (r : Coordinator.Render)
    (s : State) (w : Coordinator.World) : State * Coordinator.World :=
  let s := setSubmitError None s in
  if negb isConnected then (setSubmitError (Some ConnectFirst) s, w) else
  let contractAddress :=
    Coordinator.address
      (Coordinator.contractOf GeoChainAddresses (Coordinator.chainId (Coordinator.props r))) in
  if negb (Coordinator.truthy contractAddress)
     || negb (Coordinator.defined (Coordinator.ethersSigner (Coordinator.props r)))
     || negb (Coordinator.instance (Coordinator.props r))
  then (setSubmitError (Some ContractNotReady) s, w)
  else (setSubmitting true s, Coordinator.submitCore GeoChainAddresses r (payloadOf s) w).

(** The rest of [handleFinish]: the hook has resolved the call (the page
    navigates to the result) or rejected it; [finally] follows. *)
Definition submitSettled (o : Coordinator.Obs) (s : State) : State :=
  match o with
  | Coordinator.SubmitRejected e => setSubmitting false (setSubmitError (Some (OnChainFailed e)) s)
  | _ => setSubmitting false s
  end.

Definition handleNext (isConnected : bool) (r : Coordinator.Render)
    (s : State) (w : Coordinator.World) : State * Coordinator.World :=
  if currentQuestion s <? totalQuestions - 1 then
    ({| currentQuestion := currentQuestion s + 1;
        selectedAnswer := None;
        isAnswered := false;
        isCorrect := isCorrect s;
        timeLeft := 30;
        score := score s;
        showHint := false;
        submitError := submitError s;
        submitting := submitting s |}, w)
  else handleFinish isConnected r s w.

(** What happens on the page: the interval fires, the player picks an answer,
    asks for the hint or goes on, a submission settles, or the hook of the
    page takes a turn of its own. *)
Inductive Event :=
| Tick
| Answer (answer : string)
| AskHint
| Next (isConnected : bool) (r : Coordinator.Render)
| SubmitSettled (o : Coordinator.Obs)
| HookTurn (turn : Z * Coordinator.Event).

Definition step (sw : State * Coordinator.World) (ev : Event)
    : option (State * Coordinator.World) :=
  let (s, w) := sw in
  match ev with
  | Tick => Some (tick s, w)
  | Answer answer =>
      match handleAnswer answer s with
      | Some s' => Some (s', w)
      | None => None
      end
  | AskHint => Some (setShowHint true s, w)
  | Next isConnected r => Some (handleNext isConnected r s w)
  | SubmitSettled o => Some (submitSettled o s, w)
  | HookTurn turn => Some (s, Coordinator.step GeoChainAddresses w turn)
  end.

Fixpoint run (sw : State * Coordinator.World) (events : list Event)
    : option (State * Coordinator.World) :=
  match events with
  | [] => Some sw
  | ev :: rest =>
      match step sw ev with
      | Some sw' => run sw' rest
      | None => None
      end
  end.

(** *** The score *)

Lemma pointsFor_range t h : 1 <= pointsFor t h <= 3.
Proof.
  unfold pointsFor.
  destruct (30 - t <=? 10), (30 - t <=? 20), h; simpl; lia.
Qed.

(** What holds of the page all along. *)
Definition sound (s : State) : Prop :=
  0 <= currentQuestion s < totalQuestions
  /\ 0 <= timeLeft s <= 30
  /\ 0 <= score s <= 3 * currentQuestion s + (if isAnswered s then 3 else 0).

Lemma sound_question s : sound s -> exists q, question s = Some q.
Proof.
  intros ([Hlo Hhi] & _). unfold question, totalQuestions in *.
  destruct (Z.ltb_spec (currentQuestion s) 0); [lia|].
  destruct (questions !! Z.to_nat (currentQuestion s)) as [q|] eqn:E; [by exists q|].
  apply lookup_ge_None in E. lia.
Qed.

Lemma sound_step s w ev :
  sound s -> exists s' w', step (s, w) ev = Some (s', w') /\ sound s'.
Proof.
  intros Hs. pose proof Hs as (Hq & Ht & Hscore).
  destruct ev as [|answer| |isConnected r|o|turn]; simpl.
  - eexists _, _. split; [done|]. unfold tick, sound in *.
    destruct (isAnswered s) eqn:Ea; [by rewrite Ea|].
    destruct (Z.leb_spec (timeLeft s) 1); simpl; lia.
  - destruct (sound_question s Hs) as [q Eq].
    unfold handleAnswer. rewrite Eq.
    destruct (isAnswered s) eqn:Ea; eexists _, _; (split; [done|]); [done|].
    unfold sound in *. simpl.
    pose proof (pointsFor_range (timeLeft s) (showHint s)).
    destruct (_ =? _)%string; lia.
  - eexists _, _. by split.
  - unfold handleNext, handleFinish.
    destruct (Z.ltb_spec (currentQuestion s) (totalQuestions - 1)).
    + eexists _, _. split; [done|]. unfold sound in *. simpl.
      destruct (isAnswered s); lia.
    + destruct (negb isConnected); [by eexists _, _|].
      destruct (_ || _); by eexists _, _.
  - eexists _, _. split; [done|]. by destruct o.
  - eexists _, _. by split.
Qed.

Lemma sound_run events :
  forall s w, sound s -> exists s' w', run (s, w) events = Some (s', w') /\ sound s'.
Proof.
  induction events as [|ev events IH]; intros s w Hs; cbn [run].
  - by exists s, w.
  - destruct (sound_step s w ev Hs) as (s1 & w1 & -> & Hs1). by apply IH.
Qed.

Lemma score_of_a_session events w s w' :
  questions <> [] ->
  run (opened, w) events = Some (s, w') ->
  0 <= score s <= 3 * totalQuestions.
Proof.
  intros Hq Hrun.
  assert (Hopened : sound opened).
  { unfold sound, totalQuestions. simpl. destruct questions; [done|]. simpl length. lia. }
  destruct (sound_run events opened w Hopened) as (s1 & w1 & Hrun1 & Hcq & Ht & Hscore).
  rewrite Hrun in Hrun1. injection Hrun1 as <- <-.
  destruct (isAnswered s); lia.
Qed.

(** The quiz counts at most 3 points a question: whatever happens on the
    page, in whatever order, the page never reads a question that is not
    there, the clock stays between 0 and 30, and the score is between 0 and 3
    times the number of questions; the score is what [handleFinish] hands to
    the hook, as encrypted and as public score, and when it fits 32 bits the
    hook sends it on unchanged. *)
Theorem quiz_score_is_bounded (events : list Event) (w : Coordinator.World) :
  questions <> [] ->
  exists s w',
    run (opened, w) events = Some (s, w')
    /\ 0 <= currentQuestion s < totalQuestions
    /\ 0 <= timeLeft s <= 30
    /\ 0 <= score s <= 3 * totalQuestions
    /\ Coordinator.score (payloadOf s) = Coordinator.Finite (score s)
    /\ Coordinator.scorePublic (payloadOf s) = score s
    /\ (3 * totalQuestions <= Ledger.MAX_UINT32 ->
        Coordinator.toUint32 (Coordinator.scorePublic (payloadOf s)) = score s)
    /\ (forall isConnected r,
          snd (handleFinish isConnected r s w') = w'
          \/ snd (handleFinish isConnected r s w')
             = Coordinator.submitCore GeoChainAddresses r (payloadOf s) w').
Proof.
  intros Hq.
  assert (Hopened : sound opened).
  { unfold sound, totalQuestions. simpl. destruct questions; [done|]. simpl length. lia. }
  destruct (sound_run events opened w Hopened) as (s & w' & Hrun & Hcq & Ht & Hscore).
  assert (Hbound : 0 <= score s <= 3 * totalQuestions) by (destruct (isAnswered s); lia).
  exists s, w'. repeat apply conj; try done; try lia.
  - intros Hfits. unfold Coordinator.toUint32, payloadOf. simpl. apply Z.mod_small.
    unfold Ledger.MAX_UINT32 in Hfits. lia.
  - intros isConnected r. unfold handleFinish.
    destruct (negb isConnected); [by left|].
    destruct (_ || _); [by left|by right].
Qed.

End Page.

(** *** The quiz against the ledger *)

Section AgainstTheLedger.

Context `{scheme : Ledger.FHE}.

Variable GeoChainAddresses : Z -> option Coordinator.AddressEntry.
Variable resultHashOf : Z -> string.

(** A score that some session of the quiz, with the three questions of the
    page, ends with. *)
Definition playable (n : Z) : Prop :=
  exists events w s w',
    run mockQuestions GeoChainAddresses resultHashOf (opened, w) events = Some (s, w')
    /\ n = score s.

(** Playing does not earn the high-score badge: the three questions give at
    most 9 points, so on a ledger where every accepted submission of a player
    carries, as public score, the score of some session of the quiz, the
    player's claim of badge 3 is never set and [claimBadge(3)] reverts with
    "Conditions not met". *)
Theorem playing_never_earns_badge_three (txs : list Ledger.Tx) (env : Ledger.Env) :
  Forall (fun x => playable (fst x))
    (LedgerHistory.published (Ledger.sender env) Ledger.deploy txs) ->
  Ledger.isClaimed (Ledger.run Ledger.deploy txs) 3 (Ledger.sender env) = false
  /\ Ledger.claimBadge env 3 (Ledger.run Ledger.deploy txs)
     = Ledger.Revert Ledger.ConditionsNotMet.
Proof.
  intros Hplayed. apply LedgerHistory.badge_three_out_of_reach.
  induction Hplayed as [|x l (events & w & s & w' & Hrun & Hx) _ IH]; simpl; [lia|].
  apply score_of_a_session in Hrun; [|done].
  unfold totalQuestions in Hrun. simpl in Hrun.
  unfold LedgerHistory.maxZ in *. simpl. lia.
Qed.

End AgainstTheLedger.

(** A session on the three questions of the page: a right answer at once,
    then a second of the clock. *)
Lemma quiz_score_is_bounded_witness :
  exists s w',
    run mockQuestions CoordinatorFacts.localTable (fun _ => "0xabc")
      (opened, Coordinator.start (CoordinatorFacts.connected CoordinatorFacts.alice))
      [Answer "中国"; Tick] = Some (s, w')
    /\ 0 <= score s <= 3 * totalQuestions mockQuestions.
Proof.
  destruct (quiz_score_is_bounded mockQuestions CoordinatorFacts.localTable
              (fun _ => "0xabc") [Answer "中国"; Tick]
              (Coordinator.start (CoordinatorFacts.connected CoordinatorFacts.alice)))
    as (s & w' & Hrun & _ & _ & Hscore & _); [done|].
  by exists s, w'.
Defined.

(** Player 7 gets the first answer right at once and the second with the
    hint, and submits the 5 points: badge 3 is out of reach. *)
Lemma playing_never_earns_badge_three_witness :
  let env := {| Ledger.sender := 7; Ledger.timestamp := 2000; Ledger.this := 99 |} in
  let c := @Ledger.run LedgerFacts.plainFHE Ledger.deploy [LedgerFacts.submitTx 7 1000 5] in
  Ledger.isClaimed c 3 7 = false
  /\ Ledger.claimBadge env 3 c = Ledger.Revert Ledger.ConditionsNotMet.
Proof.
  intros env c.
  apply (@playing_never_earns_badge_three LedgerFacts.plainFHE CoordinatorFacts.localTable
           (fun _ => "0xabc") [LedgerFacts.submitTx 7 1000 5] env).
  repeat constructor.
  exists [Answer "中国";
          Next true (Coordinator.latest
                       (Coordinator.start
                          (CoordinatorFacts.connected CoordinatorFacts.alice)));
          AskHint; Answer "法国"],
         (Coordinator.start (CoordinatorFacts.connected CoordinatorFacts.alice)).
  eexists _, _. split; [by vm_compute|by vm_compute].
Defined.

End Play.
